(** * mini_nrbf: a shallow embedding of the MS-NRBF record codec

    The development follows [src/mini_nrbf/__init__.py]: the primitive
    reader and writer, the record type enumeration with its [parse] and
    [serialize] methods, the record stream and record writer with their
    object tables, and the [DNBinary.parse] loop.

    Python objects are mutated in place and keep their mutations when an
    exception unwinds, so every method is a function from the state of the
    object to an outcome (a value or a raised exception) paired with the
    state it leaves behind.  A computation that has not finished within
    its fuel has no outcome at all ([None]). *)

From Stdlib Require Import ZArith List Lia Bool.
From Stdlib.Strings Require Import Byte.
From stdpp Require Import base option list gmap.
Import ListNotations.

Local Open Scope Z_scope.

(** ** Exceptions and outcomes *)

(** The exceptions the module can raise.  [ValueError] is raised at two
    places; they are kept apart by the place that raises them.  In Python
    [UnicodeEncodeError] and [UnicodeDecodeError] are subclasses of
    [ValueError]; here each is a constructor of its own. *)
Inductive exn : Set :=
| EOFError              (* PrimitiveStream.read: short read *)
| UnicodeDecodeError    (* bytes.decode("u8") *)
| UnicodeEncodeError    (* str.encode("u8") *)
| RuntimeError          (* PrimitiveStream.string: length prefix too long *)
| ValueError_enum       (* RecordTypeEnum(tag): not a member *)
| ValueError_byte       (* PrimitiveWriter.byte: value out of range *)
| TypeError             (* RecordTypeEnum.serialize: isinstance check *)
| struct_error.         (* struct.pack / struct.unpack *)

Inductive outcome (A : Type) : Type :=
| Return (a : A)
| Raise (e : exn).
Arguments Return {A} a.
Arguments Raise {A} e.

(** [M St A]: a method of an object with state [St] returning an [A]. *)
Definition M (St A : Type) : Type := St -> option (outcome A * St).

Definition ret {St A} (a : A) : M St A := fun s => Some (Return a, s).
Definition raise {St A} (e : exn) : M St A := fun s => Some (Raise e, s).
Definition bind {St A B} (m : M St A) (f : A -> M St B) : M St B :=
  fun s =>
    match m s with
    | None => None
    | Some (Return a, s') => f a s'
    | Some (Raise e, s') => Some (Raise e, s')
    end.
(** Lift a pure outcome (a library call that may raise) into a method. *)
Definition lift {St A} (o : outcome A) : M St A := fun s => Some (o, s).

Notation "'let*' x ':=' m 'in' k" := (bind m (fun x => k))
  (at level 10, x name, m at level 200, k at level 200,
   format "'[v' 'let*'  x  ':='  m  'in' '/' k ']'").

(** ** Bytes *)

Definition byte_to_Z (b : byte) : Z := Z.of_N (Byte.to_N b).
Definition byte_of_Z (z : Z) : byte := default x00 (Byte.of_N (Z.to_N z)).

(** ** Records (the [RecordItem] union) *)

(** A Python [str] is a sequence of code points. *)
Definition str : Type := list Z.

Inductive RecordItem : Type :=
| SerializedStreamHeader (root_id header_id major_version minor_version : Z)
| BinaryObjectString (object_id : Z) (value : str)
| MessageEnd.

(** ** Library functions: [struct] and the UTF-8 codec *)

(** [struct.pack("<B", v)] *)
Definition struct_pack_B (v : Z) : outcome (list byte) :=
  if (0 <=? v) && (v <=? 255) then Return [byte_of_Z v] else Raise struct_error.

(** [struct.unpack("<B", data)[0]] *)
Definition struct_unpack_B (data : list byte) : outcome Z :=
  match data with
  | [b] => Return (byte_to_Z b)
  | _ => Raise struct_error
  end.

(** [struct.pack("<i", v)]: four bytes, little-endian, two's complement. *)
Definition struct_pack_i (v : Z) : outcome (list byte) :=
  if (- 2 ^ 31 <=? v) && (v <? 2 ^ 31) then
    let u := v mod 2 ^ 32 in
    Return [byte_of_Z (u mod 256); byte_of_Z (u / 2 ^ 8 mod 256);
            byte_of_Z (u / 2 ^ 16 mod 256); byte_of_Z (u / 2 ^ 24 mod 256)]
  else Raise struct_error.

(** [struct.unpack("<i", data)[0]] *)
Definition struct_unpack_i (data : list byte) : outcome Z :=
  match data with
  | [b0; b1; b2; b3] =>
      let u := byte_to_Z b0 + 2 ^ 8 * byte_to_Z b1
               + 2 ^ 16 * byte_to_Z b2 + 2 ^ 24 * byte_to_Z b3 in
      Return (if u <? 2 ^ 31 then u else u - 2 ^ 32)
  | _ => Raise struct_error
  end.

(** The UTF-8 form of one code point; surrogates (U+D800..U+DFFF) and
    values that are no code point have none. *)
Definition utf8_encode_char (c : Z) : option (list byte) :=
  if (0 <=? c) && (c <? 128) then
    Some [byte_of_Z c]
  else if (128 <=? c) && (c <? 2048) then
    Some [byte_of_Z (192 + c / 64); byte_of_Z (128 + c mod 64)]
  else if (2048 <=? c) && (c <? 55296) || (57344 <=? c) && (c <? 65536) then
    Some [byte_of_Z (224 + c / 4096); byte_of_Z (128 + c / 64 mod 64);
          byte_of_Z (128 + c mod 64)]
  else if (65536 <=? c) && (c <? 1114112) then
    Some [byte_of_Z (240 + c / 262144); byte_of_Z (128 + c / 4096 mod 64);
          byte_of_Z (128 + c / 64 mod 64); byte_of_Z (128 + c mod 64)]
  else None.

(** [value.encode("u8")] *)
Fixpoint str_encode (value : str) : outcome (list byte) :=
  match value with
  | [] => Return []
  | c :: rest =>
      match utf8_encode_char c, str_encode rest with
      | Some bs, Return r => Return (bs ++ r)
      | _, _ => Raise UnicodeEncodeError
      end
  end.

(** The payload of a UTF-8 continuation byte (10xxxxxx). *)
Definition utf8_cont (b : byte) : option Z :=
  let z := byte_to_Z b in
  if (128 <=? z) && (z <? 192) then Some (z - 128) else None.

Definition decoded (c : Z) (o : outcome str) : outcome str :=
  match o with
  | Return s => Return (c :: s)
  | Raise e => Raise e
  end.

(** [raw.decode("u8")]: the strict decoder; overlong forms, surrogates,
    code points above U+10FFFF, stray or missing continuation bytes are
    errors. *)
Fixpoint bytes_decode (raw : list byte) : outcome str :=
  match raw with
  | [] => Return []
  | b0 :: raw1 =>
      let z0 := byte_to_Z b0 in
      if z0 <? 128 then decoded z0 (bytes_decode raw1)
      else if z0 <? 192 then Raise UnicodeDecodeError
      else if z0 <? 224 then
        match raw1 with
        | b1 :: raw2 =>
            match utf8_cont b1 with
            | Some c1 =>
                let c := (z0 - 192) * 64 + c1 in
                if 128 <=? c then decoded c (bytes_decode raw2)
                else Raise UnicodeDecodeError
            | None => Raise UnicodeDecodeError
            end
        | _ => Raise UnicodeDecodeError
        end
      else if z0 <? 240 then
        match raw1 with
        | b1 :: b2 :: raw3 =>
            match utf8_cont b1, utf8_cont b2 with
            | Some c1, Some c2 =>
                let c := (z0 - 224) * 4096 + c1 * 64 + c2 in
                if (2048 <=? c) && negb ((55296 <=? c) && (c <? 57344))
                then decoded c (bytes_decode raw3)
                else Raise UnicodeDecodeError
            | _, _ => Raise UnicodeDecodeError
            end
        | _ => Raise UnicodeDecodeError
        end
      else if z0 <? 248 then
        match raw1 with
        | b1 :: b2 :: b3 :: raw4 =>
            match utf8_cont b1, utf8_cont b2, utf8_cont b3 with
            | Some c1, Some c2, Some c3 =>
                let c := (z0 - 240) * 262144 + c1 * 4096 + c2 * 64 + c3 in
                if (65536 <=? c) && (c <? 1114112)
                then decoded c (bytes_decode raw4)
                else Raise UnicodeDecodeError
            | _, _, _ => Raise UnicodeDecodeError
            end
        | _ => Raise UnicodeDecodeError
        end
      else Raise UnicodeDecodeError
  end.

(** ** PrimitiveStream (and RecordStream, which extends it) *)

(** The state of a [RecordStream]: the unread part of the byte source and
    the object table [_objects]. *)
Record RecordStream : Type := mkRecordStream {
  RecordStream_stream : list byte;
  RecordStream_objects : gmap Z RecordItem
}.

(** [self.stream.read(size)] on an [io.BytesIO]: up to [size] bytes, all
    that is left when [size] is negative. *)
Definition stream_read (size : Z) : M RecordStream (list byte) :=
  fun self =>
    let data := RecordStream_stream self in
    if size <? 0 then
      Some (Return data, mkRecordStream [] (RecordStream_objects self))
    else
      Some (Return (take (Z.to_nat size) data),
            mkRecordStream (drop (Z.to_nat size) data)
                           (RecordStream_objects self)).

Definition PrimitiveStream_read (size : Z) : M RecordStream (list byte) :=
  let* rdbytes := stream_read size in
  if negb (Z.of_nat (length rdbytes) =? size) then raise EOFError
  else ret rdbytes.

Definition PrimitiveStream_byte : M RecordStream Z :=
  let* data := PrimitiveStream_read 1 in
  lift (struct_unpack_B data).

Definition PrimitiveStream_int32 : M RecordStream Z :=
  let* data := PrimitiveStream_read 4 in
  lift (struct_unpack_i data).

(** The [for i in range(5)] loop of [PrimitiveStream.string]; [n] counts
    the iterations that are left, [i] is the loop variable.  It yields the
    decoded length. *)
Fixpoint string_length (n : nat) (i length shift : Z) : M RecordStream Z :=
  match n with
  | O => ret length
  | S n' =>
      let* byte := PrimitiveStream_byte in
      let length := length + Z.shiftl (Z.land byte (Z.lnot 128)) shift in
      let shift := shift + 7 in
      if Z.land byte 128 =? 0 then ret length
      else if i =? 4 then raise RuntimeError
      else string_length n' (i + 1) length shift
  end.

Definition PrimitiveStream_string : M RecordStream str :=
  let* length := string_length 5 0 0 0 in
  let* raw := PrimitiveStream_read length in
  lift (bytes_decode raw).

(** ** PrimitiveWriter *)

(** The state of a [PrimitiveWriter] is the content of the [io.BytesIO]
    it writes to; [self.stream.write(data)] appends. *)
Definition stream_write (data : list byte) : M (list byte) unit :=
  fun buffer => Some (Return tt, buffer ++ data).

Definition PrimitiveWriter_byte (value : Z) : M (list byte) unit :=
  if negb ((0 <=? value) && (value <=? 255)) then raise ValueError_byte
  else
    let* data := lift (struct_pack_B value) in
    stream_write data.

Definition PrimitiveWriter_int32 (value : Z) : M (list byte) unit :=
  let* data := lift (struct_pack_i value) in
  stream_write data.

(** The [while length >= 0x80] loop of [PrimitiveWriter.string]; it yields
    the value of [length] when the loop is left. *)
Fixpoint string_while (fuel : nat) (length : Z) : M (list byte) Z :=
  if 128 <=? length then
    match fuel with
    | O => fun _ => None
    | S fuel' =>
        let* _ := PrimitiveWriter_byte (Z.lor (Z.land length 127) 128) in
        string_while fuel' (Z.shiftr length 7)
    end
  else ret length.

(** The length prefix: the loop and the final [self.byte(length & 0x7F)].
    Every iteration makes [length] smaller, so [length] itself is fuel
    enough ([string_while_fuel] below). *)
Definition string_prefix (length : Z) : M (list byte) unit :=
  let* length := string_while (Z.to_nat length) length in
  PrimitiveWriter_byte (Z.land length 127).

Definition PrimitiveWriter_string (value : str) : M (list byte) unit :=
  let* encoded := lift (str_encode value) in
  let length := Z.of_nat (length encoded) in
  let* _ := string_prefix length in
  stream_write encoded.

(** ** RecordTypeEnum *)

Inductive RecordTypeEnum : Set :=
| Enum_SerializedStreamHeader
| Enum_BinaryObjectString
| Enum_MessageEnd.

Definition RecordTypeEnum_value (self : RecordTypeEnum) : Z :=
  match self with
  | Enum_SerializedStreamHeader => 0
  | Enum_BinaryObjectString => 6
  | Enum_MessageEnd => 11
  end.

(** [RecordTypeEnum(value)]: the member with that value. *)
Definition RecordTypeEnum_call (value : Z) : outcome RecordTypeEnum :=
  if value =? 0 then Return Enum_SerializedStreamHeader
  else if value =? 6 then Return Enum_BinaryObjectString
  else if value =? 11 then Return Enum_MessageEnd
  else Raise ValueError_enum.

Definition RecordTypeEnum_from_record (record : RecordItem) : RecordTypeEnum :=
  match record with
  | SerializedStreamHeader _ _ _ _ => Enum_SerializedStreamHeader
  | BinaryObjectString _ _ => Enum_BinaryObjectString
  | MessageEnd => Enum_MessageEnd
  end.

Definition RecordStream_set_object (ref : Z) (obj : RecordItem)
  : M RecordStream unit :=
  fun self =>
    Some (Return tt,
          mkRecordStream (RecordStream_stream self)
                         (<[ref := obj]> (RecordStream_objects self))).

Definition RecordTypeEnum_parse (self : RecordTypeEnum)
  : M RecordStream RecordItem :=
  match self with
  | Enum_SerializedStreamHeader =>
      let* root_id := PrimitiveStream_int32 in
      let* header_id := PrimitiveStream_int32 in
      let* major_version := PrimitiveStream_int32 in
      let* minor_version := PrimitiveStream_int32 in
      ret (SerializedStreamHeader root_id header_id major_version minor_version)
  | Enum_BinaryObjectString =>
      let* object_id := PrimitiveStream_int32 in
      let* value := PrimitiveStream_string in
      let record := BinaryObjectString object_id value in
      let* _ := RecordStream_set_object object_id record in
      ret record
  | Enum_MessageEnd => ret MessageEnd
  end.

(** ** RecordStream *)

Definition RecordStream_record : M RecordStream RecordItem :=
  let* tag := PrimitiveStream_byte in
  let* record_type := lift (RecordTypeEnum_call tag) in
  RecordTypeEnum_parse record_type.

Definition RecordStream_object_definitions (self : RecordStream) : nat :=
  size (RecordStream_objects self).

(** ** RecordWriter *)

Record RecordWriter : Type := mkRecordWriter {
  RecordWriter_writer : list byte;
  RecordWriter_objects : gmap Z RecordItem
}.

(** A call [writer.writer.m(...)] of a [PrimitiveWriter] method. *)
Definition on_writer {A} (m : M (list byte) A) : M RecordWriter A :=
  fun self =>
    match m (RecordWriter_writer self) with
    | None => None
    | Some (o, buffer) =>
        Some (o, mkRecordWriter buffer (RecordWriter_objects self))
    end.

Definition RecordWriter_set_object (ref : Z) (obj : RecordItem)
  : M RecordWriter unit :=
  fun self =>
    Some (Return tt,
          mkRecordWriter (RecordWriter_writer self)
                         (<[ref := obj]> (RecordWriter_objects self))).

Definition RecordTypeEnum_serialize (self : RecordTypeEnum)
    (record : RecordItem) : M RecordWriter unit :=
  let* _ := on_writer (PrimitiveWriter_byte (RecordTypeEnum_value self)) in
  match self with
  | Enum_SerializedStreamHeader =>
      match record with
      | SerializedStreamHeader root_id header_id major_version minor_version =>
          let* _ := on_writer (PrimitiveWriter_int32 root_id) in
          let* _ := on_writer (PrimitiveWriter_int32 header_id) in
          let* _ := on_writer (PrimitiveWriter_int32 major_version) in
          on_writer (PrimitiveWriter_int32 minor_version)
      | _ => raise TypeError
      end
  | Enum_BinaryObjectString =>
      match record with
      | BinaryObjectString object_id value =>
          let* _ := on_writer (PrimitiveWriter_int32 object_id) in
          let* _ := on_writer (PrimitiveWriter_string value) in
          RecordWriter_set_object object_id record
      | _ => raise TypeError
      end
  | Enum_MessageEnd =>
      match record with
      | MessageEnd => ret tt
      | _ => raise TypeError
      end
  end.

Definition RecordWriter_record (record : RecordItem) : M RecordWriter unit :=
  let record_type := RecordTypeEnum_from_record record in
  RecordTypeEnum_serialize record_type record.

Definition RecordWriter_object_definitions (self : RecordWriter) : nat :=
  size (RecordWriter_objects self).

(** ** DNBinary *)

Record DNBinary : Type := mkDNBinary {
  DNBinary_stream : RecordStream;
  DNBinary_records : list RecordItem
}.

(** [DNBinary(stream)] *)
Definition DNBinary_init (stream : list byte) : DNBinary :=
  mkDNBinary (mkRecordStream stream ∅) [].

(** A call [self.stream.m(...)] of a [RecordStream] method. *)
Definition on_stream {A} (m : M RecordStream A) : M DNBinary A :=
  fun self =>
    match m (DNBinary_stream self) with
    | None => None
    | Some (o, stream) => Some (o, mkDNBinary stream (DNBinary_records self))
    end.

(** [self._records.append(record)] *)
Definition records_append (record : RecordItem) : M DNBinary unit :=
  fun self =>
    Some (Return tt,
          mkDNBinary (DNBinary_stream self) (DNBinary_records self ++ [record])).

Definition isinstance_MessageEnd (record : RecordItem) : bool :=
  match record with
  | MessageEnd => true
  | _ => false
  end.

(** [DNBinary.parse]: the [while True] loop, one iteration per unit of
    fuel. *)
Fixpoint DNBinary_parse (fuel : nat) : M DNBinary (list RecordItem) :=
  match fuel with
  | O => fun _ => None
  | S fuel' =>
      let* record := on_stream RecordStream_record in
      let* _ := records_append record in
      if isinstance_MessageEnd record
      then fun self => Some (Return (DNBinary_records self), self)
      else DNBinary_parse fuel'
  end.

Definition DNBinary_object_definitions (self : DNBinary) : nat :=
  RecordStream_object_definitions (DNBinary_stream self).

(** ** Module functions *)

(** [parse_stream]: every iteration of the loop reads at least the tag
    byte, so one more iteration than there are bytes is fuel enough
    ([DNBinary_parse_terminates] and [DNBinary_parse_fuel] below).  The
    final state of the [DNBinary] object is returned with the outcome. *)
Definition parse_stream (stream : list byte)
  : option (outcome (list RecordItem) * DNBinary) :=
  DNBinary_parse (S (length stream)) (DNBinary_init stream).

Definition parse_bytes (data : list byte)
  : option (outcome (list RecordItem) * DNBinary) :=
  parse_stream data.

(** The [for record in records] loop of [serialize_records]. *)
Fixpoint for_records (records : list RecordItem) : M RecordWriter unit :=
  match records with
  | [] => ret tt
  | record :: rest =>
      let* _ := RecordWriter_record record in
      for_records rest
  end.

(** [serialize_records]; the final state of the [RecordWriter] is returned
    with the outcome. *)
Definition serialize_records (records : list RecordItem)
  : option (outcome (list byte) * RecordWriter) :=
  (let* _ := for_records records in
   fun writer => Some (Return (RecordWriter_writer writer), writer))
    (mkRecordWriter [] ∅).

(** * Vocabulary of the properties *)

(** [reads m]: the method [m] of a record stream comes back with an
    outcome and leaves a suffix of the stream it was given. *)
Definition reads {A} (m : M RecordStream A) : Prop :=
  forall stream objs, exists o k objs',
    m (mkRecordStream stream objs) = Some (o, mkRecordStream (drop k stream) objs').

(** [never_raises e m]: no run of [m] ends with the exception [e]. *)
Definition never_raises {St A} (e : exn) (m : M St A) : Prop :=
  forall s s', m s <> Some (Raise e, s').

(** The bytes of a length prefix, group by group, as the writer emits
    them: low seven bits first, the high bit set on all but the last. *)
Fixpoint prefix_bytes (fuel : nat) (length : Z) : list byte :=
  if 128 <=? length then
    match fuel with
    | O => []
    | S fuel' =>
        byte_of_Z (length mod 128 + 128) :: prefix_bytes fuel' (length / 128)
    end
  else [byte_of_Z length].

(** The values [struct.pack("<i", v)] accepts. *)
Definition is_int32 (v : Z) : bool := (- 2 ^ 31 <=? v) && (v <? 2 ^ 31).

(** The code points [str.encode("u8")] accepts: the Unicode scalar
    values, U+0000..U+10FFFF without the surrogates U+D800..U+DFFF. *)
Definition is_scalar (c : Z) : bool :=
  (0 <=? c) && (c <? 55296) || (57344 <=? c) && (c <? 1114112).

(** The number of bytes of the UTF-8 form of a string. *)
Definition utf8_length (value : str) : Z :=
  match str_encode value with
  | Return encoded => Z.of_nat (length encoded)
  | Raise _ => 0
  end.

(** The records both directions can handle: integer fields that fit a
    signed 32-bit integer, strings of scalar values whose UTF-8 form is
    shorter than 2^35 bytes (the largest length five 7-bit groups hold). *)
Definition wf_record (record : RecordItem) : bool :=
  match record with
  | SerializedStreamHeader root_id header_id major_version minor_version =>
      is_int32 root_id && is_int32 header_id
      && is_int32 major_version && is_int32 minor_version
  | BinaryObjectString object_id value =>
      is_int32 object_id && forallb is_scalar value
      && (utf8_length value <? 2 ^ 35)
  | MessageEnd => true
  end.

(** A record sequence whose last record is a [MessageEnd], the only one. *)
Fixpoint ends_in_only_MessageEnd (records : list RecordItem) : bool :=
  match records with
  | [] => false
  | [record] => isinstance_MessageEnd record
  | record :: rest =>
      negb (isinstance_MessageEnd record) && ends_in_only_MessageEnd rest
  end.

(** What [set_object] makes of an object table when a record has been
    read or written: a [BinaryObjectString] is entered under its id. *)
Definition registered (objs : gmap Z RecordItem) (record : RecordItem)
  : gmap Z RecordItem :=
  match record with
  | BinaryObjectString object_id _ => <[object_id := record]> objs
  | _ => objs
  end.

Definition objects_of (records : list RecordItem) : gmap Z RecordItem :=
  foldl registered ∅ records.

(** The bytes of a record on the wire: the tag, then the fields. *)
Definition int32_bytes (v : Z) : list byte :=
  match struct_pack_i v with
  | Return data => data
  | Raise _ => []
  end.

Definition string_bytes (value : str) : list byte :=
  match str_encode value with
  | Return encoded =>
      prefix_bytes (length encoded) (Z.of_nat (length encoded)) ++ encoded
  | Raise _ => []
  end.

Definition wire (record : RecordItem) : list byte :=
  match record with
  | SerializedStreamHeader root_id header_id major_version minor_version =>
      [x00] ++ int32_bytes root_id ++ int32_bytes header_id
      ++ int32_bytes major_version ++ int32_bytes minor_version
  | BinaryObjectString object_id value =>
      [x06] ++ int32_bytes object_id ++ string_bytes value
  | MessageEnd => [x0b]
  end.

Definition wire_records (records : list RecordItem) : list byte :=
  concat (map wire records).

(** [truncation_safe m]: when [m] returns a value on a stream, then on
    every prefix of that stream it either does the same, leaving the same
    bytes but for the cut-off tail, or raises [EOFError]. *)
Definition truncation_safe {A} (m : M RecordStream A) : Prop :=
  forall (head tail : list byte) objs v self',
    m (mkRecordStream (head ++ tail) objs) = Some (Return v, self') ->
    (exists head' objs',
        self' = mkRecordStream (head' ++ tail) objs'
        /\ m (mkRecordStream head objs) = Some (Return v, mkRecordStream head' objs'))
    \/ (exists self'', m (mkRecordStream head objs) = Some (Raise EOFError, self'')).

(** The records whose integer fields fit a signed 32-bit integer. *)
Definition int32_fields (record : RecordItem) : bool :=
  match record with
  | SerializedStreamHeader root_id header_id major_version minor_version =>
      is_int32 root_id && is_int32 header_id
      && is_int32 major_version && is_int32 minor_version
  | BinaryObjectString object_id _ => is_int32 object_id
  | MessageEnd => true
  end.

(** The records [RecordWriter.record] can write: integer fields that fit
    a signed 32-bit integer and strings of Unicode scalar values. *)
Definition writable (record : RecordItem) : bool :=
  int32_fields record
  && match record with
     | BinaryObjectString _ value => forallb is_scalar value
     | _ => true
     end.

(** The ids of the [BinaryObjectString] records of a sequence, in order. *)
Definition object_ids (records : list RecordItem) : list Z :=
  omap (fun record =>
          match record with
          | BinaryObjectString object_id _ => Some object_id
          | _ => None
          end) records.

(** [extension_safe m]: when [m] has an outcome other than [EOFError] on a
    stream, it has the same outcome on every extension of that stream,
    leaving the same bytes and the extension. *)
Definition extension_safe {A} (m : M RecordStream A) : Prop :=
  forall (head tail : list byte) objs o head' objs',
    m (mkRecordStream head objs) = Some (o, mkRecordStream head' objs') ->
    o <> Raise EOFError ->
    m (mkRecordStream (head ++ tail) objs)
    = Some (o, mkRecordStream (head' ++ tail) objs').

(** The exceptions decoding can end with. *)
Definition decoder_exn (e : exn) : bool :=
  match e with
  | EOFError | UnicodeDecodeError | RuntimeError | ValueError_enum => true
  | _ => false
  end.

(** [raises_as_decoder m]: an exception [m] ends with is one of the
    decoder's, and an [EOFError] leaves the stream used up. *)
Definition raises_as_decoder {A} (m : M RecordStream A) : Prop :=
  forall self e self',
    m self = Some (Raise e, self') ->
    decoder_exn e = true
    /\ (e = EOFError -> RecordStream_stream self' = []).

Definition isinstance_BinaryObjectString (record : RecordItem) : bool :=
  match record with
  | BinaryObjectString _ _ => true
  | _ => false
  end.

(** The records the string reader can take in: a string whose UTF-8 form
    has 2^35 bytes or more has a length prefix the reader gives up on. *)
Definition readable (record : RecordItem) : bool :=
  match record with
  | BinaryObjectString _ value => utf8_length value <? 2 ^ 35
  | _ => true
  end.

(** The records the decoder reads and goes on after. *)
Definition passes (record : RecordItem) : bool :=
  negb (isinstance_MessageEnd record) && readable record.

(** The records of a sequence the decoder gets to read from its encoding:
    those up to and including the first [MessageEnd], or before the first
    record that is not [readable]. *)
Fixpoint decoded_part (records : list RecordItem) : list RecordItem :=
  match records with
  | [] => []
  | record :: rest =>
      if readable record then
        if isinstance_MessageEnd record then [record]
        else record :: decoded_part rest
      else []
  end.

(** A record sequence in which no [BinaryObjectString] follows a
    [MessageEnd]. *)
Fixpoint no_BinaryObjectString_after_MessageEnd
    (records : list RecordItem) : bool :=
  match records with
  | [] => true
  | record :: rest =>
      if isinstance_MessageEnd record
      then forallb (fun later => negb (isinstance_BinaryObjectString later)) rest
      else no_BinaryObjectString_after_MessageEnd rest
  end.

(** * Properties *)

(** Case analysis on the comparisons of a goal. *)
Ltac Zcmp :=
  repeat match goal with
    | |- context [?a <? ?b] => destruct (Z.ltb_spec a b)
    | |- context [?a <=? ?b] => destruct (Z.leb_spec a b)
    | |- context [?a =? ?b] => destruct (Z.eqb_spec a b)
    end; simpl; try lia.

(** ** Bytes and bit operations *)

Lemma byte_to_Z_range (b : byte) : 0 <= byte_to_Z b < 256.
Proof.
  unfold byte_to_Z. pose proof (Byte.to_N_bounded b). lia.
Qed.

Lemma byte_of_to_Z (b : byte) : byte_of_Z (byte_to_Z b) = b.
Proof.
  unfold byte_of_Z, byte_to_Z. by rewrite N2Z.id, Byte.of_to_N.
Qed.

Lemma byte_to_of_Z (z : Z) : 0 <= z < 256 -> byte_to_Z (byte_of_Z z) = z.
Proof.
  intros Hz. unfold byte_of_Z, byte_to_Z.
  destruct (Byte.of_N (Z.to_N z)) as [b|] eqn:E; simpl.
  - apply Byte.to_of_N in E. rewrite E. lia.
  - apply Byte.of_N_None_iff in E. lia.
Qed.

(** [byte & ~0x80] keeps the low seven bits. *)
Lemma land_lnot_128 (b : byte) :
  Z.land (byte_to_Z b) (Z.lnot 128) = byte_to_Z b mod 128.
Proof. destruct b; reflexivity. Qed.

(** [not byte & 0x80] tests the high bit. *)
Lemma land_128_eqb (b : byte) :
  (Z.land (byte_to_Z b) 128 =? 0) = (byte_to_Z b <? 128).
Proof. destruct b; reflexivity. Qed.

Lemma land_127 (z : Z) : Z.land z 127 = z mod 128.
Proof. change 127 with (Z.ones 7). by rewrite Z.land_ones. Qed.

Lemma lor_128 (z : Z) : 0 <= z < 128 -> Z.lor z 128 = z + 128.
Proof.
  intros Hz. rewrite <- (byte_to_of_Z z) by lia.
  assert (Hb : forall b : byte,
             byte_to_Z b < 128 -> Z.lor (byte_to_Z b) 128 = byte_to_Z b + 128).
  { intros b. destruct b; vm_compute; intros H; first [reflexivity | discriminate]. }
  apply Hb. rewrite byte_to_of_Z; lia.
Qed.

Lemma shiftr_7 (z : Z) : Z.shiftr z 7 = z / 128.
Proof. by rewrite Z.shiftr_div_pow2. Qed.

(** ** The method monad *)

Section Monad.
Context {St A B : Type}.
Implicit Types (m : M St A) (f : A -> M St B).

Lemma bind_Return m f s a s' :
  m s = Some (Return a, s') -> bind m f s = f a s'.
Proof. intros H. unfold bind. by rewrite H. Qed.

Lemma bind_Raise m f s e s' :
  m s = Some (Raise e, s') -> bind m f s = Some (Raise e, s').
Proof. intros H. unfold bind. by rewrite H. Qed.

Lemma bind_None m f s : m s = None -> bind m f s = None.
Proof. intros H. unfold bind. by rewrite H. Qed.

Lemma bind_inv m f s o s2 :
  bind m f s = Some (o, s2) ->
  (exists a s1, m s = Some (Return a, s1) /\ f a s1 = Some (o, s2))
  \/ (exists e, m s = Some (Raise e, s2) /\ o = Raise e).
Proof.
  unfold bind. destruct (m s) as [[[a|e] s1]|]; intros H.
  - left. eauto.
  - right. exists e. by inversion H.
  - discriminate.
Qed.

Lemma bind_inv_Return m f s b s2 :
  bind m f s = Some (Return b, s2) ->
  exists a s1, m s = Some (Return a, s1) /\ f a s1 = Some (Return b, s2).
Proof.
  intros H. apply bind_inv in H as [H | (e & _ & H)]; [done | discriminate].
Qed.
End Monad.

(** ** PrimitiveStream: what a read does to the stream *)

Lemma PrimitiveStream_read_app (a rest : list byte) objs :
  PrimitiveStream_read (Z.of_nat (length a)) (mkRecordStream (a ++ rest) objs)
  = Some (Return a, mkRecordStream rest objs).
Proof.
  unfold PrimitiveStream_read, bind, stream_read; simpl.
  destruct (Z.ltb_spec (Z.of_nat (length a)) 0); [lia|].
  rewrite Nat2Z.id, take_app_length, drop_app_length.
  by rewrite Z.eqb_refl.
Qed.

Lemma PrimitiveStream_read_short (size : Z) (data : list byte) objs :
  Z.of_nat (length data) < size ->
  PrimitiveStream_read size (mkRecordStream data objs)
  = Some (Raise EOFError, mkRecordStream [] objs).
Proof.
  intros Hs. unfold PrimitiveStream_read, bind, stream_read; simpl.
  destruct (Z.ltb_spec size 0); [lia|].
  rewrite take_ge, drop_ge by lia.
  destruct (Z.eqb_spec (Z.of_nat (length data)) size); [lia | done].
Qed.

Lemma PrimitiveStream_read_enough (size : Z) (data : list byte) objs :
  0 <= size <= Z.of_nat (length data) ->
  PrimitiveStream_read size (mkRecordStream data objs)
  = Some (Return (take (Z.to_nat size) data),
          mkRecordStream (drop (Z.to_nat size) data) objs).
Proof.
  intros Hs.
  rewrite <- (take_drop (Z.to_nat size) data) at 1.
  replace size with (Z.of_nat (length (take (Z.to_nat size) data))) at 1.
  - apply PrimitiveStream_read_app.
  - rewrite length_take. lia.
Qed.

Lemma PrimitiveStream_byte_cons (b : byte) (rest : list byte) objs :
  PrimitiveStream_byte (mkRecordStream (b :: rest) objs)
  = Some (Return (byte_to_Z b), mkRecordStream rest objs).
Proof.
  unfold PrimitiveStream_byte.
  by rewrite (bind_Return _ _ _ _ _ (PrimitiveStream_read_app [b] rest objs)).
Qed.

Lemma PrimitiveStream_byte_nil objs :
  PrimitiveStream_byte (mkRecordStream [] objs)
  = Some (Raise EOFError, mkRecordStream [] objs).
Proof. reflexivity. Qed.

(** A reader method only ever moves forward in the stream, and always
    comes back with an outcome. *)
Lemma reads_ret {A} (a : A) : reads (ret a).
Proof. intros stream objs. by exists (Return a), 0%nat, objs. Qed.

Lemma reads_raise {A} (e : exn) : reads (@raise _ A e).
Proof. intros stream objs. by exists (Raise e), 0%nat, objs. Qed.

Lemma reads_lift {A} (o : outcome A) : reads (lift o).
Proof. intros stream objs. by exists o, 0%nat, objs. Qed.

Lemma reads_bind {A B} (m : M RecordStream A) (f : A -> M RecordStream B) :
  reads m -> (forall a, reads (f a)) -> reads (bind m f).
Proof.
  intros Hm Hf stream objs.
  destruct (Hm stream objs) as ([a|e] & k & objs' & E).
  - destruct (Hf a (drop k stream) objs') as (o & k' & objs'' & E').
    exists o, (k + k')%nat, objs''.
    rewrite (bind_Return _ _ _ _ _ E), E'. by rewrite drop_drop.
  - exists (Raise e), k, objs'. by rewrite (bind_Raise _ _ _ _ _ E).
Qed.

Lemma reads_read (size : Z) : reads (PrimitiveStream_read size).
Proof.
  intros stream objs.
  destruct (Z_lt_le_dec size 0) as [Hneg|Hpos].
  - exists (Raise EOFError), (length stream), objs.
    unfold PrimitiveStream_read, bind, stream_read; simpl.
    destruct (Z.ltb_spec size 0); [|lia].
    destruct (Z.eqb_spec (Z.of_nat (length stream)) size); [lia|].
    by rewrite drop_all.
  - destruct (Z_lt_le_dec (Z.of_nat (length stream)) size) as [Hshort|Hok].
    + exists (Raise EOFError), (length stream), objs.
      rewrite drop_all. by apply PrimitiveStream_read_short.
    + eexists _, _, objs. by apply PrimitiveStream_read_enough.
Qed.

Lemma reads_byte : reads PrimitiveStream_byte.
Proof. apply reads_bind; [apply reads_read | intros; apply reads_lift]. Qed.

Lemma reads_int32 : reads PrimitiveStream_int32.
Proof. apply reads_bind; [apply reads_read | intros; apply reads_lift]. Qed.

Lemma reads_string_length n : forall i length shift,
  reads (string_length n i length shift).
Proof.
  induction n as [|n IH]; intros i len shift; simpl.
  - apply reads_ret.
  - apply reads_bind; [apply reads_byte|]. intros b.
    destruct (_ =? 0); [apply reads_ret|].
    destruct (i =? 4); [apply reads_raise | apply IH].
Qed.

Lemma reads_string : reads PrimitiveStream_string.
Proof.
  apply reads_bind; [apply reads_string_length|]. intros len.
  apply reads_bind; [apply reads_read | intros; apply reads_lift].
Qed.

Lemma reads_set_object ref obj : reads (RecordStream_set_object ref obj).
Proof.
  intros stream objs. by exists (Return tt), 0%nat, (<[ref:=obj]> objs).
Qed.

Lemma reads_parse (self : RecordTypeEnum) : reads (RecordTypeEnum_parse self).
Proof.
  destruct self; simpl.
  - repeat (apply reads_bind; [apply reads_int32 | intros ?]). apply reads_ret.
  - apply reads_bind; [apply reads_int32 | intros ?].
    apply reads_bind; [apply reads_string | intros ?].
    apply reads_bind; [apply reads_set_object | intros ?]. apply reads_ret.
  - apply reads_ret.
Qed.

Lemma reads_record : reads RecordStream_record.
Proof.
  apply reads_bind; [apply reads_byte | intros tag].
  apply reads_bind; [apply reads_lift | apply reads_parse].
Qed.

(** A record that is read starts with its tag byte: at least one byte of
    the stream is used up. *)
Lemma RecordStream_record_consumes stream objs record self' :
  RecordStream_record (mkRecordStream stream objs) = Some (Return record, self') ->
  exists tag rest k,
    stream = tag :: rest /\ RecordStream_stream self' = drop k rest.
Proof.
  destruct stream as [|tag rest]; [discriminate|].
  unfold RecordStream_record.
  rewrite (bind_Return _ _ _ _ _ (PrimitiveStream_byte_cons tag rest objs)).
  intros H. exists tag, rest.
  destruct (reads_bind (lift (RecordTypeEnum_call (byte_to_Z tag)))
              (fun record_type => RecordTypeEnum_parse record_type)
              (reads_lift _) reads_parse rest objs)
    as (o & k & objs' & E).
  rewrite E in H. inversion H; subst. by exists k.
Qed.

(** ** The length prefix of a string, read *)

Lemma string_length_cons n i length shift (b : byte) rest objs :
  string_length (S n) i length shift (mkRecordStream (b :: rest) objs)
  = let length := length + Z.shiftl (Z.land (byte_to_Z b) (Z.lnot 128)) shift in
    if Z.land (byte_to_Z b) 128 =? 0
    then Some (Return length, mkRecordStream rest objs)
    else if i =? 4 then Some (Raise RuntimeError, mkRecordStream rest objs)
    else string_length n (i + 1) length (shift + 7) (mkRecordStream rest objs).
Proof.
  simpl. rewrite (bind_Return _ _ _ _ _ (PrimitiveStream_byte_cons b rest objs)).
  destruct (_ =? 0); [done|]. by destruct (i =? 4).
Qed.

Lemma string_length_nil n i length shift objs :
  string_length (S n) i length shift (mkRecordStream [] objs)
  = Some (Raise EOFError, mkRecordStream [] objs).
Proof. reflexivity. Qed.

Lemma string_length_at_most n : forall i length shift stream objs,
  exists o k, (k <= n)%nat /\
    string_length n i length shift (mkRecordStream stream objs)
    = Some (o, mkRecordStream (drop k stream) objs).
Proof.
  induction n as [|n IH]; intros i len shift stream objs.
  - by exists (Return len), 0%nat.
  - destruct stream as [|b rest].
    + exists (Raise EOFError), 0%nat. split; [lia | done].
    + rewrite string_length_cons; cbv zeta.
      destruct (_ =? 0); [|destruct (i =? 4)].
      * eexists _, 1%nat. split; [lia | done].
      * eexists _, 1%nat. split; [lia | done].
      * destruct (IH (i + 1) (len + Z.shiftl (Z.land (byte_to_Z b) (Z.lnot 128)) shift)
                    (shift + 7) rest objs) as (o & k & Hk & E).
        exists o, (S k). split; [lia | done].
Qed.

(** ** The parse loop *)

Lemma DNBinary_parse_S fuel (self : DNBinary) :
  DNBinary_parse (S fuel) self
  = match RecordStream_record (DNBinary_stream self) with
    | None => None
    | Some (Raise e, stream) =>
        Some (Raise e, mkDNBinary stream (DNBinary_records self))
    | Some (Return record, stream) =>
        let self' := mkDNBinary stream (DNBinary_records self ++ [record]) in
        if isinstance_MessageEnd record
        then Some (Return (DNBinary_records self'), self')
        else DNBinary_parse fuel self'
    end.
Proof.
  simpl. unfold bind, on_stream, records_append.
  destruct (RecordStream_record _) as [[[record|e] stream]|]; simpl; [|done..].
  by destruct (isinstance_MessageEnd record).
Qed.

(** More fuel does not change an outcome that has been reached. *)
Lemma DNBinary_parse_fuel fuel : forall fuel' self r,
  (fuel <= fuel')%nat ->
  DNBinary_parse fuel self = Some r -> DNBinary_parse fuel' self = Some r.
Proof.
  induction fuel as [|fuel IH]; intros fuel' self r Hle; [discriminate|].
  destruct fuel' as [|fuel']; [lia|].
  rewrite !DNBinary_parse_S.
  destruct (RecordStream_record _) as [[[record|e] stream]|]; [|done..].
  cbv zeta. destruct (isinstance_MessageEnd record); [done|].
  apply IH. lia.
Qed.

(** The loop ends as soon as the fuel exceeds the number of unread bytes,
    and it appends at most one record per byte it uses up. *)
Lemma DNBinary_parse_terminates fuel : forall self,
  (length (RecordStream_stream (DNBinary_stream self)) < fuel)%nat ->
  exists o self',
    DNBinary_parse fuel self = Some (o, self')
    /\ (length (DNBinary_records self')
        + length (RecordStream_stream (DNBinary_stream self'))
        <= length (DNBinary_records self)
           + length (RecordStream_stream (DNBinary_stream self)))%nat.
Proof.
  induction fuel as [|fuel IH]; intros [[stream objs] records] Hlt; simpl in Hlt; [lia|].
  rewrite DNBinary_parse_S; simpl.
  destruct (reads_record stream objs) as ([record|e] & k & objs' & E); rewrite E.
  - apply RecordStream_record_consumes in E as (tag & rest & k' & -> & Hk').
    simpl in Hk', Hlt.
    assert (Hdrop : (length (drop k (tag :: rest)) <= length rest)%nat).
    { rewrite Hk', length_drop. lia. }
    cbv zeta. destruct (isinstance_MessageEnd record).
    + eexists _, _. split; [done|]. simpl. rewrite length_app. simpl. lia.
    + destruct (IH (mkDNBinary (mkRecordStream (drop k (tag :: rest)) objs')
                      (records ++ [record]))) as (o & self' & E' & Hle).
      { simpl. lia. }
      exists o, self'. split; [done|].
      simpl in Hle. rewrite length_app in Hle. simpl in *. lia.
  - eexists _, _. split; [done|]. simpl. rewrite length_drop. lia.
Qed.

(** ** PrimitiveWriter *)

Lemma PrimitiveWriter_byte_ok (value : Z) (buffer : list byte) :
  0 <= value <= 255 ->
  PrimitiveWriter_byte value buffer = Some (Return tt, buffer ++ [byte_of_Z value]).
Proof.
  intros Hv. unfold PrimitiveWriter_byte, struct_pack_B.
  destruct (Z.leb_spec 0 value); [|lia].
  destruct (Z.leb_spec value 255); [|lia]. reflexivity.
Qed.

Lemma PrimitiveWriter_byte_raises (value : Z) (buffer : list byte) :
  ~ (0 <= value <= 255) ->
  PrimitiveWriter_byte value buffer = Some (Raise ValueError_byte, buffer).
Proof.
  intros Hv. unfold PrimitiveWriter_byte.
  destruct (Z.leb_spec 0 value); [|done].
  destruct (Z.leb_spec value 255); [lia | done].
Qed.

Lemma continuation_group_range (length : Z) :
  128 <= Z.lor (Z.land length 127) 128 <= 255
  /\ Z.lor (Z.land length 127) 128 = length mod 128 + 128.
Proof.
  rewrite land_127. pose proof (Z.mod_pos_bound length 128).
  rewrite lor_128 by lia. lia.
Qed.

Lemma final_group_range (length : Z) :
  0 <= Z.land length 127 <= 127 /\ Z.land length 127 = length mod 128.
Proof. rewrite land_127. pose proof (Z.mod_pos_bound length 128). lia. Qed.

Lemma string_while_done fuel (length : Z) (buffer : list byte) :
  length < 128 -> string_while fuel length buffer = Some (Return length, buffer).
Proof.
  intros Hl. destruct fuel; simpl; by destruct (Z.leb_spec 128 length); [lia|].
Qed.

Lemma string_while_step fuel (length : Z) (buffer : list byte) :
  128 <= length ->
  string_while (S fuel) length buffer
  = string_while fuel (length / 128)
      (buffer ++ [byte_of_Z (length mod 128 + 128)]).
Proof.
  intros Hl. simpl. destruct (Z.leb_spec 128 length); [|lia].
  destruct (continuation_group_range length) as [Hr Heq].
  rewrite (bind_Return _ _ _ _ _
             (PrimitiveWriter_byte_ok (Z.lor (Z.land length 127) 128) buffer
                ltac:(lia))).
  by rewrite Heq, shiftr_7.
Qed.

Lemma prefix_bytes_done fuel (length : Z) :
  length < 128 -> prefix_bytes fuel length = [byte_of_Z length].
Proof.
  intros Hl. destruct fuel; simpl; by destruct (Z.leb_spec 128 length); [lia|].
Qed.

Lemma prefix_bytes_step fuel (length : Z) :
  128 <= length ->
  prefix_bytes (S fuel) length
  = byte_of_Z (length mod 128 + 128) :: prefix_bytes fuel (length / 128).
Proof. intros Hl. simpl. by destruct (Z.leb_spec 128 length); [|lia]. Qed.

(** The loop and the final byte write the bytes of [prefix_bytes]; the
    loop divides [length] by 128 in every iteration, so any fuel from
    [length] on is enough. *)
Lemma string_while_fuel fuel : forall (length : Z) (buffer : list byte),
  0 <= length <= Z.of_nat fuel ->
  (let* last := string_while fuel length in
   PrimitiveWriter_byte (Z.land last 127)) buffer
  = Some (Return tt, buffer ++ prefix_bytes fuel length).
Proof.
  induction fuel as [|fuel IH]; intros len buffer Hle.
  - rewrite (bind_Return _ _ _ _ _ (string_while_done 0 len buffer ltac:(lia))).
    rewrite prefix_bytes_done by lia.
    destruct (final_group_range len) as [Hr Heq].
    rewrite PrimitiveWriter_byte_ok by lia.
    by rewrite Heq, Z.mod_small by lia.
  - destruct (Z_lt_le_dec len 128) as [Hs|Hl].
    + rewrite (bind_Return _ _ _ _ _ (string_while_done _ len buffer Hs)).
      rewrite prefix_bytes_done by lia.
      destruct (final_group_range len) as [Hr Heq].
      rewrite PrimitiveWriter_byte_ok by lia.
      by rewrite Heq, Z.mod_small by lia.
    + rewrite prefix_bytes_step by done.
      unfold bind at 1. rewrite string_while_step by done.
      specialize (IH (len / 128) (buffer ++ [byte_of_Z (len mod 128 + 128)])).
      unfold bind at 1 in IH. rewrite IH.
      * by rewrite <- app_assoc.
      * split; [apply Z.div_pos; lia|].
        assert (len / 128 < len) by (apply Z.div_lt; lia). lia.
Qed.

Lemma string_prefix_bytes (length : Z) (buffer : list byte) :
  0 <= length ->
  string_prefix length buffer
  = Some (Return tt, buffer ++ prefix_bytes (Z.to_nat length) length).
Proof. intros Hl. apply string_while_fuel. lia. Qed.

(** The number of groups is the least that can hold [length]. *)
Lemma prefix_bytes_length fuel : forall length : Z,
  0 <= length <= Z.of_nat fuel ->
  length < 128 ^ Z.of_nat (List.length (prefix_bytes fuel length))
  /\ (List.length (prefix_bytes fuel length) = 1%nat
      \/ 128 ^ (Z.of_nat (List.length (prefix_bytes fuel length)) - 1) <= length).
Proof.
  induction fuel as [|fuel IH]; intros len Hle.
  - rewrite prefix_bytes_done by lia. simpl. lia.
  - destruct (Z_lt_le_dec len 128) as [Hs|Hl].
    + rewrite prefix_bytes_done by lia. simpl. lia.
    + rewrite prefix_bytes_step by done.
      assert (Hq : 0 <= len / 128 <= Z.of_nat fuel).
      { split; [apply Z.div_pos; lia|].
        assert (len / 128 < len) by (apply Z.div_lt; lia). lia. }
      destruct (IH _ Hq) as [Hup Hlow].
      assert (Hn : (0 < List.length (prefix_bytes fuel (len / 128)))%nat).
      { destruct fuel; simpl; destruct (_ <=? _); simpl; lia. }
      cbn [List.length]. rewrite Nat2Z.inj_succ.
      remember (List.length (prefix_bytes fuel (len / 128))) as n eqn:En.
      clear En IH.
      replace (Z.succ (Z.of_nat n) - 1) with (Z.of_nat n) by lia.
      rewrite Z.pow_succ_r by lia.
      destruct Hlow as [Hn1|Hlow].
      * subst n. change (128 ^ Z.of_nat 1) with 128 in *.
        Z.div_mod_to_equations. lia.
      * assert (Hp : 128 ^ Z.of_nat n = 128 * 128 ^ (Z.of_nat n - 1)).
        { rewrite <- Z.pow_succ_r by lia. f_equal. lia. }
        generalize dependent (128 ^ (Z.of_nat n - 1)).
        generalize dependent (128 ^ Z.of_nat n).
        intros p Hup q Hlow Hp. Z.div_mod_to_equations. lia.
Qed.

(** ** The length prefix, written and read back *)

Lemma continuation_byte (length : Z) :
  let b := byte_of_Z (length mod 128 + 128) in
  Z.land (byte_to_Z b) (Z.lnot 128) = length mod 128
  /\ (Z.land (byte_to_Z b) 128 =? 0) = false.
Proof.
  intros b. rewrite land_lnot_128, land_128_eqb. subst b.
  pose proof (Z.mod_pos_bound length 128 ltac:(lia)).
  rewrite byte_to_of_Z by lia. split.
  - rewrite Z.add_mod, Z.mod_mod, Z_mod_same_full, Z.add_0_r, Z.mod_mod by lia.
    reflexivity.
  - apply Z.ltb_ge. lia.
Qed.

Lemma final_byte (length : Z) :
  0 <= length < 128 ->
  let b := byte_of_Z length in
  Z.land (byte_to_Z b) (Z.lnot 128) = length
  /\ (Z.land (byte_to_Z b) 128 =? 0) = true.
Proof.
  intros Hl b. rewrite land_lnot_128, land_128_eqb. subst b.
  rewrite byte_to_of_Z by lia. split.
  - apply Z.mod_small. lia.
  - apply Z.ltb_lt. lia.
Qed.

(** A prefix of at most [5 - i] groups is read back as the length it was
    written for. *)
Lemma string_length_prefix_bytes fuel :
  forall (length : Z) n i acc shift rest objs,
    0 <= length <= Z.of_nat fuel ->
    (1 <= n)%nat -> Z.of_nat n + i = 5 -> 0 <= shift ->
    length < 128 ^ Z.of_nat n ->
    string_length n i acc shift
      (mkRecordStream (prefix_bytes fuel length ++ rest) objs)
    = Some (Return (acc + length * 2 ^ shift), mkRecordStream rest objs).
Proof.
  induction fuel as [|fuel IH]; intros len n i acc shift rest objs Hle Hn Hi Hs Hlt;
    (destruct n as [|n]; [lia|]).
  - rewrite prefix_bytes_done by lia. simpl app.
    rewrite string_length_cons; cbv zeta.
    destruct (final_byte len ltac:(lia)) as [-> ->].
    by rewrite Z.shiftl_mul_pow2.
  - destruct (Z_lt_le_dec len 128) as [Hsmall|Hbig].
    + rewrite prefix_bytes_done by lia. simpl app.
      rewrite string_length_cons; cbv zeta.
      destruct (final_byte len ltac:(lia)) as [-> ->].
      by rewrite Z.shiftl_mul_pow2.
    + rewrite prefix_bytes_step by done. simpl app.
      rewrite string_length_cons; cbv zeta.
      destruct (continuation_byte len) as [-> ->].
      assert (Hn2 : (1 <= n)%nat).
      { destruct n; [|lia]. change (128 ^ Z.of_nat 1) with 128 in Hlt. lia. }
      destruct (Z.eqb_spec i 4); [lia|].
      rewrite IH.
      * rewrite Z.shiftl_mul_pow2, Z.pow_add_r by lia. do 3 f_equal.
        change (2 ^ 7) with 128.
        rewrite (Z.div_mod len 128) at 3 by lia. ring.
      * split; [apply Z.div_pos; lia|].
        assert (len / 128 < len) by (apply Z.div_lt; lia). lia.
      * done.
      * lia.
      * lia.
      * rewrite Nat2Z.inj_succ, Z.pow_succ_r in Hlt by lia.
        apply Z.div_lt_upper_bound; lia.
Qed.

(** A prefix of more than [5 - i] groups makes the reader give up at its
    fifth byte. *)
Lemma string_length_prefix_too_long n :
  forall fuel (length : Z) i acc shift rest objs,
    0 <= length <= Z.of_nat fuel ->
    (1 <= n)%nat -> Z.of_nat n + i = 5 ->
    128 ^ Z.of_nat n <= length ->
    exists self',
      string_length n i acc shift
        (mkRecordStream (prefix_bytes fuel length ++ rest) objs)
      = Some (Raise RuntimeError, self')
      /\ RecordStream_objects self' = objs.
Proof.
  induction n as [|n IH]; intros fuel len i acc shift rest objs Hle Hn Hi Hge; [lia|].
  assert (Hbig : 128 <= len).
  { assert (128 ^ 1 <= 128 ^ Z.of_nat (S n)) by (apply Z.pow_le_mono_r; lia). lia. }
  destruct fuel as [|fuel]; [lia|].
  rewrite prefix_bytes_step by done. simpl app.
  rewrite string_length_cons; cbv zeta.
  destruct (continuation_byte len) as [-> ->].
  destruct (Z.eqb_spec i 4) as [Hi4|Hi4]; [by eexists|].
  apply IH.
  - split; [apply Z.div_pos; lia|].
    assert (len / 128 < len) by (apply Z.div_lt; lia). lia.
  - lia.
  - lia.
  - rewrite Nat2Z.inj_succ, Z.pow_succ_r in Hge by lia.
    apply Z.div_le_lower_bound; lia.
Qed.

(** Whatever the reader accepts as a length in [k] bytes is below
    [128 ^ k]. *)
Lemma string_length_value n : forall i acc shift stream objs (length : Z) self',
  0 <= shift ->
  string_length n i acc shift (mkRecordStream stream objs)
  = Some (Return length, self') ->
  exists k v,
    (k <= n)%nat /\ (k <= List.length stream)%nat /\ (1 <= n -> 1 <= k)%nat
    /\ self' = mkRecordStream (drop k stream) objs
    /\ length = acc + 2 ^ shift * v /\ 0 <= v < 128 ^ Z.of_nat k.
Proof.
  induction n as [|n IH]; intros i acc shift stream objs len self' Hs E.
  - inversion E; subst. exists 0%nat, 0. simpl. repeat split; try lia.
  - destruct stream as [|b rest]; [discriminate|].
    rewrite string_length_cons in E; cbv zeta in E.
    rewrite land_lnot_128, Z.shiftl_mul_pow2 in E by done.
    pose proof (Z.mod_pos_bound (byte_to_Z b) 128 ltac:(lia)) as Hb.
    destruct (_ =? 0).
    + inversion E; subst. exists 1%nat, (byte_to_Z b mod 128).
      simpl. repeat split; try lia.
    + destruct (i =? 4); [discriminate|].
      apply IH in E as (k & v & Hk & Hlen & _ & -> & -> & Hv); [|lia].
      exists (S k), (byte_to_Z b mod 128 + 128 * v).
      simpl List.length. repeat split; try lia.
      * rewrite Z.pow_add_r by lia. change (2 ^ 7) with 128. ring.
      * rewrite Nat2Z.inj_succ, Z.pow_succ_r by lia. lia.
Qed.

(** ** No [ValueError] from the byte writer *)

Lemma never_raises_bind {St A B} e (m : M St A) (f : A -> M St B) :
  never_raises e m -> (forall a, never_raises e (f a)) ->
  never_raises e (bind m f).
Proof.
  intros Hm Hf s s' E.
  apply bind_inv in E as [(a & s1 & E1 & E2) | (e' & E1 & Heq)].
  - exact (Hf a s1 s' E2).
  - inversion Heq; subst. exact (Hm s s' E1).
Qed.

Lemma never_raises_ret {St A} e (a : A) : never_raises e (@ret St A a).
Proof. intros s s'. discriminate. Qed.

Lemma never_raises_raise {St A} e e' : e <> e' -> never_raises e (@raise St A e').
Proof. intros Hne s s' E. inversion E. congruence. Qed.

Lemma never_raises_lift {St A} e (o : outcome A) :
  o <> Raise e -> never_raises e (@lift St A o).
Proof. intros Hne s s' E. inversion E. congruence. Qed.

Lemma never_raises_on_writer {A} e (m : M (list byte) A) :
  never_raises e m -> never_raises e (on_writer m).
Proof.
  intros Hm [buffer objs] s'. unfold on_writer; simpl.
  destruct (m buffer) as [[o buffer']|] eqn:E; [|discriminate].
  intros E'. inversion E'; subst. exact (Hm _ _ E).
Qed.

Lemma never_raises_byte (value : Z) :
  0 <= value <= 255 -> never_raises ValueError_byte (PrimitiveWriter_byte value).
Proof. intros Hv s s'. by rewrite PrimitiveWriter_byte_ok. Qed.

Lemma never_raises_string_while fuel : forall length : Z,
  never_raises ValueError_byte (string_while fuel length).
Proof.
  induction fuel as [|fuel IH]; intros len buffer s';
    destruct (Z_lt_le_dec len 128) as [Hs|Hl].
  - by rewrite string_while_done.
  - simpl. by destruct (Z.leb_spec 128 len); [|lia].
  - by rewrite string_while_done.
  - rewrite string_while_step by done. apply IH.
Qed.

Lemma str_encode_raises (value : str) e :
  str_encode value = Raise e -> e = UnicodeEncodeError.
Proof.
  destruct value as [|c rest]; simpl; [discriminate|].
  destruct (utf8_encode_char c), (str_encode rest); congruence.
Qed.

Lemma struct_pack_i_raises (value : Z) e :
  struct_pack_i value = Raise e -> e = struct_error.
Proof. unfold struct_pack_i. destruct (_ && _); congruence. Qed.

Lemma never_raises_string (value : str) :
  never_raises ValueError_byte (PrimitiveWriter_string value).
Proof.
  apply never_raises_bind.
  { apply never_raises_lift. intros E. by apply str_encode_raises in E. }
  intros encoded. apply never_raises_bind; [|intros; intros s s'; discriminate].
  apply never_raises_bind; [apply never_raises_string_while|].
  intros last. apply never_raises_byte.
  destruct (final_group_range last). lia.
Qed.

Lemma never_raises_int32 (value : Z) :
  never_raises ValueError_byte (PrimitiveWriter_int32 value).
Proof.
  apply never_raises_bind; [|intros; intros s s'; discriminate].
  apply never_raises_lift. intros E. by apply struct_pack_i_raises in E.
Qed.

Lemma never_raises_record (record : RecordItem) :
  never_raises ValueError_byte (RecordWriter_record record).
Proof.
  unfold RecordWriter_record, RecordTypeEnum_serialize.
  apply never_raises_bind.
  { apply never_raises_on_writer, never_raises_byte. by destruct record. }
  intros _. destruct record; simpl.
  - repeat (apply never_raises_bind;
            [apply never_raises_on_writer, never_raises_int32 | intros _]).
    apply never_raises_on_writer, never_raises_int32.
  - apply never_raises_bind;
      [apply never_raises_on_writer, never_raises_int32 | intros _].
    apply never_raises_bind;
      [apply never_raises_on_writer, never_raises_string | intros _].
    intros s s'. discriminate.
  - apply never_raises_ret.
Qed.

Lemma never_raises_for_records (records : list RecordItem) :
  never_raises ValueError_byte (for_records records).
Proof.
  induction records as [|record rest IH]; simpl.
  - apply never_raises_ret.
  - apply never_raises_bind; [apply never_raises_record | done].
Qed.

(** ** [struct] and the UTF-8 codec, there and back *)

Ltac Zlia := Z.div_mod_to_equations; lia.

Lemma struct_i_roundtrip (v : Z) :
  is_int32 v = true ->
  exists data,
    struct_pack_i v = Return data /\ length data = 4%nat
    /\ struct_unpack_i data = Return v.
Proof.
  unfold is_int32, struct_pack_i. intros Hv. rewrite Hv.
  apply andb_true_iff in Hv as [Hlo Hhi].
  apply Z.leb_le in Hlo. apply Z.ltb_lt in Hhi.
  eexists. split; [done|]. split; [done|].
  unfold struct_unpack_i. rewrite !byte_to_of_Z by Zlia.
  f_equal. change (2 ^ 8) with 256 in *. change (2 ^ 16) with 65536 in *.
  change (2 ^ 24) with 16777216 in *. change (2 ^ 31) with 2147483648 in *.
  change (2 ^ 32) with 4294967296 in *.
  destruct (Z.ltb_spec
    (v mod 4294967296 mod 256 + 256 * (v mod 4294967296 / 256 mod 256)
     + 65536 * (v mod 4294967296 / 65536 mod 256)
     + 16777216 * (v mod 4294967296 / 16777216 mod 256)) 2147483648); Zlia.
Qed.

(** Settle the comparisons of the goal whose outcome is known. *)
Ltac Zdecide :=
  repeat match goal with
    | |- context [?a <? ?b] =>
        first [ replace (a <? b) with true by (symmetry; apply Z.ltb_lt; Zlia)
              | replace (a <? b) with false by (symmetry; apply Z.ltb_ge; Zlia) ]
    | |- context [?a <=? ?b] =>
        first [ replace (a <=? b) with true by (symmetry; apply Z.leb_le; Zlia)
              | replace (a <=? b) with false by (symmetry; apply Z.leb_gt; Zlia) ]
    end.

Lemma utf8_encode_char_cases (c : Z) (bs : list byte) :
  utf8_encode_char c = Some bs ->
  (0 <= c < 128 /\ bs = [byte_of_Z c])
  \/ (128 <= c < 2048
      /\ bs = [byte_of_Z (192 + c / 64); byte_of_Z (128 + c mod 64)])
  \/ ((2048 <= c < 55296 \/ 57344 <= c < 65536)
      /\ bs = [byte_of_Z (224 + c / 4096); byte_of_Z (128 + c / 64 mod 64);
               byte_of_Z (128 + c mod 64)])
  \/ (65536 <= c < 1114112
      /\ bs = [byte_of_Z (240 + c / 262144); byte_of_Z (128 + c / 4096 mod 64);
               byte_of_Z (128 + c / 64 mod 64); byte_of_Z (128 + c mod 64)]).
Proof.
  unfold utf8_encode_char. intros E.
  destruct ((0 <=? c) && (c <? 128)) eqn:E1.
  { left. inversion E. split; [lia | done]. }
  destruct ((128 <=? c) && (c <? 2048)) eqn:E2.
  { right; left. inversion E. split; [lia | done]. }
  destruct ((2048 <=? c) && (c <? 55296) || (57344 <=? c) && (c <? 65536)) eqn:E3.
  { right; right; left. inversion E. split; [lia | done]. }
  destruct ((65536 <=? c) && (c <? 1114112)) eqn:E4; [|discriminate].
  right; right; right. inversion E. split; [lia | done].
Qed.

Lemma utf8_char_roundtrip (c : Z) (bs rest : list byte) (s : str) :
  utf8_encode_char c = Some bs ->
  bytes_decode rest = Return s ->
  bytes_decode (bs ++ rest) = Return (c :: s).
Proof.
  intros E Hrest.
  apply utf8_encode_char_cases in E
    as [[Hc ->] | [[Hc ->] | [[[Hc|Hc] ->] | [Hc ->]]]];
    replace (c / 262144) with (c / 64 / 64 / 64)
      by (rewrite !Z.div_div by lia; done);
    replace (c / 4096) with (c / 64 / 64) by (rewrite Z.div_div by lia; done);
    cbn [app bytes_decode]; unfold utf8_cont;
    rewrite ?byte_to_of_Z by Zlia; cbv zeta;
    do 3 (Zdecide; cbn [andb negb]);
    rewrite Hrest; cbn [decoded]; do 2 f_equal; Zlia.
Qed.

Lemma str_roundtrip (value : str) (encoded : list byte) :
  str_encode value = Return encoded -> bytes_decode encoded = Return value.
Proof.
  revert encoded. induction value as [|c rest IH]; intros encoded E; simpl in E.
  - by inversion E.
  - destruct (utf8_encode_char c) as [bs|] eqn:Ec; [|discriminate].
    destruct (str_encode rest) as [r|] eqn:Er; [|discriminate].
    inversion E; subst. by apply utf8_char_roundtrip; [|apply IH].
Qed.

Lemma str_encode_scalar (value : str) :
  forallb is_scalar value = true -> exists encoded, str_encode value = Return encoded.
Proof.
  induction value as [|c rest IH]; simpl; [by eexists|].
  intros H. apply andb_true_iff in H as [Hc Hrest].
  destruct (IH Hrest) as [r ->].
  assert (exists bs, utf8_encode_char c = Some bs) as [bs ->]; [|by eexists].
  unfold is_scalar in Hc. unfold utf8_encode_char.
  destruct ((0 <=? c) && (c <? 128)) eqn:E1; [by eexists|].
  destruct ((128 <=? c) && (c <? 2048)) eqn:E2; [by eexists|].
  destruct ((2048 <=? c) && (c <? 55296) || (57344 <=? c) && (c <? 65536)) eqn:E3;
    [by eexists|].
  destruct ((65536 <=? c) && (c <? 1114112)) eqn:E4; [by eexists|].
  lia.
Qed.

(** ** Records on the wire, written and read back *)

Lemma on_writer_run {A} (m : M (list byte) A) buffer objs o buffer' :
  m buffer = Some (o, buffer') ->
  on_writer m (mkRecordWriter buffer objs) = Some (o, mkRecordWriter buffer' objs).
Proof. intros E. unfold on_writer; simpl. by rewrite E. Qed.

Lemma PrimitiveWriter_int32_wire (v : Z) (buffer : list byte) :
  is_int32 v = true ->
  PrimitiveWriter_int32 v buffer = Some (Return tt, buffer ++ int32_bytes v).
Proof.
  intros Hv. destruct (struct_i_roundtrip v Hv) as (data & Hp & _ & _).
  unfold PrimitiveWriter_int32, int32_bytes, bind, lift. by rewrite Hp.
Qed.

Lemma PrimitiveStream_int32_wire (v : Z) (rest : list byte) objs :
  is_int32 v = true ->
  PrimitiveStream_int32 (mkRecordStream (int32_bytes v ++ rest) objs)
  = Some (Return v, mkRecordStream rest objs).
Proof.
  intros Hv. destruct (struct_i_roundtrip v Hv) as (data & Hp & Hlen & Hu).
  unfold PrimitiveStream_int32, int32_bytes. rewrite Hp.
  change 4 with (Z.of_nat 4). rewrite <- Hlen.
  rewrite (bind_Return _ _ _ _ _ (PrimitiveStream_read_app data rest objs)).
  unfold lift. by rewrite Hu.
Qed.

Lemma PrimitiveWriter_string_wire (value : str) (buffer : list byte) :
  forallb is_scalar value = true ->
  PrimitiveWriter_string value buffer
  = Some (Return tt, buffer ++ string_bytes value).
Proof.
  intros Hv. destruct (str_encode_scalar value Hv) as [encoded He].
  unfold PrimitiveWriter_string, string_bytes. rewrite He.
  unfold bind at 1, lift.
  rewrite (bind_Return _ _ _ _ _
             (string_prefix_bytes (Z.of_nat (length encoded)) buffer ltac:(lia))).
  unfold stream_write. by rewrite Nat2Z.id, app_assoc.
Qed.

Lemma PrimitiveStream_string_wire (value : str) (rest : list byte) objs :
  forallb is_scalar value = true -> utf8_length value < 2 ^ 35 ->
  PrimitiveStream_string (mkRecordStream (string_bytes value ++ rest) objs)
  = Some (Return value, mkRecordStream rest objs).
Proof.
  intros Hv Hlen. destruct (str_encode_scalar value Hv) as [encoded He].
  unfold utf8_length in Hlen. unfold PrimitiveStream_string, string_bytes.
  rewrite He in *. rewrite <- app_assoc.
  rewrite (bind_Return _ _ _ _ _
             (string_length_prefix_bytes (length encoded)
                (Z.of_nat (length encoded)) 5 0 0 0 (encoded ++ rest) objs
                ltac:(lia) ltac:(lia) ltac:(lia) ltac:(lia) ltac:(lia))).
  change (2 ^ 0) with 1. rewrite Z.add_0_l, Z.mul_1_r.
  rewrite (bind_Return _ _ _ _ _ (PrimitiveStream_read_app encoded rest objs)).
  unfold lift. by rewrite (str_roundtrip _ _ He).
Qed.

Lemma wf_BinaryObjectString object_id value :
  wf_record (BinaryObjectString object_id value) = true ->
  is_int32 object_id = true /\ forallb is_scalar value = true
  /\ utf8_length value < 2 ^ 35.
Proof.
  simpl. intros H. apply andb_true_iff in H as [H H3].
  apply andb_true_iff in H as [H1 H2]. apply Z.ltb_lt in H3. done.
Qed.

Lemma wf_SerializedStreamHeader a b c d :
  wf_record (SerializedStreamHeader a b c d) = true ->
  is_int32 a = true /\ is_int32 b = true /\ is_int32 c = true /\ is_int32 d = true.
Proof.
  simpl. intros H. apply andb_true_iff in H as [H H4].
  apply andb_true_iff in H as [H H3]. apply andb_true_iff in H as [H1 H2]. done.
Qed.

Lemma RecordWriter_record_wire (record : RecordItem) buffer objs :
  wf_record record = true ->
  RecordWriter_record record (mkRecordWriter buffer objs)
  = Some (Return tt, mkRecordWriter (buffer ++ wire record) (registered objs record)).
Proof.
  intros Hwf. unfold RecordWriter_record, RecordTypeEnum_serialize.
  destruct record as [a b c d|object_id value|]; simpl RecordTypeEnum_from_record;
    cbv iota beta.
  - apply wf_SerializedStreamHeader in Hwf as (Ha & Hb & Hc & Hd).
    rewrite (bind_Return _ _ _ _ _
      (on_writer_run _ _ objs _ _ (PrimitiveWriter_byte_ok 0 buffer ltac:(lia)))).
    rewrite (bind_Return _ _ _ _ _
      (on_writer_run _ _ objs _ _ (PrimitiveWriter_int32_wire a _ Ha))).
    rewrite (bind_Return _ _ _ _ _
      (on_writer_run _ _ objs _ _ (PrimitiveWriter_int32_wire b _ Hb))).
    rewrite (bind_Return _ _ _ _ _
      (on_writer_run _ _ objs _ _ (PrimitiveWriter_int32_wire c _ Hc))).
    rewrite (on_writer_run _ _ objs _ _ (PrimitiveWriter_int32_wire d _ Hd)).
    simpl. by rewrite <- !app_assoc.
  - apply wf_BinaryObjectString in Hwf as (Hid & Hv & _).
    rewrite (bind_Return _ _ _ _ _
      (on_writer_run _ _ objs _ _ (PrimitiveWriter_byte_ok 6 buffer ltac:(lia)))).
    rewrite (bind_Return _ _ _ _ _
      (on_writer_run _ _ objs _ _ (PrimitiveWriter_int32_wire object_id _ Hid))).
    rewrite (bind_Return _ _ _ _ _
      (on_writer_run _ _ objs _ _ (PrimitiveWriter_string_wire value _ Hv))).
    unfold RecordWriter_set_object. simpl. by rewrite <- !app_assoc.
  - rewrite (bind_Return _ _ _ _ _
      (on_writer_run _ _ objs _ _ (PrimitiveWriter_byte_ok 11 buffer ltac:(lia)))).
    reflexivity.
Qed.

Lemma RecordStream_record_wire (record : RecordItem) rest objs :
  wf_record record = true ->
  RecordStream_record (mkRecordStream (wire record ++ rest) objs)
  = Some (Return record, mkRecordStream rest (registered objs record)).
Proof.
  intros Hwf. unfold RecordStream_record.
  destruct record as [a b c d|object_id value|]; cbn [wire app];
    rewrite (bind_Return _ _ _ _ _ (PrimitiveStream_byte_cons _ _ objs));
    unfold bind at 1, lift.
  - change (RecordTypeEnum_call (byte_to_Z x00))
      with (Return Enum_SerializedStreamHeader).
    cbn [RecordTypeEnum_parse].
    apply wf_SerializedStreamHeader in Hwf as (Ha & Hb & Hc & Hd).
    rewrite <- !app_assoc.
    rewrite (bind_Return _ _ _ _ _ (PrimitiveStream_int32_wire a _ objs Ha)).
    rewrite (bind_Return _ _ _ _ _ (PrimitiveStream_int32_wire b _ objs Hb)).
    rewrite (bind_Return _ _ _ _ _ (PrimitiveStream_int32_wire c _ objs Hc)).
    rewrite (bind_Return _ _ _ _ _ (PrimitiveStream_int32_wire d _ objs Hd)).
    reflexivity.
  - change (RecordTypeEnum_call (byte_to_Z x06))
      with (Return Enum_BinaryObjectString).
    cbn [RecordTypeEnum_parse].
    apply wf_BinaryObjectString in Hwf as (Hid & Hv & Hlen).
    rewrite <- !app_assoc.
    rewrite (bind_Return _ _ _ _ _ (PrimitiveStream_int32_wire object_id _ objs Hid)).
    rewrite (bind_Return _ _ _ _ _ (PrimitiveStream_string_wire value _ objs Hv Hlen)).
    reflexivity.
  - reflexivity.
Qed.

(** ** Record sequences on the wire *)

Lemma for_records_wire (records : list RecordItem) : forall buffer objs,
  forallb wf_record records = true ->
  for_records records (mkRecordWriter buffer objs)
  = Some (Return tt,
          mkRecordWriter (buffer ++ wire_records records)
                         (foldl registered objs records)).
Proof.
  induction records as [|record rest IH]; intros buffer objs Hwf; simpl.
  - unfold wire_records; simpl. by rewrite app_nil_r.
  - apply andb_true_iff in Hwf as [Hr Hrest].
    rewrite (bind_Return _ _ _ _ _ (RecordWriter_record_wire record buffer objs Hr)).
    rewrite IH by done. unfold wire_records; simpl. by rewrite app_assoc.
Qed.

Lemma serialize_records_wire (records : list RecordItem) :
  forallb wf_record records = true ->
  serialize_records records
  = Some (Return (wire_records records),
          mkRecordWriter (wire_records records) (objects_of records)).
Proof.
  intros Hwf. unfold serialize_records.
  by rewrite (bind_Return _ _ _ _ _ (for_records_wire records [] ∅ Hwf)).
Qed.

(** The loop reads the records before the [MessageEnd] one by one. *)
Lemma DNBinary_parse_wire (records : list RecordItem) :
  forall fuel rest objs done,
    forallb wf_record records = true ->
    forallb (fun record => negb (isinstance_MessageEnd record)) records = true ->
    DNBinary_parse (length records + fuel)
      (mkDNBinary (mkRecordStream (wire_records records ++ rest) objs) done)
    = DNBinary_parse fuel
        (mkDNBinary (mkRecordStream rest (foldl registered objs records))
                    (done ++ records)).
Proof.
  induction records as [|record records IH]; intros fuel rest objs done Hwf Hno.
  - unfold wire_records; simpl. by rewrite app_nil_r.
  - simpl in Hwf, Hno.
    apply andb_true_iff in Hwf as [Hr Hwf]. apply andb_true_iff in Hno as [Hm Hno].
    cbn [length Nat.add]. rewrite DNBinary_parse_S. cbn [DNBinary_stream].
    unfold wire_records; cbn [map concat]. rewrite <- app_assoc.
    rewrite (RecordStream_record_wire record _ objs Hr). cbv zeta.
    apply negb_true_iff in Hm. rewrite Hm.
    fold (wire_records records). rewrite IH by done. cbn [DNBinary_records foldl].
    by rewrite <- app_assoc.
Qed.

(** [parse_bytes] gives the outcome the loop reaches with any fuel. *)
Lemma parse_bytes_fuel (data : list byte) fuel r :
  DNBinary_parse fuel (DNBinary_init data) = Some r -> parse_bytes data = Some r.
Proof.
  intros E. unfold parse_bytes, parse_stream.
  destruct (DNBinary_parse_terminates (S (length data)) (DNBinary_init data))
    as (o & self & E' & _); [simpl; lia|].
  destruct (Nat.le_ge_cases fuel (S (length data))) as [Hc|Hc].
  - by apply (DNBinary_parse_fuel _ _ _ _ Hc E).
  - rewrite (DNBinary_parse_fuel _ _ _ _ Hc E') in E. by rewrite E'.
Qed.

Lemma ends_in_only_MessageEnd_inv (records : list RecordItem) :
  ends_in_only_MessageEnd records = true ->
  exists before,
    records = before ++ [MessageEnd]
    /\ forallb (fun record => negb (isinstance_MessageEnd record)) before = true.
Proof.
  induction records as [|record rest IH]; [discriminate|].
  destruct rest as [|record' rest].
  - destruct record; try discriminate. by exists [].
  - intros H. cbn [ends_in_only_MessageEnd] in H.
    apply andb_true_iff in H as [Hm Hrest].
    destruct (IH Hrest) as (before & -> & Hno).
    exists (record :: before). split; [done|]. simpl. by rewrite Hm, Hno.
Qed.

Lemma parse_bytes_wire_terminated (records : list RecordItem) :
  forallb wf_record records = true ->
  ends_in_only_MessageEnd records = true ->
  parse_bytes (wire_records records)
  = Some (Return records,
          mkDNBinary (mkRecordStream [] (objects_of records)) records).
Proof.
  intros Hwf Hend.
  apply ends_in_only_MessageEnd_inv in Hend as (before & -> & Hno).
  rewrite forallb_app in Hwf. apply andb_true_iff in Hwf as [Hwf _].
  apply (parse_bytes_fuel _ (length before + 1)).
  unfold DNBinary_init, wire_records. rewrite map_app, concat_app.
  fold (wire_records before).
  rewrite (DNBinary_parse_wire before 1 _ ∅ [] Hwf Hno).
  unfold objects_of. rewrite foldl_app. reflexivity.
Qed.

(** ** The object table *)

Lemma registered_other (objs : gmap Z RecordItem) (record : RecordItem) (ref : Z) :
  (forall value, record <> BinaryObjectString ref value) ->
  registered objs record !! ref = objs !! ref.
Proof.
  intros Hne. destruct record as [| object_id value |]; simpl; try done.
  destruct (decide (object_id = ref)) as [->|Hneq].
  - by destruct (Hne value).
  - by rewrite lookup_insert_ne.
Qed.

Lemma foldl_registered_other (records : list RecordItem) : forall objs (ref : Z),
  (forall value, BinaryObjectString ref value ∉ records) ->
  foldl registered objs records !! ref = objs !! ref.
Proof.
  induction records as [|record rest IH]; intros objs ref Hno; simpl; [done|].
  rewrite IH.
  - apply registered_other. intros value ->. apply (Hno value). by left.
  - intros value Hin. apply (Hno value). by right.
Qed.

(** The last [BinaryObjectString] with an id is the one the table holds. *)
Lemma foldl_registered_last (before after : list RecordItem) objs ref value :
  (forall value', BinaryObjectString ref value' ∉ after) ->
  foldl registered objs (before ++ BinaryObjectString ref value :: after) !! ref
  = Some (BinaryObjectString ref value).
Proof.
  intros Hno. rewrite foldl_app. cbn [foldl].
  rewrite foldl_registered_other by done.
  simpl. apply lookup_insert_eq.
Qed.

Lemma foldl_registered_elem (records : list RecordItem) : forall objs ref value,
  BinaryObjectString ref value ∈ records ->
  exists value', BinaryObjectString ref value' ∈ records
    /\ foldl registered objs records !! ref = Some (BinaryObjectString ref value').
Proof.
  induction records as [|record rest IH] using rev_ind; intros objs ref value Hin.
  - by apply elem_of_nil in Hin.
  - rewrite foldl_app. cbn [foldl].
    destruct record as [| object_id value0 |].
    + apply elem_of_app in Hin as [Hin|Hin].
      * destruct (IH objs ref value Hin) as (value' & Hin' & E).
        exists value'. split; [apply elem_of_app; by left | done].
      * apply list_elem_of_singleton in Hin. discriminate.
    + destruct (decide (object_id = ref)) as [->|Hne].
      * exists value0. split; [apply elem_of_app; right; by left|].
        simpl. apply lookup_insert_eq.
      * apply elem_of_app in Hin as [Hin|Hin].
        -- destruct (IH objs ref value Hin) as (value' & Hin' & E).
           exists value'. split; [apply elem_of_app; by left|].
           simpl. by rewrite lookup_insert_ne.
        -- apply list_elem_of_singleton in Hin. congruence.
    + apply elem_of_app in Hin as [Hin|Hin].
      * destruct (IH objs ref value Hin) as (value' & Hin' & E).
        exists value'. split; [apply elem_of_app; by left | done].
      * apply list_elem_of_singleton in Hin. discriminate.
Qed.

(** ** What the decoder leaves in the object table *)

Lemma PrimitiveStream_read_objects size self o self' :
  PrimitiveStream_read size self = Some (o, self') ->
  RecordStream_objects self' = RecordStream_objects self.
Proof.
  unfold PrimitiveStream_read, bind, stream_read.
  destruct (size <? 0); simpl; destruct (negb _); intros E; by inversion E.
Qed.

Lemma PrimitiveStream_byte_objects self o self' :
  PrimitiveStream_byte self = Some (o, self') ->
  RecordStream_objects self' = RecordStream_objects self.
Proof.
  intros E. apply bind_inv in E as [(a & s1 & E1 & E2) | (e & E1 & _)].
  - inversion E2; subst. by apply PrimitiveStream_read_objects in E1.
  - by apply PrimitiveStream_read_objects in E1.
Qed.

Lemma PrimitiveStream_int32_objects self o self' :
  PrimitiveStream_int32 self = Some (o, self') ->
  RecordStream_objects self' = RecordStream_objects self.
Proof.
  intros E. apply bind_inv in E as [(a & s1 & E1 & E2) | (e & E1 & _)].
  - inversion E2; subst. by apply PrimitiveStream_read_objects in E1.
  - by apply PrimitiveStream_read_objects in E1.
Qed.

Lemma string_length_objects n : forall i length shift self o self',
  string_length n i length shift self = Some (o, self') ->
  RecordStream_objects self' = RecordStream_objects self.
Proof.
  induction n as [|n IH]; intros i len shift self o self' E; simpl in E.
  - by inversion E.
  - apply bind_inv in E as [(b & s1 & E1 & E2) | (e & E1 & _)].
    + apply PrimitiveStream_byte_objects in E1. rewrite <- E1.
      destruct (_ =? 0); [by inversion E2|].
      destruct (i =? 4); [by inversion E2|]. by apply IH in E2.
    + by apply PrimitiveStream_byte_objects in E1.
Qed.

Lemma PrimitiveStream_string_objects self o self' :
  PrimitiveStream_string self = Some (o, self') ->
  RecordStream_objects self' = RecordStream_objects self.
Proof.
  intros E. apply bind_inv in E as [(len & s1 & E1 & E2) | (e & E1 & _)].
  - apply string_length_objects in E1. rewrite <- E1.
    apply bind_inv in E2 as [(raw & s2 & E2 & E3) | (e & E2 & _)].
    + inversion E3; subst. by apply PrimitiveStream_read_objects in E2.
    + by apply PrimitiveStream_read_objects in E2.
  - by apply string_length_objects in E1.
Qed.

(** A record that is read is entered in the table, and nothing else is. *)
Lemma RecordStream_record_registered self record self' :
  RecordStream_record self = Some (Return record, self') ->
  RecordStream_objects self' = registered (RecordStream_objects self) record.
Proof.
  intros E. apply bind_inv_Return in E as (tag & s1 & E1 & E).
  apply PrimitiveStream_byte_objects in E1. rewrite <- E1. clear E1.
  apply bind_inv_Return in E as (record_type & s2 & E2 & E).
  inversion E2; subst s2. clear E2 H0.
  destruct record_type; simpl in E.
  - apply bind_inv_Return in E as (a & sa & Ea & E).
    apply bind_inv_Return in E as (b & sb & Eb & E).
    apply bind_inv_Return in E as (c & sc & Ec & E).
    apply bind_inv_Return in E as (d & sd & Ed & E).
    inversion E; subst.
    apply PrimitiveStream_int32_objects in Ea, Eb, Ec, Ed. simpl. congruence.
  - apply bind_inv_Return in E as (object_id & sa & Ea & E).
    apply bind_inv_Return in E as (value & sb & Eb & E).
    apply bind_inv_Return in E as (u & sc & Ec & E).
    inversion E; subst. inversion Ec; subst.
    apply PrimitiveStream_int32_objects in Ea.
    apply PrimitiveStream_string_objects in Eb. simpl. congruence.
  - by inversion E.
Qed.

Lemma DNBinary_parse_objects fuel : forall self records self',
  DNBinary_parse fuel self = Some (Return records, self') ->
  records = DNBinary_records self'
  /\ exists new,
      DNBinary_records self' = DNBinary_records self ++ new
      /\ RecordStream_objects (DNBinary_stream self')
         = foldl registered (RecordStream_objects (DNBinary_stream self)) new.
Proof.
  induction fuel as [|fuel IH]; intros self records self' E; [discriminate|].
  rewrite DNBinary_parse_S in E.
  destruct (RecordStream_record _) as [[[record|e] stream]|] eqn:Er; [|done..].
  apply RecordStream_record_registered in Er. cbv zeta in E.
  destruct (isinstance_MessageEnd record).
  - inversion E; subst. split; [done|]. exists [record]. simpl. by rewrite Er.
  - apply IH in E as (-> & new & Hrec & Hobj). split; [done|].
    exists (record :: new). simpl in *. rewrite Hrec, Hobj, Er.
    by rewrite <- app_assoc.
Qed.

Lemma parse_bytes_objects (data : list byte) records self :
  parse_bytes data = Some (Return records, self) ->
  DNBinary_records self = records
  /\ RecordStream_objects (DNBinary_stream self) = objects_of records.
Proof.
  intros E. apply DNBinary_parse_objects in E as (-> & new & Hrec & Hobj).
  simpl in Hrec, Hobj. by rewrite Hrec, Hobj.
Qed.

(** ** Truncated streams *)

Lemma truncation_safe_bind {A B} (m : M RecordStream A) (f : A -> M RecordStream B) :
  truncation_safe m -> (forall a, truncation_safe (f a)) ->
  truncation_safe (bind m f).
Proof.
  intros Hm Hf head tail objs v self' E.
  apply bind_inv_Return in E as (a & s1 & E1 & E2).
  destruct (Hm head tail objs a s1 E1) as [(head1 & objs1 & -> & E1')|[s1' E1']].
  - rewrite (bind_Return _ _ _ _ _ E1').
    exact (Hf a head1 tail objs1 v self' E2).
  - right. exists s1'. by rewrite (bind_Raise _ _ _ _ _ E1').
Qed.

Lemma truncation_safe_ret {A} (a : A) : truncation_safe (ret a).
Proof.
  intros head tail objs v self' E. inversion E; subst. left. by exists head, objs.
Qed.

Lemma truncation_safe_raise {A} e : truncation_safe (@raise _ A e).
Proof. intros head tail objs v self' E. discriminate. Qed.

Lemma truncation_safe_lift {A} (o : outcome A) : truncation_safe (lift o).
Proof.
  intros head tail objs v self' E. inversion E; subst. left. by exists head, objs.
Qed.

Lemma truncation_safe_read (size : Z) : truncation_safe (PrimitiveStream_read size).
Proof.
  intros head tail objs v self' E.
  destruct (Z_lt_le_dec size 0) as [Hneg|Hpos].
  { unfold PrimitiveStream_read, bind, stream_read in E; simpl in E.
    destruct (Z.ltb_spec size 0); [|lia].
    destruct (Z.eqb_spec (Z.of_nat (length (head ++ tail))) size); [lia|].
    discriminate. }
  destruct (Z_lt_le_dec (Z.of_nat (length head)) size) as [Hshort|Hok].
  - right. eexists. by apply PrimitiveStream_read_short.
  - left. exists (drop (Z.to_nat size) head), objs.
    rewrite PrimitiveStream_read_enough by lia.
    rewrite PrimitiveStream_read_enough in E by (rewrite length_app; lia).
    inversion E; subst.
    rewrite take_app_le, drop_app_le by lia. done.
Qed.

Lemma truncation_safe_byte : truncation_safe PrimitiveStream_byte.
Proof.
  apply truncation_safe_bind;
    [apply truncation_safe_read | intros; apply truncation_safe_lift].
Qed.

Lemma truncation_safe_int32 : truncation_safe PrimitiveStream_int32.
Proof.
  apply truncation_safe_bind;
    [apply truncation_safe_read | intros; apply truncation_safe_lift].
Qed.

Lemma truncation_safe_string_length n : forall i length shift,
  truncation_safe (string_length n i length shift).
Proof.
  induction n as [|n IH]; intros i len shift; simpl.
  - apply truncation_safe_ret.
  - apply truncation_safe_bind; [apply truncation_safe_byte|]. intros b.
    destruct (_ =? 0); [apply truncation_safe_ret|].
    destruct (i =? 4); [apply truncation_safe_raise | apply IH].
Qed.

Lemma truncation_safe_string : truncation_safe PrimitiveStream_string.
Proof.
  apply truncation_safe_bind; [apply truncation_safe_string_length|]. intros len.
  apply truncation_safe_bind;
    [apply truncation_safe_read | intros; apply truncation_safe_lift].
Qed.

Lemma truncation_safe_set_object ref obj :
  truncation_safe (RecordStream_set_object ref obj).
Proof.
  intros head tail objs v self' E. inversion E; subst.
  left. by exists head, (<[ref:=obj]> objs).
Qed.

Lemma truncation_safe_parse (self : RecordTypeEnum) :
  truncation_safe (RecordTypeEnum_parse self).
Proof.
  destruct self; simpl.
  - repeat (apply truncation_safe_bind; [apply truncation_safe_int32 | intros ?]).
    apply truncation_safe_ret.
  - apply truncation_safe_bind; [apply truncation_safe_int32 | intros ?].
    apply truncation_safe_bind; [apply truncation_safe_string | intros ?].
    apply truncation_safe_bind; [apply truncation_safe_set_object | intros ?].
    apply truncation_safe_ret.
  - apply truncation_safe_ret.
Qed.

Lemma truncation_safe_record : truncation_safe RecordStream_record.
Proof.
  apply truncation_safe_bind; [apply truncation_safe_byte | intros tag].
  apply truncation_safe_bind; [apply truncation_safe_lift | apply truncation_safe_parse].
Qed.

(** A decode that used up the whole stream cannot succeed on a proper
    prefix of it: the loop runs into the end of the prefix. *)
Lemma DNBinary_parse_truncated fuel : forall head tail objs done records self',
  tail <> [] ->
  DNBinary_parse fuel (mkDNBinary (mkRecordStream (head ++ tail) objs) done)
  = Some (Return records, self') ->
  RecordStream_stream (DNBinary_stream self') = [] ->
  exists self'',
    DNBinary_parse fuel (mkDNBinary (mkRecordStream head objs) done)
    = Some (Raise EOFError, self'').
Proof.
  induction fuel as [|fuel IH]; intros head tail objs done records self' Htail E Hend;
    [discriminate|].
  rewrite DNBinary_parse_S in *. cbn [DNBinary_stream DNBinary_records] in *.
  destruct (RecordStream_record (mkRecordStream (head ++ tail) objs))
    as [[[record|e] stream]|] eqn:Er; [|done..].
  destruct (truncation_safe_record head tail objs record stream Er)
    as [(head1 & objs1 & -> & Er')|[s1 Er']]; rewrite Er'; [|by eexists].
  cbv zeta in *. destruct (isinstance_MessageEnd record).
  - inversion E; subst. simpl in Hend.
    apply app_eq_nil in Hend as [_ ?]. done.
  - by apply (IH head1 tail objs1 _ records self').
Qed.

(** ** Strings of 2^35 bytes and more *)

(** The writer gives such a string a prefix of six groups or more, and the
    reader gives up at the fifth: the bound on the length of strings in
    [wf_record] cannot be dropped. *)
Lemma long_string_not_read_back (object_id : Z) (value : str) :
  is_int32 object_id = true -> forallb is_scalar value = true ->
  2 ^ 35 <= utf8_length value ->
  exists data writer self,
    serialize_records [BinaryObjectString object_id value; MessageEnd]
    = Some (Return data, writer)
    /\ RecordWriter_objects writer !! object_id
       = Some (BinaryObjectString object_id value)
    /\ parse_bytes data = Some (Raise RuntimeError, self)
    /\ RecordStream_objects (DNBinary_stream self) = ∅
    /\ DNBinary_records self = [].
Proof.
  intros Hid Hv Hlen.
  destruct (str_encode_scalar value Hv) as [encoded He].
  set (data := [x06] ++ int32_bytes object_id ++ string_bytes value ++ [x0b]).
  assert (Hw : serialize_records [BinaryObjectString object_id value; MessageEnd]
               = Some (Return data,
                       mkRecordWriter data
                         {[ object_id := BinaryObjectString object_id value ]})).
  { unfold serialize_records. cbn [for_records].
    unfold RecordWriter_record, RecordTypeEnum_serialize.
    cbn [RecordTypeEnum_from_record RecordTypeEnum_value].
    unfold bind at 1. unfold bind at 1. unfold bind at 1.
    rewrite (on_writer_run _ _ ∅ _ _ (PrimitiveWriter_byte_ok 6 [] ltac:(lia))).
    rewrite (bind_Return _ _ _ _ _
      (on_writer_run _ _ ∅ _ _ (PrimitiveWriter_int32_wire object_id _ Hid))).
    rewrite (bind_Return _ _ _ _ _
      (on_writer_run _ _ ∅ _ _ (PrimitiveWriter_string_wire value _ Hv))).
    unfold RecordWriter_set_object. cbn [RecordWriter_writer RecordWriter_objects].
    unfold bind at 1. unfold bind at 1.
    rewrite (on_writer_run _ _ _ _ _ (PrimitiveWriter_byte_ok 11 _ ltac:(lia))).
    cbn [ret RecordWriter_writer]. subst data.
    by rewrite <- !app_assoc. }
  unfold utf8_length in Hlen. rewrite He in Hlen.
  destruct (string_length_prefix_too_long 5 (length encoded)
              (Z.of_nat (length encoded)) 0 0 0 (encoded ++ [x0b]) ∅
              ltac:(lia) ltac:(lia) ltac:(lia) ltac:(lia)) as (s' & Es & Hobj).
  exists data, (mkRecordWriter data {[ object_id := BinaryObjectString object_id value ]}),
    (mkDNBinary s' []).
  split; [done|]. split; [apply lookup_insert_eq|]. split; [|done].
  apply (parse_bytes_fuel _ 1).
  unfold DNBinary_init. rewrite DNBinary_parse_S.
  cbn [DNBinary_stream DNBinary_records]. subst data. cbn [app].
  unfold RecordStream_record.
  rewrite (bind_Return _ _ _ _ _ (PrimitiveStream_byte_cons _ _ ∅)).
  unfold bind at 1, lift.
  change (RecordTypeEnum_call (byte_to_Z x06)) with (Return Enum_BinaryObjectString).
  cbn [RecordTypeEnum_parse].
  rewrite (bind_Return _ _ _ _ _ (PrimitiveStream_int32_wire object_id _ ∅ Hid)).
  unfold string_bytes. rewrite He, <- app_assoc.
  unfold PrimitiveStream_string.
  rewrite (bind_Raise _ _ _ _ _ (bind_Raise _ _ _ _ _ Es)).
  reflexivity.
Qed.

(** * Further properties of the code *)

(** ** The primitive reader and writer *)

(** X1. A byte: a value in [0, 255] that is written is read back, and a
    byte that is read is such a value and is written back as that byte. *)
Theorem byte_roundtrip (rest : list byte) objs (buffer : list byte) :
  (forall value, 0 <= value <= 255 ->
     exists b,
       PrimitiveWriter_byte value buffer = Some (Return tt, buffer ++ [b])
       /\ PrimitiveStream_byte (mkRecordStream (b :: rest) objs)
          = Some (Return value, mkRecordStream rest objs))
  /\ (forall b, exists value,
        PrimitiveStream_byte (mkRecordStream (b :: rest) objs)
        = Some (Return value, mkRecordStream rest objs)
        /\ 0 <= value <= 255
        /\ PrimitiveWriter_byte value buffer = Some (Return tt, buffer ++ [b])).
Proof.
  split.
  - intros value Hv. exists (byte_of_Z value). split.
    + by apply PrimitiveWriter_byte_ok.
    + rewrite PrimitiveStream_byte_cons. by rewrite byte_to_of_Z by lia.
  - intros b. exists (byte_to_Z b). pose proof (byte_to_Z_range b).
    split; [apply PrimitiveStream_byte_cons|]. split; [lia|].
    rewrite PrimitiveWriter_byte_ok by lia. by rewrite byte_of_to_Z.
Qed.

Lemma byte_roundtrip_witness :
  exists b,
    PrimitiveWriter_byte 200 [x01] = Some (Return tt, [x01] ++ [b])
    /\ PrimitiveStream_byte (mkRecordStream (b :: [x02]) ∅)
       = Some (Return 200, mkRecordStream [x02] ∅).
Proof. apply (proj1 (byte_roundtrip [x02] ∅ [x01]) 200). lia. Defined.

(** X2. [PrimitiveWriter.int32] raises [struct.error] and writes nothing
    for a value outside [-2^31, 2^31); for a value inside it appends
    exactly four bytes, the little-endian digits of the value modulo
    2^32. *)
Theorem int32_writer_range (value : Z) (buffer : list byte) :
  (~ (- 2 ^ 31 <= value < 2 ^ 31) ->
   PrimitiveWriter_int32 value buffer = Some (Raise struct_error, buffer))
  /\ (- 2 ^ 31 <= value < 2 ^ 31 ->
      exists b0 b1 b2 b3,
        PrimitiveWriter_int32 value buffer
        = Some (Return tt, buffer ++ [b0; b1; b2; b3])
        /\ byte_to_Z b0 + 2 ^ 8 * byte_to_Z b1 + 2 ^ 16 * byte_to_Z b2
           + 2 ^ 24 * byte_to_Z b3 = value mod 2 ^ 32).
Proof.
  unfold PrimitiveWriter_int32, struct_pack_i, bind, lift. split; intros Hv.
  - destruct (Z.leb_spec (- 2 ^ 31) value); [|done].
    destruct (Z.ltb_spec value (2 ^ 31)); [lia | done].
  - destruct (Z.leb_spec (- 2 ^ 31) value); [|lia].
    destruct (Z.ltb_spec value (2 ^ 31)); [|lia]. cbn [andb].
    eexists _, _, _, _. split; [reflexivity|].
    rewrite !byte_to_of_Z by Zlia.
    change (2 ^ 8) with 256. change (2 ^ 16) with 65536.
    change (2 ^ 24) with 16777216. change (2 ^ 32) with 4294967296. Zlia.
Qed.

Lemma int32_writer_range_witness :
  PrimitiveWriter_int32 (2 ^ 31) [x01] = Some (Raise struct_error, [x01])
  /\ exists b0 b1 b2 b3,
       PrimitiveWriter_int32 (-2) [] = Some (Return tt, [] ++ [b0; b1; b2; b3])
       /\ byte_to_Z b0 + 2 ^ 8 * byte_to_Z b1 + 2 ^ 16 * byte_to_Z b2
          + 2 ^ 24 * byte_to_Z b3 = (-2) mod 2 ^ 32.
Proof.
  split.
  - apply (proj1 (int32_writer_range (2 ^ 31) [x01])). lia.
  - apply (proj2 (int32_writer_range (-2) [])). lia.
Defined.

(** X3. A 32-bit integer: a value in [-2^31, 2^31) that is written is read
    back; any four bytes are read as such a value, and writing that value
    gives the four bytes again. *)
Theorem int32_roundtrip (rest : list byte) objs (buffer : list byte) :
  (forall value, - 2 ^ 31 <= value < 2 ^ 31 ->
     exists data,
       PrimitiveWriter_int32 value buffer = Some (Return tt, buffer ++ data)
       /\ PrimitiveStream_int32 (mkRecordStream (data ++ rest) objs)
          = Some (Return value, mkRecordStream rest objs))
  /\ (forall b0 b1 b2 b3, exists value,
        PrimitiveStream_int32 (mkRecordStream (b0 :: b1 :: b2 :: b3 :: rest) objs)
        = Some (Return value, mkRecordStream rest objs)
        /\ - 2 ^ 31 <= value < 2 ^ 31
        /\ PrimitiveWriter_int32 value buffer
           = Some (Return tt, buffer ++ [b0; b1; b2; b3])).
Proof.
  split.
  - intros value Hv. exists (int32_bytes value).
    assert (is_int32 value = true) as Hi.
    { unfold is_int32. apply andb_true_iff. split; [apply Z.leb_le | apply Z.ltb_lt]; lia. }
    split; [by apply PrimitiveWriter_int32_wire | by apply PrimitiveStream_int32_wire].
  - intros b0 b1 b2 b3.
    pose proof (byte_to_Z_range b0). pose proof (byte_to_Z_range b1).
    pose proof (byte_to_Z_range b2). pose proof (byte_to_Z_range b3).
    set (u := byte_to_Z b0 + 2 ^ 8 * byte_to_Z b1 + 2 ^ 16 * byte_to_Z b2
              + 2 ^ 24 * byte_to_Z b3).
    set (v := if u <? 2 ^ 31 then u else u - 2 ^ 32).
    assert (Hu : 0 <= u < 4294967296 /\ u mod 256 = byte_to_Z b0
                 /\ u / 2 ^ 8 mod 256 = byte_to_Z b1
                 /\ u / 2 ^ 16 mod 256 = byte_to_Z b2
                 /\ u / 2 ^ 24 mod 256 = byte_to_Z b3).
    { subst u. change (2 ^ 8) with 256. change (2 ^ 16) with 65536.
      change (2 ^ 24) with 16777216. repeat split; Zlia. }
    destruct Hu as (Hu & E0 & E1 & E2 & E3).
    assert (Hv : - 2 ^ 31 <= v < 2 ^ 31 /\ v mod 2 ^ 32 = u).
    { subst v. change (2 ^ 31) with 2147483648. change (2 ^ 32) with 4294967296.
      destruct (Z.ltb_spec u 2147483648); Zlia. }
    destruct Hv as [Hv Hmod].
    exists v. split; [|split; [done|]].
    + unfold PrimitiveStream_int32.
      by rewrite (bind_Return _ _ _ _ _
                    (PrimitiveStream_read_app [b0; b1; b2; b3] rest objs)).
    + unfold PrimitiveWriter_int32, struct_pack_i, bind, lift, stream_write.
      rewrite Hmod, E0, E1, E2, E3, !byte_of_to_Z.
      destruct (Z.leb_spec (- 2 ^ 31) v); [|lia].
      destruct (Z.ltb_spec v (2 ^ 31)); [|lia]. done.
Qed.

Lemma int32_roundtrip_witness :
  exists data,
    PrimitiveWriter_int32 (-1) [] = Some (Return tt, [] ++ data)
    /\ PrimitiveStream_int32 (mkRecordStream (data ++ [x0b]) ∅)
       = Some (Return (-1), mkRecordStream [x0b] ∅).
Proof. apply (proj1 (int32_roundtrip [x0b] ∅ []) (-1)). lia. Defined.

(** X4. [PrimitiveStream.read]: reading no bytes leaves the stream as it
    is; a read of more bytes than are left raises [EOFError] and leaves the
    stream used up, so that every later read of one byte or more raises
    [EOFError] again; a read within what is left returns exactly [size]
    bytes and leaves the others. *)
Theorem read_edge_cases (data : list byte) objs (size : Z) :
  PrimitiveStream_read 0 (mkRecordStream data objs)
  = Some (Return [], mkRecordStream data objs)
  /\ (Z.of_nat (length data) < size ->
      PrimitiveStream_read size (mkRecordStream data objs)
      = Some (Raise EOFError, mkRecordStream [] objs)
      /\ forall size', 0 < size' ->
           PrimitiveStream_read size' (mkRecordStream [] objs)
           = Some (Raise EOFError, mkRecordStream [] objs))
  /\ (0 <= size <= Z.of_nat (length data) ->
      exists read rest,
        data = read ++ rest /\ Z.of_nat (length read) = size
        /\ PrimitiveStream_read size (mkRecordStream data objs)
           = Some (Return read, mkRecordStream rest objs)).
Proof.
  split; [|split].
  - rewrite PrimitiveStream_read_enough by lia. simpl. by rewrite drop_0.
  - intros Hs. split; [by apply PrimitiveStream_read_short|].
    intros size' Hs'. apply PrimitiveStream_read_short. simpl. lia.
  - intros Hs. exists (take (Z.to_nat size) data), (drop (Z.to_nat size) data).
    split; [by rewrite take_drop|]. split; [rewrite length_take; lia|].
    by apply PrimitiveStream_read_enough.
Qed.

Lemma read_edge_cases_witness :
  PrimitiveStream_read 4 (mkRecordStream [x01; x02] ∅)
  = Some (Raise EOFError, mkRecordStream [] ∅)
  /\ forall size', 0 < size' ->
       PrimitiveStream_read size' (mkRecordStream [] ∅)
       = Some (Raise EOFError, mkRecordStream [] ∅).
Proof.
  apply (proj1 (proj2 (read_edge_cases [x01; x02] ∅ 4))). simpl. lia.
Defined.

(** ** Strings *)

Lemma utf8_cont_inv (b : byte) (c : Z) :
  utf8_cont b = Some c -> 128 <= byte_to_Z b < 192 /\ c = byte_to_Z b - 128.
Proof.
  unfold utf8_cont.
  destruct (Z.leb_spec 128 (byte_to_Z b)); [|discriminate].
  destruct (Z.ltb_spec (byte_to_Z b) 192); [|discriminate].
  intros E. inversion E. lia.
Qed.

Lemma decoded_inv (c : Z) (o : outcome str) (value : str) :
  decoded c o = Return value -> exists s, o = Return s /\ value = c :: s.
Proof. destruct o as [s|e]; [|discriminate]. intros E. inversion E. by exists s. Qed.

Lemma str_encode_cons (c : Z) (bs : list byte) (s : str) (raw : list byte) :
  utf8_encode_char c = Some bs -> str_encode s = Return raw ->
  str_encode (c :: s) = Return (bs ++ raw).
Proof. intros Hc Hs. simpl. by rewrite Hc, Hs. Qed.

(** What the strict decoder accepts is the UTF-8 form of what it returns,
    and that is a string of scalar values. *)
Lemma bytes_decode_encode (n : nat) : forall (raw : list byte) (value : str),
  (length raw <= n)%nat ->
  bytes_decode raw = Return value ->
  str_encode value = Return raw /\ forallb is_scalar value = true.
Proof.
  induction n as [|n IH]; intros raw value Hn E.
  { destruct raw; [|simpl in Hn; lia]. inversion E. done. }
  destruct raw as [|b0 raw1]; [by inversion E|].
  cbn [bytes_decode] in E. cbv zeta in E.
  pose proof (byte_to_Z_range b0) as Hb0. simpl in Hn.
  destruct (Z.ltb_spec (byte_to_Z b0) 128).
  { apply decoded_inv in E as (s & Es & ->).
    apply IH in Es as [Es Hs]; [|lia]. split.
    - rewrite (str_encode_cons (byte_to_Z b0) [b0] s raw1); [done| |done].
      unfold utf8_encode_char. Zdecide. cbn [andb]. by rewrite byte_of_to_Z.
    - cbn [forallb]. rewrite Hs. unfold is_scalar. Zdecide. done. }
  destruct (Z.ltb_spec (byte_to_Z b0) 192); [discriminate|].
  destruct (Z.ltb_spec (byte_to_Z b0) 224).
  { destruct raw1 as [|b1 raw2]; [discriminate|].
    destruct (utf8_cont b1) as [c1|] eqn:E1; [|discriminate].
    apply utf8_cont_inv in E1 as [Hb1 ->].
    destruct (Z.leb_spec 128 ((byte_to_Z b0 - 192) * 64 + (byte_to_Z b1 - 128)));
      [|discriminate].
    apply decoded_inv in E as (s & Es & ->). simpl in Hn.
    apply IH in Es as [Es Hs]; [|lia].
    set (c := (byte_to_Z b0 - 192) * 64 + (byte_to_Z b1 - 128)) in *.
    assert (Hc : 128 <= c < 2048 /\ 192 + c / 64 = byte_to_Z b0
                 /\ 128 + c mod 64 = byte_to_Z b1) by (subst c; Zlia).
    destruct Hc as (Hc & Hd0 & Hd1). split.
    - rewrite (str_encode_cons c [b0; b1] s raw2); [done| |done].
      unfold utf8_encode_char. rewrite Hd0, Hd1, !byte_of_to_Z.
      Zdecide. done.
    - cbn [forallb]. rewrite Hs. unfold is_scalar. Zdecide. done. }
  destruct (Z.ltb_spec (byte_to_Z b0) 240).
  { destruct raw1 as [|b1 [|b2 raw3]]; [discriminate..|].
    destruct (utf8_cont b1) as [c1|] eqn:E1; [|discriminate].
    destruct (utf8_cont b2) as [c2|] eqn:E2; [|discriminate].
    apply utf8_cont_inv in E1 as [Hb1 ->]. apply utf8_cont_inv in E2 as [Hb2 ->].
    set (c := (byte_to_Z b0 - 224) * 4096 + (byte_to_Z b1 - 128) * 64
              + (byte_to_Z b2 - 128)) in *.
    destruct (Z.leb_spec 2048 c); [|discriminate]. cbn [andb] in E.
    assert (Hc : c < 65536 /\ 224 + c / 4096 = byte_to_Z b0
                 /\ 128 + c / 64 mod 64 = byte_to_Z b1
                 /\ 128 + c mod 64 = byte_to_Z b2).
    { replace (c / 4096) with (c / 64 / 64) by (rewrite Z.div_div by lia; done).
      subst c. Zlia. }
    destruct Hc as (Hc & Hd0 & Hd1 & Hd2).
    destruct (Z.leb_spec 55296 c); destruct (Z.ltb_spec c 57344);
      cbn [andb negb] in E; try discriminate; try (exfalso; lia);
      apply decoded_inv in E as (s & Es & ->); simpl in Hn;
      (apply IH in Es as [Es Hs]; [|lia]); (split;
        [ rewrite (str_encode_cons c [b0; b1; b2] s raw3); [done| |done];
          unfold utf8_encode_char; rewrite Hd0, Hd1, Hd2, !byte_of_to_Z;
          Zdecide; done
        | cbn [forallb]; rewrite Hs; unfold is_scalar; Zdecide; done ]). }
  destruct (Z.ltb_spec (byte_to_Z b0) 248); [|discriminate].
  destruct raw1 as [|b1 [|b2 [|b3 raw4]]]; [discriminate..|].
  destruct (utf8_cont b1) as [c1|] eqn:E1; [|discriminate].
  destruct (utf8_cont b2) as [c2|] eqn:E2; [|discriminate].
  destruct (utf8_cont b3) as [c3|] eqn:E3; [|discriminate].
  apply utf8_cont_inv in E1 as [Hb1 ->]. apply utf8_cont_inv in E2 as [Hb2 ->].
  apply utf8_cont_inv in E3 as [Hb3 ->].
  set (c := (byte_to_Z b0 - 240) * 262144 + (byte_to_Z b1 - 128) * 4096
            + (byte_to_Z b2 - 128) * 64 + (byte_to_Z b3 - 128)) in *.
  destruct (Z.leb_spec 65536 c); [|discriminate].
  destruct (Z.ltb_spec c 1114112); [|discriminate]. cbn [andb] in E.
  assert (Hc : 240 + c / 262144 = byte_to_Z b0
               /\ 128 + c / 4096 mod 64 = byte_to_Z b1
               /\ 128 + c / 64 mod 64 = byte_to_Z b2
               /\ 128 + c mod 64 = byte_to_Z b3).
  { replace (c / 262144) with (c / 64 / 64 / 64) by (rewrite !Z.div_div by lia; done).
    replace (c / 4096) with (c / 64 / 64) by (rewrite Z.div_div by lia; done).
    subst c. Zlia. }
  destruct Hc as (Hd0 & Hd1 & Hd2 & Hd3).
  apply decoded_inv in E as (s & Es & ->). simpl in Hn.
  apply IH in Es as [Es Hs]; [|lia]. split.
  - rewrite (str_encode_cons c [b0; b1; b2; b3] s raw4); [done| |done].
    unfold utf8_encode_char. rewrite Hd0, Hd1, Hd2, Hd3, !byte_of_to_Z.
    Zdecide. done.
  - cbn [forallb]. rewrite Hs. unfold is_scalar. Zdecide. done.
Qed.

Lemma str_encode_not_scalar (value : str) :
  forallb is_scalar value = false -> str_encode value = Raise UnicodeEncodeError.
Proof.
  induction value as [|c rest IH]; [discriminate|]. cbn [forallb str_encode].
  intros H. destruct (utf8_encode_char c) as [bs|] eqn:Ec; [|done].
  assert (is_scalar c = true) as Hc.
  { apply utf8_encode_char_cases in Ec. unfold is_scalar.
    destruct Ec as [[Hc _] | [[Hc _] | [[[Hc|Hc] _] | [Hc _]]]]; Zdecide; done. }
  rewrite Hc in H. rewrite (IH H). done.
Qed.

Lemma PrimitiveStream_read_inv size data objs read self' :
  PrimitiveStream_read size (mkRecordStream data objs) = Some (Return read, self') ->
  0 <= size <= Z.of_nat (length data)
  /\ read = take (Z.to_nat size) data
  /\ self' = mkRecordStream (drop (Z.to_nat size) data) objs.
Proof.
  intros E.
  destruct (Z_lt_le_dec size 0) as [Hneg|Hpos].
  { unfold PrimitiveStream_read, bind, stream_read in E; simpl in E.
    destruct (Z.ltb_spec size 0); [|lia].
    destruct (Z.eqb_spec (Z.of_nat (length data)) size); [lia | discriminate]. }
  destruct (Z_lt_le_dec (Z.of_nat (length data)) size) as [Hshort|Hok].
  { by rewrite PrimitiveStream_read_short in E. }
  rewrite PrimitiveStream_read_enough in E by lia. inversion E. done.
Qed.

Lemma prefix_bytes_minimal fuel (length : Z) (k : nat) :
  0 <= length <= Z.of_nat fuel -> (1 <= k)%nat -> length < 128 ^ Z.of_nat k ->
  (List.length (prefix_bytes fuel length) <= k)%nat.
Proof.
  intros Hl Hk Hlt.
  destruct (prefix_bytes_length fuel length Hl) as [_ [->|Hlow]]; [done|].
  remember (List.length (prefix_bytes fuel length)) as n eqn:En. clear En.
  destruct (Nat.le_gt_cases n k) as [|Hgt]; [done|]. exfalso.
  assert (128 ^ Z.of_nat k <= 128 ^ (Z.of_nat n - 1))
    by (apply Z.pow_le_mono_r; lia).
  lia.
Qed.

(** Every group of a prefix but the last has the continuation bit set. *)
Lemma prefix_bytes_shape fuel : forall length : Z,
  0 <= length <= Z.of_nat fuel ->
  exists continued last,
    prefix_bytes fuel length = continued ++ [last]
    /\ Forall (fun b => 128 <= byte_to_Z b) continued
    /\ byte_to_Z last < 128.
Proof.
  induction fuel as [|fuel IH]; intros len Hle.
  - exists [], (byte_of_Z len). rewrite prefix_bytes_done by lia.
    rewrite byte_to_of_Z by lia. split; [done|]. split; [constructor | lia].
  - destruct (Z_lt_le_dec len 128) as [Hs|Hl].
    + exists [], (byte_of_Z len). rewrite prefix_bytes_done by lia.
      rewrite byte_to_of_Z by lia. split; [done|]. split; [constructor | lia].
    + rewrite prefix_bytes_step by done.
      destruct (IH (len / 128)) as (continued & last & -> & Hc & Hlast).
      { split; [apply Z.div_pos; lia|].
        assert (len / 128 < len) by (apply Z.div_lt; lia). lia. }
      exists (byte_of_Z (len mod 128 + 128) :: continued), last.
      split; [done|]. split; [|done]. constructor; [|done].
      rewrite byte_to_of_Z by Zlia. Zlia.
Qed.

(** X5. A length the string reader returns lies in [0, 2^35): it has been
    read from one to five bytes, and from [k] bytes it is below [128^k].
    So [PrimitiveStream.read] is never asked for a negative number of
    bytes. *)
Theorem length_prefix_value_range (stream : list byte) objs (length : Z) self' :
  string_length 5 0 0 0 (mkRecordStream stream objs) = Some (Return length, self') ->
  0 <= length < 2 ^ 35
  /\ exists k, (1 <= k <= 5)%nat /\ (k <= List.length stream)%nat
       /\ self' = mkRecordStream (drop k stream) objs
       /\ length < 128 ^ Z.of_nat k.
Proof.
  intros E.
  apply string_length_value in E as (k & v & Hk5 & Hk & Hk1 & -> & -> & Hv); [|lia].
  change (2 ^ 0) with 1.
  assert (128 ^ Z.of_nat k <= 128 ^ 5) by (apply Z.pow_le_mono_r; lia).
  change (128 ^ 5) with (2 ^ 35) in *.
  assert (1 <= k)%nat by (apply Hk1; lia).
  split; [lia|]. exists k. repeat split; lia.
Qed.

Lemma length_prefix_value_range_witness :
  0 <= 300 < 2 ^ 35
  /\ exists k, (1 <= k <= 5)%nat /\ (k <= List.length [xac; x02; x41])%nat
       /\ mkRecordStream [x41] ∅ = mkRecordStream (drop k [xac; x02; x41]) ∅
       /\ 300 < 128 ^ Z.of_nat k.
Proof.
  apply (length_prefix_value_range [xac; x02; x41] ∅ 300 (mkRecordStream [x41] ∅)).
  reflexivity.
Defined.

(** X6. The length prefix of any length [L >= 0]: the loop of the writer
    terminates, every group it writes but the last has the continuation
    bit and the last has not; the reader returns [L] from it
    exactly when [L < 2^35], and raises [RuntimeError] otherwise. *)
Theorem length_prefix_threshold (L : Z) (buffer rest : list byte) objs :
  0 <= L ->
  exists continued last,
    string_prefix L buffer = Some (Return tt, buffer ++ continued ++ [last])
    /\ Forall (fun b => Z.land (byte_to_Z b) 128 <> 0) continued
    /\ Z.land (byte_to_Z last) 128 = 0
    /\ (L < 2 ^ 35 ->
        string_length 5 0 0 0 (mkRecordStream ((continued ++ [last]) ++ rest) objs)
        = Some (Return L, mkRecordStream rest objs))
    /\ (2 ^ 35 <= L ->
        exists self',
          string_length 5 0 0 0 (mkRecordStream ((continued ++ [last]) ++ rest) objs)
          = Some (Raise RuntimeError, self')).
Proof.
  intros HL.
  destruct (prefix_bytes_shape (Z.to_nat L) L ltac:(lia))
    as (continued & last & E & Hc & Hlast).
  exists continued, last. rewrite <- E.
  split; [by apply string_prefix_bytes|]. split; [|split; [|split]].
  - eapply Forall_impl; [exact Hc|]. intros b Hb; simpl in Hb.
    apply Z.eqb_neq. rewrite land_128_eqb. apply Z.ltb_ge. lia.
  - apply Z.eqb_eq. rewrite land_128_eqb. apply Z.ltb_lt. lia.
  - intros Hlt.
    rewrite (string_length_prefix_bytes (Z.to_nat L) L 5 0 0 0) by lia.
    do 3 f_equal. lia.
  - intros Hge.
    destruct (string_length_prefix_too_long 5 (Z.to_nat L) L 0 0 0 rest objs
                ltac:(lia) ltac:(lia) ltac:(lia) ltac:(lia)) as (self' & Es & _).
    by exists self'.
Qed.

Lemma length_prefix_threshold_witness :
  exists continued last,
    string_prefix 16384 [] = Some (Return tt, [] ++ continued ++ [last])
    /\ Forall (fun b => Z.land (byte_to_Z b) 128 <> 0) continued
    /\ Z.land (byte_to_Z last) 128 = 0
    /\ (16384 < 2 ^ 35 ->
        string_length 5 0 0 0 (mkRecordStream ((continued ++ [last]) ++ [x0b]) ∅)
        = Some (Return 16384, mkRecordStream [x0b] ∅))
    /\ (2 ^ 35 <= 16384 ->
        exists self',
          string_length 5 0 0 0 (mkRecordStream ((continued ++ [last]) ++ [x0b]) ∅)
          = Some (Raise RuntimeError, self')).
Proof. apply (length_prefix_threshold 16384 [] [x0b] ∅). lia. Defined.

(** X7. [PrimitiveWriter.string] raises [UnicodeEncodeError] and writes
    nothing when the string holds a code point that is no Unicode scalar
    value (a surrogate); otherwise it succeeds, whatever the length, and
    appends a length prefix and the UTF-8 form of the string. *)
Theorem string_writer_outcome (value : str) (buffer : list byte) :
  (forallb is_scalar value = false ->
   PrimitiveWriter_string value buffer = Some (Raise UnicodeEncodeError, buffer))
  /\ (forallb is_scalar value = true ->
      exists groups encoded,
        PrimitiveWriter_string value buffer
        = Some (Return tt, buffer ++ groups ++ encoded)
        /\ (1 <= length groups)%nat
        /\ str_encode value = Return encoded
        /\ bytes_decode encoded = Return value).
Proof.
  split; intros Hv.
  - unfold PrimitiveWriter_string. by rewrite (str_encode_not_scalar value Hv).
  - destruct (str_encode_scalar value Hv) as [encoded He].
    exists (prefix_bytes (length encoded) (Z.of_nat (length encoded))), encoded.
    split; [|split; [|split]].
    + rewrite (PrimitiveWriter_string_wire value buffer Hv).
      unfold string_bytes. by rewrite He.
    + destruct (prefix_bytes_shape (length encoded) (Z.of_nat (length encoded))
                  ltac:(lia)) as (continued & last & -> & _).
      rewrite length_app. simpl. lia.
    + done.
    + by apply str_roundtrip.
Qed.

Lemma string_writer_outcome_witness :
  PrimitiveWriter_string [104; 56320] [x01] = Some (Raise UnicodeEncodeError, [x01])
  /\ exists groups encoded,
       PrimitiveWriter_string [104; 233] [x01]
       = Some (Return tt, [x01] ++ groups ++ encoded)
       /\ (1 <= length groups)%nat
       /\ str_encode [104; 233] = Return encoded
       /\ bytes_decode encoded = Return [104; 233].
Proof.
  split.
  - apply (proj1 (string_writer_outcome [104; 56320] [x01])). reflexivity.
  - apply (proj2 (string_writer_outcome [104; 233] [x01])). reflexivity.
Defined.

(** X8. A string of scalar values that is written is read back as the
    same string, the bytes after it left unread, when its UTF-8 form is
    shorter than 2^35 bytes; when it is not, reading what was written
    raises [RuntimeError]. *)
Theorem string_roundtrip (value : str) (buffer rest : list byte) objs :
  forallb is_scalar value = true ->
  exists data,
    PrimitiveWriter_string value buffer = Some (Return tt, buffer ++ data)
    /\ (utf8_length value < 2 ^ 35 ->
        PrimitiveStream_string (mkRecordStream (data ++ rest) objs)
        = Some (Return value, mkRecordStream rest objs))
    /\ (2 ^ 35 <= utf8_length value ->
        exists self',
          PrimitiveStream_string (mkRecordStream (data ++ rest) objs)
          = Some (Raise RuntimeError, self')).
Proof.
  intros Hv. exists (string_bytes value).
  split; [by apply PrimitiveWriter_string_wire|]. split.
  - intros Hlen. by apply PrimitiveStream_string_wire.
  - intros Hlen. destruct (str_encode_scalar value Hv) as [encoded He].
    unfold utf8_length in Hlen. unfold string_bytes. rewrite He in *.
    destruct (string_length_prefix_too_long 5 (length encoded)
                (Z.of_nat (length encoded)) 0 0 0 (encoded ++ rest) objs
                ltac:(lia) ltac:(lia) ltac:(lia) ltac:(lia)) as (self' & Es & _).
    exists self'. rewrite <- app_assoc. unfold PrimitiveStream_string.
    by rewrite (bind_Raise _ _ _ _ _ Es).
Qed.

Lemma string_roundtrip_witness :
  exists data,
    PrimitiveWriter_string [8364; 104] [] = Some (Return tt, [] ++ data)
    /\ (utf8_length [8364; 104] < 2 ^ 35 ->
        PrimitiveStream_string (mkRecordStream (data ++ [x0b]) ∅)
        = Some (Return [8364; 104], mkRecordStream [x0b] ∅))
    /\ (2 ^ 35 <= utf8_length [8364; 104] ->
        exists self',
          PrimitiveStream_string (mkRecordStream (data ++ [x0b]) ∅)
          = Some (Raise RuntimeError, self')).
Proof. apply (string_roundtrip [8364; 104] [] [x0b] ∅). reflexivity. Defined.

(** X9. A string that is read can be written: it consists of scalar
    values, and writing it gives a length prefix that is not longer than
    the one read, followed by the very bytes the string was decoded from;
    reading that gives the same string again. *)
Theorem string_read_then_write (stream : list byte) objs (value : str) self'
    (buffer : list byte) :
  PrimitiveStream_string (mkRecordStream stream objs) = Some (Return value, self') ->
  exists groups raw rest groups',
    stream = groups ++ raw ++ rest
    /\ self' = mkRecordStream rest objs
    /\ (1 <= length groups <= 5)%nat
    /\ bytes_decode raw = Return value
    /\ forallb is_scalar value = true
    /\ PrimitiveWriter_string value buffer
       = Some (Return tt, buffer ++ groups' ++ raw)
    /\ (length groups' <= length groups)%nat
    /\ forall rest' objs',
        PrimitiveStream_string (mkRecordStream (groups' ++ raw ++ rest') objs')
        = Some (Return value, mkRecordStream rest' objs').
Proof.
  intros E. apply bind_inv_Return in E as (len & s1 & E1 & E).
  apply bind_inv_Return in E as (raw & s2 & E2 & E).
  unfold lift in E. inversion E as [[Hd Hs]]. subst s2. clear E.
  apply string_length_value in E1 as (k & v & Hk5 & Hk & Hk1 & -> & -> & Hv); [|lia].
  change (2 ^ 0) with 1 in E2.
  replace (0 + 1 * v) with v in E2 by lia.
  apply PrimitiveStream_read_inv in E2 as (Hsize & -> & ->).
  rewrite length_drop in Hsize.
  set (raw := take (Z.to_nat v) (drop k stream)) in *.
  assert (Hraw : Z.of_nat (length raw) = v) by (subst raw; rewrite length_take, length_drop; lia).
  destruct (bytes_decode_encode (length raw) raw value ltac:(lia) Hd) as [He Hsc].
  assert (Hlen : utf8_length value < 2 ^ 35).
  { unfold utf8_length. rewrite He, Hraw.
    assert (128 ^ Z.of_nat k <= 128 ^ 5) by (apply Z.pow_le_mono_r; lia).
    change (128 ^ 5) with (2 ^ 35) in *. lia. }
  exists (take k stream), raw, (drop (Z.to_nat v) (drop k stream)),
    (prefix_bytes (length raw) (Z.of_nat (length raw))).
  split; [subst raw; by rewrite !take_drop|]. split; [done|].
  split; [rewrite length_take; lia|]. split; [done|]. split; [done|].
  split; [|split].
  - rewrite (PrimitiveWriter_string_wire value buffer Hsc).
    unfold string_bytes. by rewrite He.
  - rewrite length_take. apply prefix_bytes_minimal; [lia | lia |].
    rewrite Hraw. replace (k `min` length stream)%nat with k by lia. lia.
  - intros rest' objs'.
    pose proof (PrimitiveStream_string_wire value rest' objs' Hsc Hlen) as Hr.
    unfold string_bytes in Hr. rewrite He, <- app_assoc in Hr.
    rewrite Hd. exact Hr.
Qed.

Lemma string_read_then_write_witness :
  exists groups raw rest groups',
    [x82; x00; x68; x69; x0b] = groups ++ raw ++ rest
    /\ mkRecordStream [x0b] ∅ = mkRecordStream rest ∅
    /\ (1 <= length groups <= 5)%nat
    /\ bytes_decode raw = Return [104; 105]
    /\ forallb is_scalar [104; 105] = true
    /\ PrimitiveWriter_string [104; 105] [] = Some (Return tt, [] ++ groups' ++ raw)
    /\ (length groups' <= length groups)%nat
    /\ forall rest' objs',
        PrimitiveStream_string (mkRecordStream (groups' ++ raw ++ rest') objs')
        = Some (Return [104; 105], mkRecordStream rest' objs').
Proof.
  apply (string_read_then_write [x82; x00; x68; x69; x0b] ∅ [104; 105]
           (mkRecordStream [x0b] ∅) []).
  reflexivity.
Defined.

(** ** The record type enumeration and the record writer *)

(** X10. [RecordTypeEnum(value)] and [.value] are inverse to each other:
    the call returns a member exactly for the values 0, 6 and 11, the
    member whose value it was given, and raises [ValueError] for every
    other value; the member of a record is found from its tag. *)
Theorem record_type_enum_roundtrip :
  (forall self, RecordTypeEnum_call (RecordTypeEnum_value self) = Return self)
  /\ (forall value self,
        RecordTypeEnum_call value = Return self -> RecordTypeEnum_value self = value)
  /\ (forall value,
        value <> 0 -> value <> 6 -> value <> 11 ->
        RecordTypeEnum_call value = Raise ValueError_enum)
  /\ (forall record,
        RecordTypeEnum_call (RecordTypeEnum_value (RecordTypeEnum_from_record record))
        = Return (RecordTypeEnum_from_record record)).
Proof.
  split; [|split; [|split]].
  - by intros [].
  - intros value self. unfold RecordTypeEnum_call.
    destruct (Z.eqb_spec value 0); [intros E; inversion E; by subst|].
    destruct (Z.eqb_spec value 6); [intros E; inversion E; by subst|].
    destruct (Z.eqb_spec value 11); [intros E; inversion E; by subst|].
    discriminate.
  - intros value H0 H6 H11. unfold RecordTypeEnum_call.
    destruct (Z.eqb_spec value 0); [done|].
    destruct (Z.eqb_spec value 6); [done|].
    by destruct (Z.eqb_spec value 11).
  - by intros [].
Qed.

Lemma record_type_enum_roundtrip_witness :
  RecordTypeEnum_value Enum_BinaryObjectString = 6
  /\ RecordTypeEnum_call 7 = Raise ValueError_enum.
Proof.
  split.
  - apply (proj1 (proj2 record_type_enum_roundtrip) 6 Enum_BinaryObjectString).
    reflexivity.
  - apply (proj1 (proj2 (proj2 record_type_enum_roundtrip)) 7); lia.
Defined.

Lemma PrimitiveWriter_int32_raises (v : Z) (buffer : list byte) :
  is_int32 v = false ->
  PrimitiveWriter_int32 v buffer = Some (Raise struct_error, buffer).
Proof.
  intros Hv. unfold PrimitiveWriter_int32, struct_pack_i, bind, lift.
  unfold is_int32 in Hv. by rewrite Hv.
Qed.

Lemma PrimitiveWriter_string_raises (value : str) (buffer : list byte) :
  forallb is_scalar value = false ->
  PrimitiveWriter_string value buffer = Some (Raise UnicodeEncodeError, buffer).
Proof.
  intros Hv. unfold PrimitiveWriter_string.
  by rewrite (str_encode_not_scalar value Hv).
Qed.

(** X11. [RecordTypeEnum.serialize] writes the tag before it looks at the
    record: called with a record of another type it raises [TypeError]
    with the tag byte already in the buffer and the object table
    untouched. *)
Theorem serialize_type_mismatch (self : RecordTypeEnum) (record : RecordItem)
    (buffer : list byte) objs :
  RecordTypeEnum_from_record record <> self ->
  RecordTypeEnum_serialize self record (mkRecordWriter buffer objs)
  = Some (Raise TypeError,
          mkRecordWriter (buffer ++ [byte_of_Z (RecordTypeEnum_value self)]) objs).
Proof.
  intros Hne. unfold RecordTypeEnum_serialize.
  rewrite (bind_Return _ _ _ _ _
    (on_writer_run _ _ objs _ _
       (PrimitiveWriter_byte_ok (RecordTypeEnum_value self) buffer
          ltac:(destruct self; simpl; lia)))).
  destruct self, record; simpl in Hne; try done.
Qed.

Lemma serialize_type_mismatch_witness :
  RecordTypeEnum_serialize Enum_BinaryObjectString MessageEnd (mkRecordWriter [x00] ∅)
  = Some (Raise TypeError, mkRecordWriter ([x00] ++ [byte_of_Z 6]) ∅).
Proof.
  apply (serialize_type_mismatch Enum_BinaryObjectString MessageEnd [x00] ∅).
  discriminate.
Defined.

Lemma writable_SerializedStreamHeader a b c d :
  writable (SerializedStreamHeader a b c d)
  = is_int32 a && is_int32 b && is_int32 c && is_int32 d.
Proof. unfold writable. simpl. by rewrite andb_true_r. Qed.

Lemma writable_BinaryObjectString object_id value :
  writable (BinaryObjectString object_id value)
  = is_int32 object_id && forallb is_scalar value.
Proof. reflexivity. Qed.

(** What [RecordWriter.record] does with a record: a writable one is
    written in full and registered; for another one the write stops with
    [struct.error] or [UnicodeEncodeError] at the first field that cannot
    be written, the object table as it was. *)
Lemma RecordWriter_record_outcome (record : RecordItem) buffer objs :
  (writable record = true
   /\ RecordWriter_record record (mkRecordWriter buffer objs)
      = Some (Return tt,
              mkRecordWriter (buffer ++ wire record) (registered objs record)))
  \/ (writable record = false
      /\ exists e partial,
          (e = struct_error \/ e = UnicodeEncodeError)
          /\ RecordWriter_record record (mkRecordWriter buffer objs)
             = Some (Raise e, mkRecordWriter (buffer ++ partial) objs)).
Proof.
  unfold RecordWriter_record, RecordTypeEnum_serialize.
  destruct record as [a b c d|object_id value|];
    cbn [RecordTypeEnum_from_record RecordTypeEnum_value].
  - rewrite writable_SerializedStreamHeader.
    rewrite (bind_Return _ _ _ _ _
      (on_writer_run _ _ objs _ _ (PrimitiveWriter_byte_ok 0 buffer ltac:(lia)))).
    destruct (is_int32 a) eqn:Ha.
    2:{ right. split; [done|]. exists struct_error, [byte_of_Z 0]. split; [by left|].
        by rewrite (bind_Raise _ _ _ _ _
          (on_writer_run _ _ objs _ _ (PrimitiveWriter_int32_raises a _ Ha))). }
    rewrite (bind_Return _ _ _ _ _
      (on_writer_run _ _ objs _ _ (PrimitiveWriter_int32_wire a _ Ha))).
    destruct (is_int32 b) eqn:Hb.
    2:{ right. split; [done|]. exists struct_error, ([byte_of_Z 0] ++ int32_bytes a).
        split; [by left|]. rewrite app_assoc.
        by rewrite (bind_Raise _ _ _ _ _
          (on_writer_run _ _ objs _ _ (PrimitiveWriter_int32_raises b _ Hb))). }
    rewrite (bind_Return _ _ _ _ _
      (on_writer_run _ _ objs _ _ (PrimitiveWriter_int32_wire b _ Hb))).
    destruct (is_int32 c) eqn:Hc.
    2:{ right. split; [done|].
        exists struct_error, ([byte_of_Z 0] ++ int32_bytes a ++ int32_bytes b).
        split; [by left|]. rewrite !app_assoc.
        by rewrite (bind_Raise _ _ _ _ _
          (on_writer_run _ _ objs _ _ (PrimitiveWriter_int32_raises c _ Hc))). }
    rewrite (bind_Return _ _ _ _ _
      (on_writer_run _ _ objs _ _ (PrimitiveWriter_int32_wire c _ Hc))).
    destruct (is_int32 d) eqn:Hd.
    2:{ right. split; [done|].
        exists struct_error,
          ([byte_of_Z 0] ++ int32_bytes a ++ int32_bytes b ++ int32_bytes c).
        split; [by left|]. rewrite !app_assoc.
        by rewrite (on_writer_run _ _ objs _ _ (PrimitiveWriter_int32_raises d _ Hd)). }
    left. split; [done|].
    rewrite (on_writer_run _ _ objs _ _ (PrimitiveWriter_int32_wire d _ Hd)).
    simpl. by rewrite <- !app_assoc.
  - rewrite writable_BinaryObjectString.
    rewrite (bind_Return _ _ _ _ _
      (on_writer_run _ _ objs _ _ (PrimitiveWriter_byte_ok 6 buffer ltac:(lia)))).
    destruct (is_int32 object_id) eqn:Hid.
    2:{ right. split; [done|]. exists struct_error, [byte_of_Z 6]. split; [by left|].
        by rewrite (bind_Raise _ _ _ _ _
          (on_writer_run _ _ objs _ _ (PrimitiveWriter_int32_raises object_id _ Hid))). }
    rewrite (bind_Return _ _ _ _ _
      (on_writer_run _ _ objs _ _ (PrimitiveWriter_int32_wire object_id _ Hid))).
    destruct (forallb is_scalar value) eqn:Hv.
    2:{ right. split; [done|].
        exists UnicodeEncodeError, ([byte_of_Z 6] ++ int32_bytes object_id).
        split; [by right|]. rewrite app_assoc.
        by rewrite (bind_Raise _ _ _ _ _
          (on_writer_run _ _ objs _ _ (PrimitiveWriter_string_raises value _ Hv))). }
    left. split; [done|].
    rewrite (bind_Return _ _ _ _ _
      (on_writer_run _ _ objs _ _ (PrimitiveWriter_string_wire value _ Hv))).
    unfold RecordWriter_set_object. simpl. by rewrite <- !app_assoc.
  - left. split; [done|].
    rewrite (bind_Return _ _ _ _ _
      (on_writer_run _ _ objs _ _ (PrimitiveWriter_byte_ok 11 buffer ltac:(lia)))).
    reflexivity.
Qed.

Lemma for_records_writable (records : list RecordItem) : forall buffer objs,
  forallb writable records = true ->
  for_records records (mkRecordWriter buffer objs)
  = Some (Return tt,
          mkRecordWriter (buffer ++ wire_records records)
                         (foldl registered objs records)).
Proof.
  induction records as [|record rest IH]; intros buffer objs Hw; simpl.
  - unfold wire_records; simpl. by rewrite app_nil_r.
  - apply andb_true_iff in Hw as [Hr Hrest].
    destruct (RecordWriter_record_outcome record buffer objs)
      as [[_ E]|[Hf _]]; [|congruence].
    rewrite (bind_Return _ _ _ _ _ E), IH by done.
    unfold wire_records; simpl. by rewrite app_assoc.
Qed.

Lemma for_records_unwritable (good : list RecordItem) (bad : RecordItem)
    buffer objs :
  forallb writable good = true -> writable bad = false ->
  exists e partial,
    (e = struct_error \/ e = UnicodeEncodeError)
    /\ forall rest,
        for_records (good ++ bad :: rest) (mkRecordWriter buffer objs)
        = Some (Raise e,
                mkRecordWriter (buffer ++ wire_records good ++ partial)
                               (foldl registered objs good)).
Proof.
  intros Hgood Hbad.
  destruct (RecordWriter_record_outcome bad (buffer ++ wire_records good)
              (foldl registered objs good))
    as [[Ht _]|[_ (e & partial & He & E)]]; [congruence|].
  exists e, partial. split; [done|]. intros rest.
  revert buffer objs E.
  induction good as [|record good IH]; intros buffer objs E.
  - unfold wire_records in *; simpl in *. rewrite app_nil_r in E.
    by rewrite (bind_Raise _ _ _ _ _ E).
  - simpl in Hgood. apply andb_true_iff in Hgood as [Hr Hgood].
    destruct (RecordWriter_record_outcome record buffer objs)
      as [[_ Er]|[Hf _]]; [|congruence].
    cbn [app for_records]. rewrite (bind_Return _ _ _ _ _ Er).
    rewrite (IH Hgood (buffer ++ wire record) (registered objs record)).
    + unfold wire_records; simpl. by rewrite <- !app_assoc.
    + unfold wire_records in *; simpl in *. by rewrite <- !app_assoc in *.
Qed.

Lemma forallb_false_split {A} (f : A -> bool) (l : list A) :
  forallb f l = false ->
  exists good bad rest,
    l = good ++ bad :: rest /\ forallb f good = true /\ f bad = false.
Proof.
  induction l as [|x l IH]; [discriminate|]. simpl.
  destruct (f x) eqn:Hx.
  - intros H. destruct (IH H) as (good & bad & rest & -> & Hg & Hb).
    exists (x :: good), bad, rest. simpl. by rewrite Hx, Hg.
  - intros _. by exists [], x, l.
Qed.

(** ** [serialize_records] *)

Lemma registered_union (objs : gmap Z RecordItem) (record : RecordItem) :
  registered objs record = registered ∅ record ∪ objs.
Proof.
  destruct record; simpl; try by rewrite (left_id_L ∅ (∪)).
  by rewrite insert_union_singleton_l, insert_empty.
Qed.

Lemma foldl_registered_union (records : list RecordItem) : forall objs,
  foldl registered objs records = objects_of records ∪ objs.
Proof.
  unfold objects_of.
  induction records as [|record rest IH]; intros objs; simpl.
  - by rewrite (left_id_L ∅ (∪)).
  - rewrite (IH (registered objs record)), (IH (registered ∅ record)).
    by rewrite (registered_union objs record), (assoc_L (∪)).
Qed.

(** X12. [serialize_records] always ends, for any record sequence: with
    the bytes when every record is writable (integer fields within 32
    bits, strings of scalar values), and otherwise with [struct.error] or
    [UnicodeEncodeError]; it raises nothing else, neither [TypeError] nor
    the [ValueError] of [PrimitiveWriter.byte]. *)
Theorem serialize_records_outcome (records : list RecordItem) :
  exists o writer,
    serialize_records records = Some (o, writer)
    /\ ((forallb writable records = true
         /\ exists data,
             o = Return data
             /\ writer = mkRecordWriter data (objects_of records))
        \/ (forallb writable records = false
            /\ (o = Raise struct_error \/ o = Raise UnicodeEncodeError))).
Proof.
  unfold serialize_records.
  destruct (forallb writable records) eqn:Hw.
  - rewrite (bind_Return _ _ _ _ _ (for_records_writable records [] ∅ Hw)).
    eexists _, _. split; [reflexivity|]. left. split; [done|]. by eexists.
  - apply forallb_false_split in Hw as (good & bad & rest & -> & Hg & Hb).
    destruct (for_records_unwritable good bad [] ∅ Hg Hb)
      as (e & partial & He & E).
    rewrite (bind_Raise _ _ _ _ _ (E rest)).
    eexists _, _. split; [reflexivity|]. right. split; [done|].
    destruct He as [-> | ->]; [by left | by right].
Qed.

(** X13. The first record that cannot be written stops the encoding: the
    records before it have been written to the buffer and registered, and
    the records after it play no part in the outcome. *)
Theorem serialize_records_stops (good : list RecordItem) (bad : RecordItem) :
  forallb writable good = true -> writable bad = false ->
  exists data e partial,
    serialize_records good
    = Some (Return data, mkRecordWriter data (objects_of good))
    /\ (e = struct_error \/ e = UnicodeEncodeError)
    /\ forall rest,
        serialize_records (good ++ bad :: rest)
        = Some (Raise e, mkRecordWriter (data ++ partial) (objects_of good)).
Proof.
  intros Hg Hb.
  destruct (for_records_unwritable good bad [] ∅ Hg Hb) as (e & partial & He & E).
  exists (wire_records good), e, partial. split; [|split; [done|]].
  - unfold serialize_records.
    by rewrite (bind_Return _ _ _ _ _ (for_records_writable good [] ∅ Hg)).
  - intros rest. unfold serialize_records.
    by rewrite (bind_Raise _ _ _ _ _ (E rest)).
Qed.

Lemma serialize_records_stops_witness :
  exists data e partial,
    serialize_records [BinaryObjectString 1 [104]]
    = Some (Return data,
            mkRecordWriter data (objects_of [BinaryObjectString 1 [104]]))
    /\ (e = struct_error \/ e = UnicodeEncodeError)
    /\ forall rest,
        serialize_records
          ([BinaryObjectString 1 [104]]
           ++ SerializedStreamHeader 1 (2 ^ 31) 1 0 :: rest)
        = Some (Raise e,
                mkRecordWriter (data ++ partial)
                               (objects_of [BinaryObjectString 1 [104]])).
Proof.
  apply (serialize_records_stops [BinaryObjectString 1 [104]]
           (SerializedStreamHeader 1 (2 ^ 31) 1 0)); reflexivity.
Defined.

(** X14. Encoding distributes over concatenation: the bytes of two
    writable sequences one after the other are the bytes of the first
    followed by the bytes of the second, and the object table is that of
    the second laid over that of the first. *)
Theorem serialize_records_app (records1 records2 : list RecordItem) :
  forallb writable records1 = true -> forallb writable records2 = true ->
  exists data1 data2,
    serialize_records records1
    = Some (Return data1, mkRecordWriter data1 (objects_of records1))
    /\ serialize_records records2
       = Some (Return data2, mkRecordWriter data2 (objects_of records2))
    /\ serialize_records (records1 ++ records2)
       = Some (Return (data1 ++ data2),
               mkRecordWriter (data1 ++ data2)
                              (objects_of records2 ∪ objects_of records1)).
Proof.
  intros H1 H2. exists (wire_records records1), (wire_records records2).
  unfold serialize_records.
  rewrite (bind_Return _ _ _ _ _ (for_records_writable records1 [] ∅ H1)).
  rewrite (bind_Return _ _ _ _ _ (for_records_writable records2 [] ∅ H2)).
  rewrite (bind_Return _ _ _ _ _
             (for_records_writable (records1 ++ records2) [] ∅
                ltac:(rewrite forallb_app; by rewrite H1, H2))).
  split; [done|]. split; [done|]. simpl.
  unfold wire_records. rewrite map_app, concat_app.
  rewrite foldl_app. fold (objects_of records1).
  by rewrite foldl_registered_union.
Qed.

Lemma serialize_records_app_witness :
  exists data1 data2,
    serialize_records [BinaryObjectString 1 [104]]
    = Some (Return data1,
            mkRecordWriter data1 (objects_of [BinaryObjectString 1 [104]]))
    /\ serialize_records [BinaryObjectString 1 [105]; MessageEnd]
       = Some (Return data2,
               mkRecordWriter data2
                 (objects_of [BinaryObjectString 1 [105]; MessageEnd]))
    /\ serialize_records
         ([BinaryObjectString 1 [104]] ++ [BinaryObjectString 1 [105]; MessageEnd])
       = Some (Return (data1 ++ data2),
               mkRecordWriter (data1 ++ data2)
                 (objects_of [BinaryObjectString 1 [105]; MessageEnd]
                  ∪ objects_of [BinaryObjectString 1 [104]])).
Proof.
  apply (serialize_records_app [BinaryObjectString 1 [104]]
           [BinaryObjectString 1 [105]; MessageEnd]); reflexivity.
Defined.

(** ** What the decoder returns *)

Lemma PrimitiveStream_int32_inv stream objs value self' :
  PrimitiveStream_int32 (mkRecordStream stream objs) = Some (Return value, self') ->
  is_int32 value = true
  /\ exists b0 b1 b2 b3 rest,
      stream = b0 :: b1 :: b2 :: b3 :: rest /\ self' = mkRecordStream rest objs.
Proof.
  intros E. apply bind_inv_Return in E as (data & s1 & E1 & E2).
  apply PrimitiveStream_read_inv in E1 as (Hsize & -> & ->).
  destruct stream as [|b0 [|b1 [|b2 [|b3 rest]]]]; simpl in Hsize; try lia.
  change (Z.to_nat 4) with 4%nat in E2. cbn [take drop] in E2.
  rewrite take_0, drop_0 in E2.
  unfold lift, struct_unpack_i in E2. inversion E2; subst. split.
  - pose proof (byte_to_Z_range b0). pose proof (byte_to_Z_range b1).
    pose proof (byte_to_Z_range b2). pose proof (byte_to_Z_range b3).
    unfold is_int32. change (2 ^ 8) with 256. change (2 ^ 16) with 65536.
    change (2 ^ 24) with 16777216. change (2 ^ 31) with 2147483648.
    change (2 ^ 32) with 4294967296.
    destruct (Z.ltb_spec
      (byte_to_Z b0 + 256 * byte_to_Z b1 + 65536 * byte_to_Z b2
       + 16777216 * byte_to_Z b3) 2147483648);
      apply andb_true_iff; split; [apply Z.leb_le | apply Z.ltb_lt
                                  | apply Z.leb_le | apply Z.ltb_lt]; lia.
  - by exists b0, b1, b2, b3, rest.
Qed.

(** A string that is read: where it was in the stream, and what it is. *)
Lemma PrimitiveStream_string_inv stream objs value self' :
  PrimitiveStream_string (mkRecordStream stream objs) = Some (Return value, self') ->
  exists (k : nat) raw,
    (1 <= k <= 5)%nat /\ (k <= length stream)%nat
    /\ stream = take k stream ++ raw ++ drop (length raw) (drop k stream)
    /\ self' = mkRecordStream (drop (length raw) (drop k stream)) objs
    /\ Z.of_nat (length raw) < 128 ^ Z.of_nat k
    /\ bytes_decode raw = Return value
    /\ str_encode value = Return raw
    /\ forallb is_scalar value = true
    /\ utf8_length value < 2 ^ 35.
Proof.
  intros E. apply bind_inv_Return in E as (len & s1 & E1 & E).
  apply bind_inv_Return in E as (raw & s2 & E2 & E).
  unfold lift in E. inversion E as [[Hd Hs]]. subst s2. clear E.
  apply string_length_value in E1 as (k & v & Hk5 & Hk & Hk1 & -> & -> & Hv); [|lia].
  change (2 ^ 0) with 1 in E2.
  replace (0 + 1 * v) with v in E2 by lia.
  apply PrimitiveStream_read_inv in E2 as (Hsize & -> & ->).
  rewrite length_drop in Hsize.
  set (raw := take (Z.to_nat v) (drop k stream)) in *.
  assert (Hraw : length raw = Z.to_nat v)
    by (subst raw; rewrite length_take, length_drop; lia).
  destruct (bytes_decode_encode (length raw) raw value ltac:(lia) Hd) as [He Hsc].
  assert (1 <= k)%nat by (apply Hk1; lia).
  assert (128 ^ Z.of_nat k <= 128 ^ 5) by (apply Z.pow_le_mono_r; lia).
  change (128 ^ 5) with (2 ^ 35) in *.
  exists k, raw. rewrite Hraw.
  split; [lia|]. split; [done|].
  split; [subst raw; by rewrite !take_drop|]. split; [done|].
  split; [lia|]. split; [done|]. split; [done|]. split; [done|].
  unfold utf8_length. rewrite He, Hraw. lia.
Qed.

(** A record that is read meets the conditions of [wf_record]. *)
Lemma RecordStream_record_wf self record self' :
  RecordStream_record self = Some (Return record, self') ->
  wf_record record = true.
Proof.
  destruct self as [stream objs]. intros E.
  apply bind_inv_Return in E as (tag & [s1 o1] & _ & E).
  apply bind_inv_Return in E as (record_type & s2 & E2 & E).
  inversion E2; subst s2. clear E2 H0.
  destruct record_type; simpl in E.
  - apply bind_inv_Return in E as (a & [sa oa] & Ea & E).
    apply bind_inv_Return in E as (b & [sb ob] & Eb & E).
    apply bind_inv_Return in E as (c & [sc oc] & Ec & E).
    apply bind_inv_Return in E as (d & [sd od] & Ed & E).
    inversion E; subst.
    apply PrimitiveStream_int32_inv in Ea as [Ha _], Eb as [Hb _],
      Ec as [Hc _], Ed as [Hd _].
    simpl. by rewrite Ha, Hb, Hc, Hd.
  - apply bind_inv_Return in E as (object_id & [sa oa] & Ea & E).
    apply bind_inv_Return in E as (value & [sb ob] & Eb & E).
    apply bind_inv_Return in E as (u & sc & Ec & E).
    inversion E; subst.
    apply PrimitiveStream_int32_inv in Ea as [Hid _].
    apply PrimitiveStream_string_inv in Eb
      as (k & raw & _ & _ & _ & _ & _ & _ & _ & Hsc & Hlen).
    simpl. rewrite Hid, Hsc. by apply Z.ltb_lt in Hlen as ->.
  - by inversion E.
Qed.

Lemma ends_in_only_MessageEnd_cons (record : RecordItem) (rest : list RecordItem) :
  isinstance_MessageEnd record = false ->
  ends_in_only_MessageEnd rest = true ->
  ends_in_only_MessageEnd (record :: rest) = true.
Proof.
  intros Hm Hrest. destruct rest as [|r rest]; [discriminate|].
  cbn [ends_in_only_MessageEnd] in *. by rewrite Hm, Hrest.
Qed.

(** The records a call of [DNBinary.parse] adds. *)
Lemma DNBinary_parse_new fuel : forall self records self',
  DNBinary_parse fuel self = Some (Return records, self') ->
  exists new,
    records = DNBinary_records self ++ new
    /\ DNBinary_records self' = records
    /\ ends_in_only_MessageEnd new = true
    /\ forallb wf_record new = true
    /\ RecordStream_objects (DNBinary_stream self')
       = foldl registered (RecordStream_objects (DNBinary_stream self)) new.
Proof.
  induction fuel as [|fuel IH]; intros self records self' E; [discriminate|].
  rewrite DNBinary_parse_S in E.
  destruct (RecordStream_record _) as [[[record|e] stream]|] eqn:Er; [|done..].
  pose proof (RecordStream_record_wf _ _ _ Er) as Hwf.
  apply RecordStream_record_registered in Er. cbv zeta in E.
  destruct (isinstance_MessageEnd record) eqn:Hm.
  - inversion E; subst. exists [record]. simpl. rewrite Hwf, Er.
    destruct record; done.
  - apply IH in E as (new & -> & Hrec & Hend & Hwfs & Hobj).
    exists (record :: new). simpl in *.
    rewrite Hrec, Hobj, Er, Hwf, Hwfs, <- app_assoc.
    split; [done|]. split; [done|]. split; [|done].
    by apply ends_in_only_MessageEnd_cons.
Qed.

(** X15. The records [parse_bytes] returns end in a [MessageEnd], their
    only one; they are the records the [DNBinary] object holds, the object
    table is the one these records make, and there is at most one record
    per byte read. *)
Theorem parse_result_shape (data : list byte) (records : list RecordItem) self :
  parse_bytes data = Some (Return records, self) ->
  ends_in_only_MessageEnd records = true
  /\ DNBinary_records self = records
  /\ RecordStream_objects (DNBinary_stream self) = objects_of records
  /\ (length records + length (RecordStream_stream (DNBinary_stream self))
      <= length data)%nat.
Proof.
  intros E. pose proof E as E'.
  apply DNBinary_parse_new in E as (new & -> & Hrec & Hend & _ & Hobj).
  simpl in *. split; [done|]. split; [done|]. split; [done|].
  unfold parse_bytes, parse_stream in E'.
  destruct (DNBinary_parse_terminates (S (length data)) (DNBinary_init data))
    as (o & self'' & E'' & Hle); [simpl; lia|].
  rewrite E' in E''. injection E'' as _ <-. rewrite Hrec in Hle. simpl in Hle. lia.
Qed.

Lemma parse_result_shape_witness :
  ends_in_only_MessageEnd [SerializedStreamHeader 1 (-1) 1 0; MessageEnd] = true.
Proof.
  apply (parse_result_shape
           [x00; x01; x00; x00; x00; xff; xff; xff; xff; x01; x00; x00; x00;
            x00; x00; x00; x00; x0b; x0b]
           [SerializedStreamHeader 1 (-1) 1 0; MessageEnd]
           (mkDNBinary (mkRecordStream [x0b] ∅)
                       [SerializedStreamHeader 1 (-1) 1 0; MessageEnd])).
  vm_compute. reflexivity.
Defined.

(** X16. What has been decoded can be encoded and decoded again: the
    records [parse_bytes] returns have integer fields within 32 bits and
    strings of scalar values shorter than 2^35 bytes, so
    [serialize_records] accepts them, and decoding its bytes gives the
    same records and the same object table. *)
Theorem parse_then_serialize (data : list byte) (records : list RecordItem) self :
  parse_bytes data = Some (Return records, self) ->
  forallb wf_record records = true
  /\ exists data',
      serialize_records records
      = Some (Return data', mkRecordWriter data' (objects_of records))
      /\ parse_bytes data'
         = Some (Return records,
                 mkDNBinary (mkRecordStream [] (objects_of records)) records)
      /\ RecordStream_objects (DNBinary_stream self) = objects_of records.
Proof.
  intros E.
  apply DNBinary_parse_new in E as (new & -> & Hrec & Hend & Hwf & Hobj).
  simpl in *. split; [done|]. exists (wire_records new).
  split; [by apply serialize_records_wire|].
  split; [by apply parse_bytes_wire_terminated | done].
Qed.

Lemma parse_then_serialize_witness :
  forallb wf_record [BinaryObjectString 1 [104; 105]; MessageEnd] = true
  /\ exists data',
      serialize_records [BinaryObjectString 1 [104; 105]; MessageEnd]
      = Some (Return data',
              mkRecordWriter data'
                (objects_of [BinaryObjectString 1 [104; 105]; MessageEnd]))
      /\ parse_bytes data'
         = Some (Return [BinaryObjectString 1 [104; 105]; MessageEnd],
                 mkDNBinary
                   (mkRecordStream []
                      (objects_of [BinaryObjectString 1 [104; 105]; MessageEnd]))
                   [BinaryObjectString 1 [104; 105]; MessageEnd])
      /\ ({[ 1 := BinaryObjectString 1 [104; 105] ]} : gmap Z RecordItem)
         = objects_of [BinaryObjectString 1 [104; 105]; MessageEnd].
Proof.
  assert (E : parse_bytes [x06; x01; x00; x00; x00; x82; x00; x68; x69; x0b; xff]
              = Some (Return [BinaryObjectString 1 [104; 105]; MessageEnd],
                      mkDNBinary
                        (mkRecordStream [xff]
                           {[ 1 := BinaryObjectString 1 [104; 105] ]})
                        [BinaryObjectString 1 [104; 105]; MessageEnd]))
    by (vm_compute; reflexivity).
  exact (parse_then_serialize _ _ _ E).
Defined.

(** X17. [DNBinary.parse] never clears [_records]: a second call on the
    same object returns the records of the first call followed by the
    records it reads itself, which again end in their only [MessageEnd],
    and it enters these in the table the first call left. *)
Theorem parse_again_accumulates (data : list byte) fuel
    (records1 records2 : list RecordItem) self1 self2 :
  parse_bytes data = Some (Return records1, self1) ->
  DNBinary_parse fuel self1 = Some (Return records2, self2) ->
  exists new,
    records2 = records1 ++ new
    /\ DNBinary_records self2 = records2
    /\ ends_in_only_MessageEnd new = true
    /\ RecordStream_objects (DNBinary_stream self2)
       = foldl registered (objects_of records1) new.
Proof.
  intros E1 E2.
  apply DNBinary_parse_new in E1 as (new1 & -> & Hrec1 & _ & _ & Hobj1).
  apply DNBinary_parse_new in E2 as (new & -> & Hrec2 & Hend & _ & Hobj2).
  simpl in *. exists new. rewrite Hrec1. split; [done|]. split; [by rewrite Hrec2, Hrec1|].
  split; [done|]. by rewrite Hobj2, Hobj1.
Qed.

Lemma parse_again_accumulates_witness :
  exists new,
    [MessageEnd; BinaryObjectString 5 [97]; MessageEnd] = [MessageEnd] ++ new
    /\ [MessageEnd; BinaryObjectString 5 [97]; MessageEnd]
       = [MessageEnd; BinaryObjectString 5 [97]; MessageEnd]
    /\ ends_in_only_MessageEnd new = true
    /\ ({[ 5 := BinaryObjectString 5 [97] ]} : gmap Z RecordItem)
       = foldl registered (objects_of [MessageEnd]) new.
Proof.
  assert (E1 : parse_bytes [x0b; x06; x05; x00; x00; x00; x01; x61; x0b]
               = Some (Return [MessageEnd],
                       mkDNBinary
                         (mkRecordStream [x06; x05; x00; x00; x00; x01; x61; x0b] ∅)
                         [MessageEnd]))
    by (vm_compute; reflexivity).
  assert (E2 : DNBinary_parse 2
                 (mkDNBinary
                    (mkRecordStream [x06; x05; x00; x00; x00; x01; x61; x0b] ∅)
                    [MessageEnd])
               = Some (Return [MessageEnd; BinaryObjectString 5 [97]; MessageEnd],
                       mkDNBinary
                         (mkRecordStream [] {[ 5 := BinaryObjectString 5 [97] ]})
                         [MessageEnd; BinaryObjectString 5 [97]; MessageEnd]))
    by (vm_compute; reflexivity).
  exact (parse_again_accumulates _ _ _ _ _ _ E1 E2).
Defined.

(** ** Bytes after the end, and the exceptions of the decoder *)

Lemma extension_safe_bind {A B} (m : M RecordStream A) (f : A -> M RecordStream B) :
  extension_safe m -> (forall a, extension_safe (f a)) ->
  extension_safe (bind m f).
Proof.
  intros Hm Hf head tail objs o head' objs' E Ho.
  apply bind_inv in E as [(a & [h1 o1] & E1 & E2) | (e & E1 & ->)].
  - rewrite (bind_Return _ _ _ _ _ (Hm head tail objs _ _ _ E1 ltac:(done))).
    by apply Hf.
  - assert (Ho' : @Raise A e <> Raise EOFError) by congruence.
    by rewrite (bind_Raise _ _ _ _ _ (Hm head tail objs _ _ _ E1 Ho')).
Qed.

Lemma extension_safe_ret {A} (a : A) : extension_safe (ret a).
Proof. intros head tail objs o head' objs' E _. by inversion E. Qed.

Lemma extension_safe_raise {A} e : extension_safe (@raise _ A e).
Proof. intros head tail objs o head' objs' E _. by inversion E. Qed.

Lemma extension_safe_lift {A} (o : outcome A) : extension_safe (lift o).
Proof. intros head tail objs o' head' objs' E _. by inversion E. Qed.

Lemma PrimitiveStream_read_raises size data objs e self' :
  PrimitiveStream_read size (mkRecordStream data objs) = Some (Raise e, self') ->
  e = EOFError /\ self' = mkRecordStream [] objs
  /\ (size < 0 \/ Z.of_nat (length data) < size).
Proof.
  intros E.
  destruct (Z_lt_le_dec size 0) as [Hneg|Hpos].
  { unfold PrimitiveStream_read, bind, stream_read in E; simpl in E.
    destruct (Z.ltb_spec size 0); [|lia].
    destruct (Z.eqb_spec (Z.of_nat (length data)) size); [lia|].
    inversion E. split; [done|]. split; [done|]. by left. }
  destruct (Z_lt_le_dec (Z.of_nat (length data)) size) as [Hshort|Hok].
  - rewrite PrimitiveStream_read_short in E by done. inversion E.
    split; [done|]. split; [done|]. by right.
  - by rewrite PrimitiveStream_read_enough in E by lia.
Qed.

Lemma extension_safe_read (size : Z) : extension_safe (PrimitiveStream_read size).
Proof.
  intros head tail objs o head' objs' E Ho.
  destruct o as [read|e].
  - apply PrimitiveStream_read_inv in E as (Hsize & -> & Hs). inversion Hs; subst.
    rewrite PrimitiveStream_read_enough by (rewrite length_app; lia).
    by rewrite take_app_le, drop_app_le by lia.
  - apply PrimitiveStream_read_raises in E as [-> _]. done.
Qed.

Lemma extension_safe_byte : extension_safe PrimitiveStream_byte.
Proof.
  apply extension_safe_bind;
    [apply extension_safe_read | intros; apply extension_safe_lift].
Qed.

Lemma extension_safe_int32 : extension_safe PrimitiveStream_int32.
Proof.
  apply extension_safe_bind;
    [apply extension_safe_read | intros; apply extension_safe_lift].
Qed.

Lemma extension_safe_string_length n : forall i length shift,
  extension_safe (string_length n i length shift).
Proof.
  induction n as [|n IH]; intros i len shift; simpl.
  - apply extension_safe_ret.
  - apply extension_safe_bind; [apply extension_safe_byte|]. intros b.
    destruct (_ =? 0); [apply extension_safe_ret|].
    destruct (i =? 4); [apply extension_safe_raise | apply IH].
Qed.

Lemma extension_safe_string : extension_safe PrimitiveStream_string.
Proof.
  apply extension_safe_bind; [apply extension_safe_string_length|]. intros len.
  apply extension_safe_bind;
    [apply extension_safe_read | intros; apply extension_safe_lift].
Qed.

Lemma extension_safe_set_object ref obj :
  extension_safe (RecordStream_set_object ref obj).
Proof. intros head tail objs o head' objs' E _. by inversion E. Qed.

Lemma extension_safe_parse (self : RecordTypeEnum) :
  extension_safe (RecordTypeEnum_parse self).
Proof.
  destruct self; simpl.
  - repeat (apply extension_safe_bind; [apply extension_safe_int32 | intros ?]).
    apply extension_safe_ret.
  - apply extension_safe_bind; [apply extension_safe_int32 | intros ?].
    apply extension_safe_bind; [apply extension_safe_string | intros ?].
    apply extension_safe_bind; [apply extension_safe_set_object | intros ?].
    apply extension_safe_ret.
  - apply extension_safe_ret.
Qed.

Lemma extension_safe_record : extension_safe RecordStream_record.
Proof.
  apply extension_safe_bind; [apply extension_safe_byte | intros tag].
  apply extension_safe_bind; [apply extension_safe_lift | apply extension_safe_parse].
Qed.

Lemma DNBinary_parse_extended fuel :
  forall head tail objs done o head' objs' records,
    DNBinary_parse fuel (mkDNBinary (mkRecordStream head objs) done)
    = Some (o, mkDNBinary (mkRecordStream head' objs') records) ->
    o <> Raise EOFError ->
    DNBinary_parse fuel (mkDNBinary (mkRecordStream (head ++ tail) objs) done)
    = Some (o, mkDNBinary (mkRecordStream (head' ++ tail) objs') records).
Proof.
  induction fuel as [|fuel IH]; intros head tail objs done o head' objs' records E Ho;
    [discriminate|].
  rewrite DNBinary_parse_S in *. cbn [DNBinary_stream DNBinary_records] in *.
  destruct (RecordStream_record (mkRecordStream head objs))
    as [[[record|e] [h1 o1]]|] eqn:Er; [| |done].
  - rewrite (extension_safe_record head tail objs _ _ _ Er ltac:(done)).
    cbv zeta in *. destruct (isinstance_MessageEnd record).
    + by inversion E.
    + by apply IH.
  - inversion E; subst.
    assert (Ho' : @Raise RecordItem e <> Raise EOFError) by congruence.
    by rewrite (extension_safe_record head tail objs _ _ _ Er Ho').
Qed.

(** X18. The decoder does not look at what follows the [MessageEnd]:
    when decoding ends with records, or with an exception other than
    [EOFError], it ends in the same way on the same bytes followed by any
    others, which are left unread. *)
Theorem trailing_bytes_ignored (data extra : list byte) o stream objs records :
  parse_bytes data = Some (o, mkDNBinary (mkRecordStream stream objs) records) ->
  o <> Raise EOFError ->
  parse_bytes (data ++ extra)
  = Some (o, mkDNBinary (mkRecordStream (stream ++ extra) objs) records).
Proof.
  intros E Ho. unfold parse_bytes, parse_stream, DNBinary_init in E.
  apply (DNBinary_parse_extended _ _ extra) in E; [|done].
  by apply parse_bytes_fuel in E.
Qed.

Lemma trailing_bytes_ignored_witness :
  parse_bytes ([x0b] ++ [x06; x01])
  = Some (Return [MessageEnd],
          mkDNBinary (mkRecordStream ([] ++ [x06; x01]) ∅) [MessageEnd]).
Proof.
  apply (trailing_bytes_ignored [x0b] [x06; x01] (Return [MessageEnd]) [] ∅
           [MessageEnd]).
  - reflexivity.
  - discriminate.
Defined.

Lemma decoded_raises (c : Z) (o : outcome str) e :
  decoded c o = Raise e -> o = Raise e.
Proof. destruct o; [discriminate|]. by intros E. Qed.

Lemma bytes_decode_raises (n : nat) : forall (raw : list byte) e,
  (length raw <= n)%nat ->
  bytes_decode raw = Raise e -> e = UnicodeDecodeError.
Proof.
  induction n as [|n IH]; intros raw e Hn E.
  { destruct raw; [discriminate | simpl in Hn; lia]. }
  destruct raw as [|b0 raw1]; [discriminate|].
  cbn [bytes_decode] in E. cbv zeta in E. simpl in Hn.
  destruct (byte_to_Z b0 <? 128).
  { apply decoded_raises in E. apply (IH raw1); [lia | done]. }
  destruct (byte_to_Z b0 <? 192); [by inversion E|].
  destruct (byte_to_Z b0 <? 224).
  { destruct raw1 as [|b1 raw2]; [by inversion E|].
    destruct (utf8_cont b1); [|by inversion E].
    destruct (128 <=? _); [|by inversion E].
    apply decoded_raises in E. apply (IH raw2); [simpl in Hn; lia | done]. }
  destruct (byte_to_Z b0 <? 240).
  { destruct raw1 as [|b1 [|b2 raw3]]; [by inversion E..|].
    destruct (utf8_cont b1); [|by inversion E].
    destruct (utf8_cont b2); [|by inversion E].
    destruct (_ && _); [|by inversion E].
    apply decoded_raises in E. apply (IH raw3); [simpl in Hn; lia | done]. }
  destruct (byte_to_Z b0 <? 248); [|by inversion E].
  destruct raw1 as [|b1 [|b2 [|b3 raw4]]]; [by inversion E..|].
  destruct (utf8_cont b1); [|by inversion E].
  destruct (utf8_cont b2); [|by inversion E].
  destruct (utf8_cont b3); [|by inversion E].
  destruct (_ && _); [|by inversion E].
  apply decoded_raises in E. apply (IH raw4); [simpl in Hn; lia | done].
Qed.

Lemma raises_as_decoder_bind {A B} (m : M RecordStream A) (f : A -> M RecordStream B) :
  raises_as_decoder m -> (forall a, raises_as_decoder (f a)) ->
  raises_as_decoder (bind m f).
Proof.
  intros Hm Hf self e self' E.
  apply bind_inv in E as [(a & s1 & E1 & E2) | (e' & E1 & Heq)].
  - exact (Hf a s1 e self' E2).
  - inversion Heq; subst. exact (Hm self e' self' E1).
Qed.

Lemma raises_as_decoder_ret {A} (a : A) : raises_as_decoder (ret a).
Proof. intros self e self' E. discriminate. Qed.

Lemma raises_as_decoder_read size : raises_as_decoder (PrimitiveStream_read size).
Proof.
  intros [data objs] e self' E.
  apply PrimitiveStream_read_raises in E as (-> & -> & _). done.
Qed.

Lemma raises_as_decoder_byte : raises_as_decoder PrimitiveStream_byte.
Proof.
  intros [data objs] e self' E.
  apply bind_inv in E as [(read & s1 & E1 & E2) | (e' & E1 & Heq)].
  - apply PrimitiveStream_read_inv in E1 as (Hsize & -> & ->).
    destruct data as [|b0 rest]; simpl in Hsize; [lia|].
    change (Z.to_nat 1) with 1%nat in E2. cbn [take] in E2.
    rewrite take_0 in E2. discriminate.
  - inversion Heq; subst. by apply raises_as_decoder_read in E1.
Qed.

Lemma raises_as_decoder_int32 : raises_as_decoder PrimitiveStream_int32.
Proof.
  intros [data objs] e self' E.
  apply bind_inv in E as [(read & s1 & E1 & E2) | (e' & E1 & Heq)].
  - apply PrimitiveStream_read_inv in E1 as (Hsize & -> & ->).
    destruct data as [|b0 [|b1 [|b2 [|b3 rest]]]]; simpl in Hsize; try lia.
    change (Z.to_nat 4) with 4%nat in E2. cbn [take] in E2.
    rewrite take_0 in E2. discriminate.
  - inversion Heq; subst. by apply raises_as_decoder_read in E1.
Qed.

Lemma raises_as_decoder_string_length n : forall i length shift,
  raises_as_decoder (string_length n i length shift).
Proof.
  induction n as [|n IH]; intros i len shift; simpl.
  - apply raises_as_decoder_ret.
  - apply raises_as_decoder_bind; [apply raises_as_decoder_byte|]. intros b.
    destruct (_ =? 0); [apply raises_as_decoder_ret|].
    destruct (i =? 4); [|apply IH].
    intros self e self' E. inversion E. done.
Qed.

Lemma raises_as_decoder_string : raises_as_decoder PrimitiveStream_string.
Proof.
  apply raises_as_decoder_bind; [apply raises_as_decoder_string_length|].
  intros len. apply raises_as_decoder_bind; [apply raises_as_decoder_read|].
  intros raw self e self' E. unfold lift in E. inversion E as [[Hd Hs]].
  apply (bytes_decode_raises (length raw)) in Hd as ->; done.
Qed.

Lemma raises_as_decoder_parse (self : RecordTypeEnum) :
  raises_as_decoder (RecordTypeEnum_parse self).
Proof.
  destruct self; simpl.
  - repeat (apply raises_as_decoder_bind; [apply raises_as_decoder_int32 | intros ?]).
    apply raises_as_decoder_ret.
  - apply raises_as_decoder_bind; [apply raises_as_decoder_int32 | intros ?].
    apply raises_as_decoder_bind; [apply raises_as_decoder_string | intros ?].
    apply raises_as_decoder_bind; [|intros ?; apply raises_as_decoder_ret].
    intros s e s' E. discriminate.
  - apply raises_as_decoder_ret.
Qed.

Lemma raises_as_decoder_record : raises_as_decoder RecordStream_record.
Proof.
  apply raises_as_decoder_bind; [apply raises_as_decoder_byte | intros tag].
  apply raises_as_decoder_bind; [|apply raises_as_decoder_parse].
  intros self e self' E. unfold lift, RecordTypeEnum_call in E.
  destruct (tag =? 0); [discriminate|]. destruct (tag =? 6); [discriminate|].
  destruct (tag =? 11); [discriminate|]. by inversion E.
Qed.

Lemma DNBinary_parse_raises fuel : forall self e self',
  DNBinary_parse fuel self = Some (Raise e, self') ->
  decoder_exn e = true
  /\ (e = EOFError -> RecordStream_stream (DNBinary_stream self') = []).
Proof.
  induction fuel as [|fuel IH]; intros self e self' E; [discriminate|].
  rewrite DNBinary_parse_S in E.
  destruct (RecordStream_record _) as [[[record|e'] stream]|] eqn:Er; [| |done].
  - cbv zeta in E. destruct (isinstance_MessageEnd record); [discriminate|].
    by apply IH in E.
  - inversion E; subst. by apply raises_as_decoder_record in Er.
Qed.

(** X19. Decoding raises nothing but [EOFError], [RuntimeError] (a length
    prefix of more than five bytes), the [ValueError] of an unknown tag
    and [UnicodeDecodeError]; in particular [struct.unpack] never fails,
    as it is only given what [read] has checked. *)
Theorem decoder_exceptions (data : list byte) (e : exn) self :
  parse_bytes data = Some (Raise e, self) ->
  e = EOFError \/ e = RuntimeError \/ e = ValueError_enum
  \/ e = UnicodeDecodeError.
Proof.
  intros E. apply DNBinary_parse_raises in E as [He _].
  destruct e; try discriminate; auto.
Qed.

Lemma decoder_exceptions_witness :
  UnicodeDecodeError = EOFError \/ UnicodeDecodeError = RuntimeError
  \/ UnicodeDecodeError = ValueError_enum
  \/ UnicodeDecodeError = UnicodeDecodeError.
Proof.
  apply (decoder_exceptions [x06; x01; x00; x00; x00; x01; xff; x0b]
           UnicodeDecodeError
           (mkDNBinary (mkRecordStream [x0b] ∅) [])).
  vm_compute. reflexivity.
Defined.

(** X20. [EOFError] is raised only at the end of the input: when decoding
    ends with it, the whole stream has been read. *)
Theorem EOFError_at_end_of_stream (data : list byte) self :
  parse_bytes data = Some (Raise EOFError, self) ->
  RecordStream_stream (DNBinary_stream self) = [].
Proof.
  intros E. apply DNBinary_parse_raises in E as [_ He]. by apply He.
Qed.

Lemma EOFError_at_end_of_stream_witness :
  RecordStream_stream (DNBinary_stream (mkDNBinary (mkRecordStream [] ∅) [])) = [].
Proof.
  assert (E : parse_bytes [x00; x01; x02]
              = Some (Raise EOFError, mkDNBinary (mkRecordStream [] ∅) []))
    by (vm_compute; reflexivity).
  exact (EOFError_at_end_of_stream _ _ E).
Defined.

(** ** Encodings and the object count *)

Lemma wire_records_injective (records1 : list RecordItem) :
  forall records2,
    forallb wf_record records1 = true -> forallb wf_record records2 = true ->
    wire_records records1 = wire_records records2 -> records1 = records2.
Proof.
  induction records1 as [|r1 rest1 IH]; intros [|r2 rest2] H1 H2 E; [done| | |].
  - simpl in H2. apply andb_true_iff in H2 as [Hr2 _].
    pose proof (RecordStream_record_wire r2 (wire_records rest2) ∅ Hr2) as E2.
    unfold wire_records in E; simpl in E.
    fold (wire_records rest2) in E. by rewrite <- E in E2.
  - simpl in H1. apply andb_true_iff in H1 as [Hr1 _].
    pose proof (RecordStream_record_wire r1 (wire_records rest1) ∅ Hr1) as E1.
    unfold wire_records in E; simpl in E.
    fold (wire_records rest1) in E. by rewrite E in E1.
  - simpl in H1, H2.
    apply andb_true_iff in H1 as [Hr1 H1]. apply andb_true_iff in H2 as [Hr2 H2].
    pose proof (RecordStream_record_wire r1 (wire_records rest1) ∅ Hr1) as E1.
    pose proof (RecordStream_record_wire r2 (wire_records rest2) ∅ Hr2) as E2.
    unfold wire_records in E; simpl in E.
    fold (wire_records rest1) in E. fold (wire_records rest2) in E.
    rewrite E, E2 in E1. inversion E1; subst. f_equal. by apply IH.
Qed.

Lemma serialize_records_Return (records : list RecordItem) data writer :
  serialize_records records = Some (Return data, writer) ->
  forallb writable records = true
  /\ data = wire_records records
  /\ writer = mkRecordWriter data (objects_of records).
Proof.
  intros E. unfold serialize_records in E.
  destruct (forallb writable records) eqn:Hw.
  - rewrite (bind_Return _ _ _ _ _ (for_records_writable records [] ∅ Hw)) in E.
    by inversion E.
  - apply forallb_false_split in Hw as (good & bad & rest & -> & Hg & Hb).
    destruct (for_records_unwritable good bad [] ∅ Hg Hb)
      as (e & partial & He & E').
    by rewrite (bind_Raise _ _ _ _ _ (E' rest)) in E.
Qed.

(** X21. Encoding is injective: two record sequences (integer fields
    within 32 bits, strings of scalar values shorter than 2^35 bytes)
    that are encoded to the same bytes are the same sequence. *)
Theorem serialize_records_injective (records1 records2 : list RecordItem)
    (data : list byte) writer1 writer2 :
  forallb wf_record records1 = true -> forallb wf_record records2 = true ->
  serialize_records records1 = Some (Return data, writer1) ->
  serialize_records records2 = Some (Return data, writer2) ->
  records1 = records2.
Proof.
  intros H1 H2 E1 E2.
  apply serialize_records_Return in E1 as (_ & -> & _).
  apply serialize_records_Return in E2 as (_ & E & _).
  by apply wire_records_injective.
Qed.

Lemma serialize_records_injective_witness :
  [BinaryObjectString 1 [104]; MessageEnd] = [BinaryObjectString 1 [104]; MessageEnd].
Proof.
  apply (serialize_records_injective
           [BinaryObjectString 1 [104]; MessageEnd]
           [BinaryObjectString 1 [104]; MessageEnd]
           [x06; x01; x00; x00; x00; x01; x68; x0b]
           (mkRecordWriter [x06; x01; x00; x00; x00; x01; x68; x0b]
                           {[ 1 := BinaryObjectString 1 [104] ]})
           (mkRecordWriter [x06; x01; x00; x00; x00; x01; x68; x0b]
                           {[ 1 := BinaryObjectString 1 [104] ]}));
    vm_compute; reflexivity.
Defined.

Lemma dom_foldl_registered (records : list RecordItem) :
  forall objs : gmap Z RecordItem,
    dom (foldl registered objs records)
    = (list_to_set (object_ids records) ∪ dom objs : gset Z).
Proof.
  induction records as [|record rest IH]; intros objs; simpl.
  - by rewrite (left_id_L ∅ (∪)).
  - rewrite IH. destruct record as [| object_id value |]; simpl; [done| |done].
    rewrite dom_insert_L, ?list_to_set_cons, (assoc_L (∪)).
    by rewrite (comm_L (∪) (list_to_set (object_ids rest)) {[object_id]}).
Qed.

Lemma size_objects_of (records : list RecordItem) :
  size (objects_of records) = length (remove_dups (object_ids records)).
Proof.
  unfold objects_of.
  rewrite <- (size_dom (D := gset Z)), dom_foldl_registered, dom_empty_L.
  rewrite (right_id_L ∅ (∪)).
  rewrite <- (size_list_to_set (C := gset Z) (remove_dups (object_ids records)))
    by apply NoDup_remove_dups.
  f_equal. apply set_eq. intros x.
  by rewrite !elem_of_list_to_set, elem_of_remove_dups.
Qed.

Lemma length_remove_dups_le (l : list Z) : (length (remove_dups l) <= length l)%nat.
Proof.
  induction l as [|x l IH]; simpl; [done|].
  destruct (decide_rel elem_of x l); simpl; lia.
Qed.

(** X22. [object_definitions] counts the distinct ids: after decoding, and
    after encoding, it is the number of different ids among the
    [BinaryObjectString] records, which is at most the number of these
    records, and equal to it when no id occurs twice. *)
Theorem object_definitions_count (records : list RecordItem) :
  (forall data self,
      parse_bytes data = Some (Return records, self) ->
      DNBinary_object_definitions self
      = length (remove_dups (object_ids records)))
  /\ (forall data writer,
        serialize_records records = Some (Return data, writer) ->
        RecordWriter_object_definitions writer
        = length (remove_dups (object_ids records)))
  /\ (length (remove_dups (object_ids records)) <= length (object_ids records))%nat
  /\ (NoDup (object_ids records) ->
      length (remove_dups (object_ids records)) = length (object_ids records)).
Proof.
  split; [|split; [|split]].
  - intros data self E. apply parse_bytes_objects in E as [_ Hobj].
    unfold DNBinary_object_definitions, RecordStream_object_definitions.
    rewrite Hobj. apply size_objects_of.
  - intros data writer E. apply serialize_records_Return in E as (_ & _ & ->).
    unfold RecordWriter_object_definitions. simpl. apply size_objects_of.
  - apply length_remove_dups_le.
  - intros Hnd.
    rewrite <- (size_list_to_set (C := gset Z) (remove_dups (object_ids records)))
      by apply NoDup_remove_dups.
    rewrite <- (size_list_to_set (C := gset Z) (object_ids records)) by done.
    f_equal. apply set_eq. intros x.
    by rewrite !elem_of_list_to_set, elem_of_remove_dups.
Qed.

Lemma object_definitions_count_witness :
  DNBinary_object_definitions
    (mkDNBinary
       (mkRecordStream [] {[ 5 := BinaryObjectString 5 [98] ]})
       [BinaryObjectString 5 [97]; BinaryObjectString 5 [98]; MessageEnd])
  = length (remove_dups
              (object_ids
                 [BinaryObjectString 5 [97]; BinaryObjectString 5 [98]; MessageEnd])).
Proof.
  apply (proj1 (object_definitions_count
                  [BinaryObjectString 5 [97]; BinaryObjectString 5 [98]; MessageEnd])
           [x06; x05; x00; x00; x00; x01; x61;
            x06; x05; x00; x00; x00; x01; x62; x0b]).
  vm_compute. reflexivity.
Defined.

(** ** What the decoder makes of the encoding of any writable sequence *)

Lemma wf_writable_readable (record : RecordItem) :
  wf_record record = (writable record && readable record).
Proof.
  destruct record; unfold wf_record, writable, readable, int32_fields;
    by rewrite ?andb_true_r.
Qed.

Lemma RecordStream_record_unreadable (record : RecordItem) rest objs :
  writable record = true -> readable record = false ->
  exists stream',
    RecordStream_record (mkRecordStream (wire record ++ rest) objs)
    = Some (Raise RuntimeError, mkRecordStream stream' objs).
Proof.
  destruct record as [| object_id value |]; [discriminate | | discriminate].
  rewrite writable_BinaryObjectString. intros Hw Hr.
  apply andb_true_iff in Hw as [Hid Hv]. simpl in Hr. apply Z.ltb_ge in Hr.
  destruct (str_encode_scalar value Hv) as [encoded He].
  unfold utf8_length in Hr. rewrite He in Hr.
  destruct (string_length_prefix_too_long 5 (length encoded)
              (Z.of_nat (length encoded)) 0 0 0 (encoded ++ rest) objs
              ltac:(lia) ltac:(lia) ltac:(lia) ltac:(lia))
    as ([stream' objs'] & Es & Hobj).
  simpl in Hobj. subst objs'. exists stream'.
  cbn [wire app]. unfold RecordStream_record.
  rewrite (bind_Return _ _ _ _ _ (PrimitiveStream_byte_cons _ _ objs)).
  unfold bind at 1, lift.
  change (RecordTypeEnum_call (byte_to_Z x06)) with (Return Enum_BinaryObjectString).
  cbn [RecordTypeEnum_parse]. rewrite <- !app_assoc.
  rewrite (bind_Return _ _ _ _ _ (PrimitiveStream_int32_wire object_id _ objs Hid)).
  unfold string_bytes. rewrite He, <- app_assoc.
  unfold PrimitiveStream_string.
  by rewrite (bind_Raise _ _ _ _ _ (bind_Raise _ _ _ _ _ Es)).
Qed.

(** The loop reads the records of [decoded_part] and enters them in the
    table; it returns them when the last of them is a [MessageEnd], and
    otherwise runs into the end of the bytes or into a length prefix that
    is too long. *)
Lemma DNBinary_parse_writable (records : list RecordItem) :
  forall fuel done objs,
    forallb writable records = true ->
    (length records < fuel)%nat ->
    exists o stream',
      DNBinary_parse fuel
        (mkDNBinary (mkRecordStream (wire_records records) objs) done)
      = Some (o, mkDNBinary
                   (mkRecordStream stream'
                      (foldl registered objs (decoded_part records)))
                   (done ++ decoded_part records))
      /\ (ends_in_only_MessageEnd (decoded_part records) = true ->
          o = Return (done ++ decoded_part records))
      /\ (o = Return (done ++ decoded_part records)
          \/ o = Raise EOFError \/ o = Raise RuntimeError).
Proof.
  induction records as [|record rest IH]; intros fuel done objs Hw Hfuel;
    (destruct fuel as [|fuel]; [simpl in Hfuel; lia|]).
  - exists (Raise EOFError), []. rewrite app_nil_r.
    split; [done|]. split; [discriminate | by right; left].
  - simpl in Hw, Hfuel. apply andb_true_iff in Hw as [Hr Hw].
    rewrite DNBinary_parse_S. cbn [DNBinary_stream DNBinary_records].
    unfold wire_records; cbn [map concat]. fold (wire_records rest).
    cbn [decoded_part]. destruct (readable record) eqn:Hread.
    + rewrite (RecordStream_record_wire record _ objs
                 ltac:(by rewrite wf_writable_readable, Hr, Hread)).
      cbv zeta. destruct (isinstance_MessageEnd record) eqn:Hm.
      * exists (Return (done ++ [record])), (wire_records rest).
        split; [done|]. split; [done | by left].
      * destruct (IH fuel (done ++ [record]) (registered objs record) Hw ltac:(lia))
          as (o & stream' & E & Hret & Hcases).
        exists o, stream'. rewrite <- !app_assoc in *. cbn [app foldl] in *.
        split; [done|]. split; [|done].
        intros Hend. apply Hret.
        destruct (decoded_part rest); [|cbn [ends_in_only_MessageEnd] in Hend].
        -- simpl in Hend. congruence.
        -- by rewrite Hm in Hend.
    + destruct (RecordStream_record_unreadable record (wire_records rest) objs Hr Hread)
        as [stream' ->].
      exists (Raise RuntimeError), stream'. rewrite app_nil_r.
      split; [done|]. split; [discriminate | by right; right].
Qed.

Lemma decoded_part_passes (read after : list RecordItem) :
  forallb passes read = true ->
  decoded_part (read ++ after) = read ++ decoded_part after.
Proof.
  induction read as [|record read IH]; [done|]. simpl. intros H.
  apply andb_true_iff in H as [Hp H]. unfold passes in Hp.
  apply andb_true_iff in Hp as [Hm Hr]. apply negb_true_iff in Hm.
  by rewrite Hr, Hm, IH.
Qed.

Lemma foldl_registered_no_BinaryObjectString (records : list RecordItem) :
  forall objs,
    forallb (fun later => negb (isinstance_BinaryObjectString later)) records = true ->
    foldl registered objs records = objs.
Proof.
  induction records as [|record rest IH]; intros objs H; [done|].
  simpl in H. apply andb_true_iff in H as [Hr H].
  cbn [foldl]. rewrite IH by done. by destruct record.
Qed.

(** When no [BinaryObjectString] follows a [MessageEnd], the records the
    decoder does not read add nothing to the table. *)
Lemma foldl_registered_decoded_part (records : list RecordItem) : forall objs,
  forallb wf_record records = true ->
  no_BinaryObjectString_after_MessageEnd records = true ->
  foldl registered objs (decoded_part records) = foldl registered objs records.
Proof.
  induction records as [|record rest IH]; intros objs Hwf Hno; [done|].
  simpl in Hwf. apply andb_true_iff in Hwf as [Hr Hwf].
  rewrite wf_writable_readable in Hr. apply andb_true_iff in Hr as [_ Hread].
  cbn [decoded_part no_BinaryObjectString_after_MessageEnd] in *. rewrite Hread.
  destruct (isinstance_MessageEnd record) eqn:Hm.
  - cbn [foldl]. by rewrite (foldl_registered_no_BinaryObjectString rest).
  - cbn [foldl]. by apply IH.
Qed.

(** Encoding a writable sequence and decoding the bytes: the two tables. *)
Lemma serialize_then_parse (records : list RecordItem) :
  forallb writable records = true ->
  exists data o stream',
    serialize_records records
    = Some (Return data, mkRecordWriter data (objects_of records))
    /\ parse_bytes data
       = Some (o, mkDNBinary
                    (mkRecordStream stream' (objects_of (decoded_part records)))
                    (decoded_part records))
    /\ (ends_in_only_MessageEnd (decoded_part records) = true ->
        o = Return (decoded_part records))
    /\ (o = Return (decoded_part records)
        \/ o = Raise EOFError \/ o = Raise RuntimeError).
Proof.
  intros Hw.
  destruct (DNBinary_parse_writable records (S (length records)) [] ∅ Hw ltac:(lia))
    as (o & stream' & E & Hret & Hcases).
  exists (wire_records records), o, stream'. split; [|split; [|done]].
  - unfold serialize_records.
    by rewrite (bind_Return _ _ _ _ _ (for_records_writable records [] ∅ Hw)).
  - by apply (parse_bytes_fuel _ (S (length records))).
Qed.

(** * The claims *)

(** C1 (amended). For a record sequence that ends in a [MessageEnd], its
    only one, whose integer fields fit a signed 32-bit integer and whose
    strings consist of Unicode scalar values (no surrogates) and have a
    UTF-8 form shorter than 2^35 bytes: encoding succeeds, and decoding the
    bytes it produces yields the same records in the same order, with
    nothing of the stream left unread. *)
Theorem roundtrip (records : list RecordItem) :
  ends_in_only_MessageEnd records = true ->
  forallb wf_record records = true ->
  exists data,
    serialize_records records
    = Some (Return data, mkRecordWriter data (objects_of records))
    /\ parse_bytes data
       = Some (Return records,
               mkDNBinary (mkRecordStream [] (objects_of records)) records).
Proof.
  intros Hend Hwf. exists (wire_records records). split.
  - by apply serialize_records_wire.
  - by apply parse_bytes_wire_terminated.
Qed.

Lemma roundtrip_witness :
  let records := [SerializedStreamHeader 1 (-1) 1 0;
                  BinaryObjectString 1 [104; 105];
                  BinaryObjectString 2 [8364; 233; 128512];
                  MessageEnd] in
  exists data,
    serialize_records records
    = Some (Return data, mkRecordWriter data (objects_of records))
    /\ parse_bytes data
       = Some (Return records,
               mkDNBinary (mkRecordStream [] (objects_of records)) records).
Proof.
  apply (roundtrip [SerializedStreamHeader 1 (-1) 1 0;
                    BinaryObjectString 1 [104; 105];
                    BinaryObjectString 2 [8364; 233; 128512];
                    MessageEnd]); reflexivity.
Defined.

(** C1 as stated fails: a string with a lone surrogate (U+D800) cannot be
    encoded, so a sequence that meets every condition of the claim has no
    encoding to decode; [str.encode] raises after the tag and the id have
    been written. *)
Lemma roundtrip_counterexample :
  let records := [BinaryObjectString 1 [55296]; MessageEnd] in
  ends_in_only_MessageEnd records = true
  /\ forallb int32_fields records = true
  /\ serialize_records records
     = Some (Raise UnicodeEncodeError, mkRecordWriter [x06; x01; x00; x00; x00] ∅)
  /\ ~ (exists data writer self,
          serialize_records records = Some (Return data, writer)
          /\ parse_bytes data = Some (Return records, self)).
Proof.
  cbv zeta. split; [reflexivity|]. split; [reflexivity|].
  assert (E : serialize_records [BinaryObjectString 1 [55296]; MessageEnd]
              = Some (Raise UnicodeEncodeError,
                      mkRecordWriter [x06; x01; x00; x00; x00] ∅))
    by (vm_compute; reflexivity).
  split; [exact E|].
  intros (data & writer & self & E' & _). rewrite E in E'. discriminate.
Qed.

(** C2. For a length below 2^28 the prefix the string writer emits is read
    back by the string reader as that length, and it has the least number
    of 7-bit groups that can hold the length: no byte sequence the reader
    accepts for the same length is shorter. *)
Theorem length_prefix_canonical (L : Z) :
  0 <= L < 2 ^ 28 ->
  exists groups : list byte,
    (forall buffer,
        string_prefix L buffer = Some (Return tt, buffer ++ groups))
    /\ (forall rest objs,
          string_length 5 0 0 0 (mkRecordStream (groups ++ rest) objs)
          = Some (Return L, mkRecordStream rest objs))
    /\ L < 128 ^ Z.of_nat (length groups)
    /\ (length groups = 1%nat \/ 128 ^ (Z.of_nat (length groups) - 1) <= L)
    /\ (forall groups' rest objs,
          string_length 5 0 0 0 (mkRecordStream (groups' ++ rest) objs)
          = Some (Return L, mkRecordStream rest objs) ->
          (length groups <= length groups')%nat).
Proof.
  intros HL. exists (prefix_bytes (Z.to_nat L) L).
  destruct (prefix_bytes_length (Z.to_nat L) L ltac:(lia)) as [Hup Hlow].
  split; [|split; [|split; [|split]]]; try done.
  - intros buffer. apply string_prefix_bytes. lia.
  - intros rest objs.
    rewrite (string_length_prefix_bytes (Z.to_nat L) L 5 0 0 0) by lia.
    do 3 f_equal. lia.
  - intros groups' rest objs E.
    apply string_length_value in E as (k & v & _ & Hk & Hk1 & Hs & HLv & Hv); [|lia].
    assert (k = length groups') as ->.
    { inversion Hs as [Hd]. apply (f_equal length) in Hd.
      rewrite length_drop, length_app in Hd. rewrite length_app in Hk. lia. }
    change (2 ^ 0) with 1 in HLv.
    destruct Hlow as [->|Hlow]; [lia|].
    remember (length (prefix_bytes (Z.to_nat L) L)) as n eqn:En. clear En.
    destruct (Nat.le_gt_cases n (length groups')) as [|Hgt]; [done|].
    exfalso.
    assert (128 ^ Z.of_nat (length groups') <= 128 ^ (Z.of_nat n - 1))
      by (apply Z.pow_le_mono_r; lia).
    lia.
Qed.

Lemma length_prefix_canonical_witness :
  exists groups : list byte,
    (forall buffer,
        string_prefix 300 buffer = Some (Return tt, buffer ++ groups))
    /\ (forall rest objs,
          string_length 5 0 0 0 (mkRecordStream (groups ++ rest) objs)
          = Some (Return 300, mkRecordStream rest objs))
    /\ 300 < 128 ^ Z.of_nat (length groups)
    /\ (length groups = 1%nat \/ 128 ^ (Z.of_nat (length groups) - 1) <= 300)
    /\ (forall groups' rest objs,
          string_length 5 0 0 0 (mkRecordStream (groups' ++ rest) objs)
          = Some (Return 300, mkRecordStream rest objs) ->
          (length groups <= length groups')%nat).
Proof. apply (length_prefix_canonical 300). lia. Defined.

(** C3 (amended). When decoding a byte sequence succeeds and uses up all
    of it (nothing follows the [MessageEnd]), decoding any of its proper
    prefixes raises [EOFError]: it neither returns records nor raises
    anything else. *)
Theorem truncated_stream_raises_EOFError
    (data : list byte) (records : list RecordItem) (self : DNBinary) (n : nat) :
  parse_bytes data = Some (Return records, self) ->
  RecordStream_stream (DNBinary_stream self) = [] ->
  (n < length data)%nat ->
  exists self', parse_bytes (take n data) = Some (Raise EOFError, self').
Proof.
  intros E Hend Hn. unfold parse_bytes, parse_stream, DNBinary_init in E.
  rewrite <- (take_drop n data) in E at 2.
  apply DNBinary_parse_truncated in E as [self' E]; [|
    intros Hnil; apply (f_equal length) in Hnil;
    rewrite length_drop in Hnil; simpl in Hnil; lia | done].
  exists self'. by apply parse_bytes_fuel in E.
Qed.

Lemma truncated_stream_raises_EOFError_witness :
  exists self',
    parse_bytes (take 6 [x06; x01; x00; x00; x00; x02; x68; x69; x0b])
    = Some (Raise EOFError, self').
Proof.
  apply (truncated_stream_raises_EOFError
           [x06; x01; x00; x00; x00; x02; x68; x69; x0b]
           [BinaryObjectString 1 [104; 105]; MessageEnd]
           (mkDNBinary (mkRecordStream [] {[ 1 := BinaryObjectString 1 [104; 105] ]})
                       [BinaryObjectString 1 [104; 105]; MessageEnd])
           6%nat).
  - vm_compute. reflexivity.
  - reflexivity.
  - simpl. lia.
Defined.

(** C3 as stated fails: the decoder stops at [MessageEnd] and does not
    look at what follows, so 0B 00 decodes, and so does its prefix 0B. *)
Lemma truncated_stream_counterexample :
  let data := [x0b; x00] in
  parse_bytes data
  = Some (Return [MessageEnd], mkDNBinary (mkRecordStream [x00] ∅) [MessageEnd])
  /\ (1 < length data)%nat
  /\ parse_bytes (take 1 data)
     = Some (Return [MessageEnd], mkDNBinary (mkRecordStream [] ∅) [MessageEnd]).
Proof. cbv zeta. split; [reflexivity|]. split; [simpl; lia | reflexivity]. Qed.

(** C4. A byte stream whose first byte is none of the tags 0, 6 and 11
    makes decoding fail with the [ValueError] of [RecordTypeEnum(tag)]
    (the unknown-record-type error): nothing is skipped, no record is
    returned or kept, and only the tag byte has been read. *)
Theorem unknown_tag_fails (tag : byte) (rest : list byte) :
  byte_to_Z tag <> 0 -> byte_to_Z tag <> 6 -> byte_to_Z tag <> 11 ->
  parse_bytes (tag :: rest)
  = Some (Raise ValueError_enum, mkDNBinary (mkRecordStream rest ∅) []).
Proof.
  intros H0 H6 H11. unfold parse_bytes, parse_stream.
  rewrite DNBinary_parse_S; simpl DNBinary_stream. unfold RecordStream_record.
  rewrite (bind_Return _ _ _ _ _ (PrimitiveStream_byte_cons tag rest ∅)).
  unfold RecordTypeEnum_call.
  destruct (Z.eqb_spec (byte_to_Z tag) 0); [done|].
  destruct (Z.eqb_spec (byte_to_Z tag) 6); [done|].
  destruct (Z.eqb_spec (byte_to_Z tag) 11); [done|].
  reflexivity.
Qed.

Lemma unknown_tag_fails_witness :
  parse_bytes [x05; x0b]
  = Some (Raise ValueError_enum, mkDNBinary (mkRecordStream [x0b] ∅) []).
Proof.
  apply (unknown_tag_fails x05 [x0b]); vm_compute; discriminate.
Defined.

(** C5 (amended). For a record sequence that can be encoded (integer
    fields that fit a signed 32-bit integer, strings of Unicode scalar
    values): encoding succeeds and leaves the object table of all the
    records; decoding the bytes leaves the object table of the records the
    decoder gets to read, those up to and including the first [MessageEnd]
    or before the first string of 2^35 bytes or more.  The two tables are
    equal exactly when the records that are not read add nothing to the
    table; they are whenever no [BinaryObjectString] follows a [MessageEnd]
    and every string is shorter than 2^35 bytes, and then, for every
    [BinaryObjectString] of the sequence, both tables map its id (5, say)
    to the same record. *)
Theorem object_tables_agree (records : list RecordItem) :
  forallb writable records = true ->
  exists data writer o self,
    serialize_records records = Some (Return data, writer)
    /\ parse_bytes data = Some (o, self)
    /\ RecordWriter_objects writer = objects_of records
    /\ RecordStream_objects (DNBinary_stream self)
       = objects_of (decoded_part records)
    /\ (RecordStream_objects (DNBinary_stream self) = RecordWriter_objects writer
        <-> objects_of (decoded_part records) = objects_of records)
    /\ (forallb wf_record records = true ->
        no_BinaryObjectString_after_MessageEnd records = true ->
        RecordStream_objects (DNBinary_stream self) = RecordWriter_objects writer
        /\ forall object_id value,
            BinaryObjectString object_id value ∈ records ->
            exists value',
              RecordWriter_objects writer !! object_id
              = Some (BinaryObjectString object_id value')
              /\ RecordStream_objects (DNBinary_stream self) !! object_id
                 = Some (BinaryObjectString object_id value')).
Proof.
  intros Hw.
  destruct (serialize_then_parse records Hw) as (data & o & stream' & Es & Ep & _).
  eexists _, _, _, _. split; [exact Es|]. split; [exact Ep|].
  cbn [RecordWriter_objects DNBinary_stream RecordStream_objects].
  split; [done|]. split; [done|]. split; [done|].
  intros Hwf Hno.
  assert (Heq : objects_of (decoded_part records) = objects_of records)
    by (by apply foldl_registered_decoded_part).
  split; [done|]. intros object_id value Hin. rewrite Heq.
  destruct (foldl_registered_elem records ∅ object_id value Hin)
    as (value' & _ & E).
  by exists value'.
Qed.

Lemma object_tables_agree_witness :
  let records := [BinaryObjectString 5 [97]; MessageEnd;
                  SerializedStreamHeader 1 2 3 4] in
  exists data writer o self,
    serialize_records records = Some (Return data, writer)
    /\ parse_bytes data = Some (o, self)
    /\ RecordStream_objects (DNBinary_stream self) = RecordWriter_objects writer
    /\ RecordWriter_objects writer !! 5 = Some (BinaryObjectString 5 [97]).
Proof.
  destruct (object_tables_agree
              [BinaryObjectString 5 [97]; MessageEnd; SerializedStreamHeader 1 2 3 4]
              eq_refl)
    as (data & writer & o & self & Es & Ep & Hw & _ & _ & Hpart).
  destruct (Hpart eq_refl eq_refl) as [Heq _].
  exists data, writer, o, self. split; [done|]. split; [done|]. split; [done|].
  rewrite Hw. reflexivity.
Defined.

(** C5 as stated fails: the encoder writes and registers the records that
    follow a [MessageEnd], the decoder stops at the [MessageEnd]; the
    encoder's table then maps 5 to a record and the decoder's table is
    empty. *)
Lemma object_tables_counterexample :
  let records := [MessageEnd; BinaryObjectString 5 [97]] in
  let data := [x0b; x06; x05; x00; x00; x00; x01; x61] in
  serialize_records records
  = Some (Return data, mkRecordWriter data {[ 5 := BinaryObjectString 5 [97] ]})
  /\ parse_bytes data
     = Some (Return [MessageEnd],
             mkDNBinary (mkRecordStream [x06; x05; x00; x00; x00; x01; x61] ∅)
                        [MessageEnd])
  /\ ({[ 5 := BinaryObjectString 5 [97] ]} : gmap Z RecordItem) !! 5
     = Some (BinaryObjectString 5 [97])
  /\ (∅ : gmap Z RecordItem) !! 5 = None
  /\ (∅ : gmap Z RecordItem) <> {[ 5 := BinaryObjectString 5 [97] ]}.
Proof.
  cbv zeta. split; [vm_compute; reflexivity|]. split; [vm_compute; reflexivity|].
  split; [apply lookup_singleton_eq|]. split; [apply lookup_empty|].
  intros H. apply (f_equal (fun objs => objs !! 5)) in H.
  rewrite lookup_empty, lookup_singleton_eq in H. discriminate.
Qed.

(** C6. Scenario 2: the records [BinaryObjectString(1, "hi")] and
    [MessageEnd()] are encoded as 06 01 00 00 00 02 68 69 0B, and these
    bytes are decoded to the same two records, with the decoder's object
    table mapping 1 to [BinaryObjectString(1, "hi")]. *)
Theorem scenario_binary_object_string :
  let hi : str := [104; 105] in
  let records := [BinaryObjectString 1 hi; MessageEnd] in
  let data := [x06; x01; x00; x00; x00; x02; x68; x69; x0b] in
  serialize_records records
  = Some (Return data, mkRecordWriter data {[ 1 := BinaryObjectString 1 hi ]})
  /\ parse_bytes data
     = Some (Return records,
             mkDNBinary (mkRecordStream [] {[ 1 := BinaryObjectString 1 hi ]})
                        records).
Proof. split; vm_compute; reflexivity. Qed.

(** C7. Reading the length prefix of a string uses up at most five bytes
    of the stream; when the fifth byte read still has its continuation bit
    (0x80) set, the read raises the [RuntimeError] of
    [PrimitiveStream.string] right after that byte: no length is returned
    and nothing more is read. *)
Theorem length_prefix_at_most_five_bytes (stream : list byte) objs :
  (exists o k, (k <= 5)%nat /\
     string_length 5 0 0 0 (mkRecordStream stream objs)
     = Some (o, mkRecordStream (drop k stream) objs))
  /\ (forall b0 b1 b2 b3 b4 rest,
        stream = b0 :: b1 :: b2 :: b3 :: b4 :: rest ->
        Z.land (byte_to_Z b0) 128 <> 0 -> Z.land (byte_to_Z b1) 128 <> 0 ->
        Z.land (byte_to_Z b2) 128 <> 0 -> Z.land (byte_to_Z b3) 128 <> 0 ->
        Z.land (byte_to_Z b4) 128 <> 0 ->
        string_length 5 0 0 0 (mkRecordStream stream objs)
        = Some (Raise RuntimeError, mkRecordStream rest objs)
        /\ PrimitiveStream_string (mkRecordStream stream objs)
           = Some (Raise RuntimeError, mkRecordStream rest objs)).
Proof.
  split; [apply string_length_at_most|].
  intros b0 b1 b2 b3 b4 rest -> H0 H1 H2 H3 H4.
  assert (E : string_length 5 0 0 0
                (mkRecordStream (b0 :: b1 :: b2 :: b3 :: b4 :: rest) objs)
              = Some (Raise RuntimeError, mkRecordStream rest objs)).
  { apply Z.eqb_neq in H0, H1, H2, H3, H4.
    do 5 (rewrite string_length_cons; cbv zeta).
    by rewrite H0, H1, H2, H3, H4. }
  split; [done|].
  unfold PrimitiveStream_string. by rewrite (bind_Raise _ _ _ _ _ E).
Qed.

Lemma length_prefix_at_most_five_bytes_witness :
  string_length 5 0 0 0 (mkRecordStream [xff; xff; xff; xff; x80; x01; x02] ∅)
  = Some (Raise RuntimeError, mkRecordStream [x01; x02] ∅)
  /\ PrimitiveStream_string (mkRecordStream [xff; xff; xff; xff; x80; x01; x02] ∅)
     = Some (Raise RuntimeError, mkRecordStream [x01; x02] ∅).
Proof.
  apply (proj2 (length_prefix_at_most_five_bytes
                  [xff; xff; xff; xff; x80; x01; x02] ∅)
           xff xff xff xff x80 [x01; x02]);
    [reflexivity | vm_compute; discriminate ..].
Defined.

(** C8 (amended). For a record sequence that holds two
    [BinaryObjectString] records with the same id and can be encoded
    (integer fields that fit a signed 32-bit integer, strings of Unicode
    scalar values): encoding succeeds, no conflict is raised, and the
    encoder's table maps the id to the later record (the last one with
    that id).  Decoding the bytes raises no conflict either: it returns
    records or ends with [EOFError] or [RuntimeError]; when no [MessageEnd]
    and no string of 2^35 bytes or more comes before the end of the later
    record, the decoder's table maps the id to the later record too, and
    the decoding succeeds when the records read after it end in a
    [MessageEnd].  For every byte stream that is decoded to such a
    sequence, the decoder's table maps the id to the later record. *)
Theorem duplicate_object_id_last_wins
    (before between after : list RecordItem) (object_id : Z) (value1 value2 : str) :
  let two :=
    before ++ BinaryObjectString object_id value1
      :: between ++ [BinaryObjectString object_id value2] in
  let records :=
    before ++ BinaryObjectString object_id value1
      :: between ++ BinaryObjectString object_id value2 :: after in
  (forall value, BinaryObjectString object_id value ∉ after) ->
  (forallb writable records = true ->
   exists data writer o self,
     serialize_records records = Some (Return data, writer)
     /\ RecordWriter_objects writer !! object_id
        = Some (BinaryObjectString object_id value2)
     /\ parse_bytes data = Some (o, self)
     /\ (o = Return (DNBinary_records self)
         \/ o = Raise EOFError \/ o = Raise RuntimeError)
     /\ (forallb passes two = true ->
         RecordStream_objects (DNBinary_stream self) !! object_id
         = Some (BinaryObjectString object_id value2)
         /\ (ends_in_only_MessageEnd (decoded_part after) = true ->
             o = Return (two ++ decoded_part after))))
  /\ (forall data self,
        parse_bytes data = Some (Return records, self) ->
        RecordStream_objects (DNBinary_stream self) !! object_id
        = Some (BinaryObjectString object_id value2)).
Proof.
  intros two records Hafter.
  assert (Hsplit : records = two ++ after).
  { unfold records, two. by rewrite <- !app_assoc, <- !app_comm_cons, <- app_assoc. }
  assert (Hlast : objects_of records !! object_id
                  = Some (BinaryObjectString object_id value2)).
  { unfold objects_of, records.
    rewrite (app_assoc before [BinaryObjectString object_id value1]
               (between ++ BinaryObjectString object_id value2 :: after)
             : before ++ BinaryObjectString object_id value1 :: _ = _).
    rewrite app_assoc. by apply foldl_registered_last. }
  split.
  - intros Hw.
    destruct (serialize_then_parse records Hw)
      as (data & o & stream' & Es & Ep & Hret & Hcases).
    eexists _, _, _, _. split; [exact Es|]. split; [exact Hlast|].
    split; [exact Ep|]. cbn [DNBinary_records DNBinary_stream RecordStream_objects].
    split; [done|]. intros Hpass.
    assert (Hdp : decoded_part records = two ++ decoded_part after)
      by (rewrite Hsplit; by apply decoded_part_passes).
    rewrite Hdp in *. split.
    + assert (Hl : two ++ decoded_part after
                   = (before ++ BinaryObjectString object_id value1 :: between)
                       ++ BinaryObjectString object_id value2 :: decoded_part after).
      { unfold two. by repeat (rewrite <- ?app_assoc; cbn [app]). }
      unfold objects_of. rewrite Hl.
      apply foldl_registered_last.
      intros value Hin. apply (Hafter value).
      clear -Hin. revert Hin. generalize after. intros l.
      induction l as [|record rest IH]; [done|]. cbn [decoded_part].
      destruct (readable record); [|intros H; by apply elem_of_nil in H].
      destruct (isinstance_MessageEnd record).
      * intros H. apply list_elem_of_singleton in H as ->. by left.
      * intros H. apply elem_of_cons in H as [->|H]; [by left | right; by apply IH].
    + intros Hend. apply Hret.
      destruct (decoded_part after) as [|r l] eqn:Ea; [discriminate|].
      clear -Hend Hpass. unfold two in *.
      revert Hpass.
      generalize (before ++ BinaryObjectString object_id value1
                    :: between ++ [BinaryObjectString object_id value2]).
      intros l0. induction l0 as [|x l0 IH]; [done|]. simpl. intros H.
      apply andb_true_iff in H as [Hx H]. unfold passes in Hx.
      apply andb_true_iff in Hx as [Hm _]. apply negb_true_iff in Hm.
      apply ends_in_only_MessageEnd_cons; [done | by apply IH].
  - intros data self E. apply parse_bytes_objects in E as [_ ->]. done.
Qed.

Lemma duplicate_object_id_last_wins_witness :
  let records := [BinaryObjectString 7 [97]; BinaryObjectString 7 [98];
                  MessageEnd; SerializedStreamHeader 1 2 3 4] in
  exists data writer self,
    serialize_records records = Some (Return data, writer)
    /\ RecordWriter_objects writer !! 7 = Some (BinaryObjectString 7 [98])
    /\ parse_bytes data
       = Some (Return [BinaryObjectString 7 [97]; BinaryObjectString 7 [98];
                       MessageEnd], self)
    /\ RecordStream_objects (DNBinary_stream self) !! 7
       = Some (BinaryObjectString 7 [98]).
Proof.
  destruct (duplicate_object_id_last_wins [] []
              [MessageEnd; SerializedStreamHeader 1 2 3 4] 7 [97] [98])
    as [Hw _].
  - intros value Hin. apply elem_of_cons in Hin as [Hin|Hin]; [discriminate|].
    apply list_elem_of_singleton in Hin. discriminate.
  - destruct (Hw eq_refl) as (data & writer & o & self & Es & Et & Ep & _ & Hd).
    destruct (Hd eq_refl) as [Hdt Hret].
    exists data, writer, self. split; [done|]. split; [done|].
    split; [by rewrite Ep, (Hret eq_refl) | done].
Defined.

(** C8 as stated fails: a sequence with two [BinaryObjectString] records
    of the same id is not encoded when one of the strings holds a lone
    surrogate ([UnicodeEncodeError]), and the encoding of one without a
    [MessageEnd] is not decoded ([EOFError], with the id mapped to the
    later record all the same). *)
Lemma duplicate_object_id_counterexample :
  serialize_records
    [BinaryObjectString 7 [55296]; BinaryObjectString 7 [97]; MessageEnd]
  = Some (Raise UnicodeEncodeError, mkRecordWriter [x06; x07; x00; x00; x00] ∅)
  /\ serialize_records [BinaryObjectString 7 [97]; BinaryObjectString 7 [98]]
     = Some (Return [x06; x07; x00; x00; x00; x01; x61;
                     x06; x07; x00; x00; x00; x01; x62],
             mkRecordWriter [x06; x07; x00; x00; x00; x01; x61;
                             x06; x07; x00; x00; x00; x01; x62]
                            {[ 7 := BinaryObjectString 7 [98] ]})
  /\ parse_bytes [x06; x07; x00; x00; x00; x01; x61;
                  x06; x07; x00; x00; x00; x01; x62]
     = Some (Raise EOFError,
             mkDNBinary (mkRecordStream [] {[ 7 := BinaryObjectString 7 [98] ]})
                        [BinaryObjectString 7 [97]; BinaryObjectString 7 [98]]).
Proof. repeat split; vm_compute; reflexivity. Qed.

(** C9. [PrimitiveWriter.byte] raises its [ValueError] exactly for the
    values outside [0, 255] and writes the byte otherwise; the values the
    encoder passes to it (the tags 0, 6 and 11, a continuation group
    [(length & 0x7F) | 0x80] and a final group [length & 0x7F]) are all in
    range, so no encoding of a record sequence ends with that error. *)
Theorem byte_writer_range_check :
  (forall value buffer,
      (~ (0 <= value <= 255) ->
       PrimitiveWriter_byte value buffer = Some (Raise ValueError_byte, buffer))
      /\ (0 <= value <= 255 ->
          PrimitiveWriter_byte value buffer
          = Some (Return tt, buffer ++ [byte_of_Z value])))
  /\ (forall self, 0 <= RecordTypeEnum_value self <= 255)
  /\ (forall length : Z,
        0 <= Z.lor (Z.land length 127) 128 <= 255
        /\ 0 <= Z.land length 127 <= 255)
  /\ (forall records writer,
        never_raises ValueError_byte (for_records records)
        /\ serialize_records records <> Some (Raise ValueError_byte, writer)).
Proof.
  split; [|split; [|split]].
  - intros value buffer. split.
    + apply PrimitiveWriter_byte_raises.
    + apply PrimitiveWriter_byte_ok.
  - intros []; simpl; lia.
  - intros len. destruct (continuation_group_range len), (final_group_range len). lia.
  - intros records writer. split; [apply never_raises_for_records|].
    unfold serialize_records.
    apply (never_raises_bind ValueError_byte (for_records records)).
    + apply never_raises_for_records.
    + intros _ s s'. discriminate.
Qed.

Lemma byte_writer_range_check_witness :
  PrimitiveWriter_byte 256 [] = Some (Raise ValueError_byte, [])
  /\ PrimitiveWriter_byte 255 [] = Some (Return tt, [xff]).
Proof.
  split.
  - apply (proj1 (proj1 byte_writer_range_check 256 [])). lia.
  - apply (proj2 (proj1 byte_writer_range_check 255 [])). lia.
Defined.

(** C10. Decoding a byte buffer always ends, with a record list or with an
    exception: a record that is read uses up at least its tag byte, so the
    loop of [DNBinary.parse] has reached [MessageEnd] or an exception after
    at most one iteration per byte of the buffer and the one that ends it;
    the outcome is the same for every larger amount of fuel, and no more
    records have been read than there are bytes. *)
Theorem decoding_terminates (data : list byte) :
  (forall stream objs record self',
      RecordStream_record (mkRecordStream stream objs) = Some (Return record, self') ->
      (length (RecordStream_stream self') < length stream)%nat)
  /\ exists o self,
      parse_bytes data = Some (o, self)
      /\ (forall fuel, (length data < fuel)%nat ->
            DNBinary_parse fuel (DNBinary_init data) = Some (o, self))
      /\ (length (DNBinary_records self) <= length data)%nat.
Proof.
  split.
  - intros stream objs record self' E.
    apply RecordStream_record_consumes in E as (tag & rest & k & -> & ->).
    rewrite length_drop. simpl. lia.
  - destruct (DNBinary_parse_terminates (S (length data)) (DNBinary_init data))
      as (o & self & E & Hle); [simpl; lia|].
    exists o, self. split; [done|]. split.
    + intros fuel Hfuel. destruct fuel as [|fuel]; [lia|].
      destruct (DNBinary_parse_terminates (S fuel) (DNBinary_init data))
        as (o' & self'' & E' & _); [simpl; lia|].
      destruct (Nat.le_ge_cases (S fuel) (S (length data))) as [Hc|Hc].
      * rewrite (DNBinary_parse_fuel _ _ _ _ Hc E') in E. by rewrite E'.
      * by apply (DNBinary_parse_fuel _ _ _ _ Hc E).
    + simpl in Hle. lia.
Qed.
